(** * pgmodeler: schema model, mutation engine, cardinality inference and
    PostgreSQL DDL generator.

    A shallow embedding of
    - [frontend/src/types/model.ts]       (the data model),
    - [frontend/src/store/modelStore.ts]  (the zustand store and its mutations),
    - [frontend/src/components/CrowFootEdge.tsx] (cardinality helpers),
    - the SQL generator of [frontend/src/lib] (topological sort and DDL text),
    followed by the properties established about them.

    Conventions of the embedding.
    - JS strings are [string]; [length], [slice] and [trim] are taken over
      the characters of the Rocq string, which agrees with JS on ASCII text.
    - [Map]s that are only read with [get]/[has] and written with [set] are
      [gmap string _]; a [Set] that is only tested and grown is a [gset];
      a [Set] or [Map] that is iterated keeps its insertion order in a list.
    - [createId()] draws from the environment; every operation that calls it
      receives the drawn identifiers as arguments, in call order.
    - Table coordinates are JS numbers, that is IEEE 754 binary64 values:
      they are [PrimFloat.float], and the layout arithmetic is that of the
      primitive floats.
    - The store is threaded explicitly: an operation is a function from the
      current [ModelState.t] to an outcome and the next state. *)

From Corelib Require Import PrimFloat.
From Stdlib Require Import String Ascii List Bool Arith ZArith Lia.
From Stdlib Require Import Relations Permutation.
From stdpp Require Import gmap strings list fin_maps pretty.

Local Open Scope string_scope.
Local Open Scope list_scope.
Local Open Scope nat_scope.

(** ** JavaScript string and array helpers *)

Module Js.

(** White space removed by [String.prototype.trim] (ASCII part). *)
Definition isSpace (c : ascii) : bool :=
  let n := nat_of_ascii c in
  (n =? 32) || (n =? 9) || (n =? 10) || (n =? 11) || (n =? 12) || (n =? 13).

Fixpoint trimStart (s : string) : string :=
  match s with
  | EmptyString => EmptyString
  | String c rest => if isSpace c then trimStart rest else s
  end.

Fixpoint trimEnd (s : string) : string :=
  match s with
  | EmptyString => EmptyString
  | String c rest =>
      match trimEnd rest with
      | EmptyString => if isSpace c then EmptyString else String c EmptyString
      | kept => String c kept
      end
  end.

Definition trim (s : string) : string := trimEnd (trimStart s).

(** [s.slice(0, n)] *)
Definition slice0 (n : nat) (s : string) : string := substring 0 n s.

(** [s.startsWith(p)] *)
Definition startsWith (p s : string) : bool := String.prefix p s.

(** [s.replaceAll(c, by)] for a one-character pattern. *)
Fixpoint replaceAll (c : ascii) (by_ : string) (s : string) : string :=
  match s with
  | EmptyString => EmptyString
  | String d rest =>
      if Ascii.eqb d c then by_ +:+ replaceAll c by_ rest
      else String d (replaceAll c by_ rest)
  end.

(** [parts.join(sep)] *)
Definition join (sep : string) (parts : list string) : string :=
  String.concat sep parts.

(** Truthiness of a possibly absent string: [undefined], [null] and the
    empty string are falsy. *)
Definition truthy (o : option string) : bool :=
  match o with
  | Some s => negb (String.eqb s EmptyString)
  | None => false
  end.

(** [xs.findIndex(p)], with [None] for [-1]. *)
Fixpoint findIndex {A : Type} (p : A -> bool) (xs : list A) : option nat :=
  match xs with
  | [] => None
  | x :: rest => if p x then Some 0 else option_map S (findIndex p rest)
  end.

(** [xs.splice(i, 0, x)] on a copy: insert [x] before position [i]. *)
Definition spliceIn {A : Type} (i : nat) (x : A) (xs : list A) : list A :=
  firstn i xs ++ x :: skipn i xs.

(** [xs.sort(cmp)]: the stable sort the language prescribes, as an insertion
    sort that keeps the earlier of two elements that compare equal first
    (every stable sort returns the same list when [cmp] is a consistent
    ordering). *)
Fixpoint insertSorted {A : Type} (cmp : A -> A -> Z) (x : A) (xs : list A) : list A :=
  match xs with
  | [] => [x]
  | y :: rest =>
      if (cmp x y <=? 0)%Z then x :: y :: rest
      else y :: insertSorted cmp x rest
  end.

Definition sort {A : Type} (cmp : A -> A -> Z) (xs : list A) : list A :=
  fold_right (insertSorted cmp) [] xs.

(** Decimal rendering of a counter, as in a template literal. *)
Definition showNat (n : nat) : string := pretty n.

Definition quoteChar : ascii := ascii_of_nat 34.
Definition aposChar : ascii := ascii_of_nat 39.
Definition newline : string := String (ascii_of_nat 10) EmptyString.

End Js.

(** ** The data model ([types/model.ts]) *)

Inductive ReferentialAction :=
| NoAction | Restrict | Cascade | SetNull | SetDefault.

Definition referentialActionText (a : ReferentialAction) : string :=
  match a with
  | NoAction => "NO ACTION"
  | Restrict => "RESTRICT"
  | Cascade => "CASCADE"
  | SetNull => "SET NULL"
  | SetDefault => "SET DEFAULT"
  end.

Module Column.
Record t := mk {
  id : string;
  name : string;
  type : string;
  nullable : bool;
  defaultValue : option string;
  isPrimaryKey : bool;
  isUnique : bool;
  isIndexed : bool;
  comment : option string
}.
End Column.

Module ForeignKey.
Record t := mk {
  id : string;
  name : string;
  fromColumnId : string;
  toTableId : string;
  toColumnId : string;
  onDelete : option ReferentialAction;
  onUpdate : option ReferentialAction;
  comment : option string;
  startCardinality : option string;
  endCardinality : option string
}.
End ForeignKey.

Module TablePosition.
Record t := mk { x : float; y : float }.
End TablePosition.

Module Table.
Record t := mk {
  id : string;
  schemaId : string;
  name : string;
  comment : option string;
  columns : list Column.t;
  foreignKeys : list ForeignKey.t;
  position : option TablePosition.t
}.

Definition withColumns (cs : list Column.t) (tb : t) : t :=
  mk (id tb) (schemaId tb) (name tb) (comment tb) cs (foreignKeys tb) (position tb).

Definition withForeignKeys (fks : list ForeignKey.t) (tb : t) : t :=
  mk (id tb) (schemaId tb) (name tb) (comment tb) (columns tb) fks (position tb).

Definition withPosition (p : option TablePosition.t) (tb : t) : t :=
  mk (id tb) (schemaId tb) (name tb) (comment tb) (columns tb) (foreignKeys tb) p.
End Table.

Module Schema.
Record t := mk { id : string; name : string; comment : option string }.
End Schema.

Inductive TypeKind := enum.

Module CustomType.
Record t := mk {
  id : string;
  schemaId : string;
  name : string;
  kind : TypeKind;
  values : list string;
  comment : option string
}.
End CustomType.

Module DbModel.
Record t := mk {
  version : nat;
  schemas : list Schema.t;
  tables : list Table.t;
  types : list CustomType.t
}.

Definition withSchemas (ss : list Schema.t) (m : t) : t :=
  mk (version m) ss (tables m) (types m).

Definition withTables (ts : list Table.t) (m : t) : t :=
  mk (version m) (schemas m) ts (types m).
End DbModel.

(** ** Helpers of [lib/naming] and of the host

    [modelStore.ts] and the SQL generator import [toSnakeCase],
    [sanitizeConstraintName], [ensureUniqueConstraintName] and
    [buildConstraintName] from [lib/naming]; their code is taken as a
    parameter of the development.  [localeCompare] is the host's collation. *)

Class Naming := {
  toSnakeCase : string -> string;
  sanitizeConstraintName : string -> string -> string;
  ensureUniqueConstraintName : string -> list string -> string;
  buildConstraintName : list string -> string -> string
}.

Class Locale := {
  localeCompare : string -> string -> Z
}.

(** ** The store ([store/modelStore.ts]) *)

Definition GENERIC_PK_NAME : string := "id".
Definition MAX_UNDO_STACK : nat := 20.

(** [structuredClone] (or the JSON round trip) of plain data yields a value
    that is structurally the argument; an optional field that is absent is
    [None] before and after. *)
Definition cloneModel (model : DbModel.t) : DbModel.t := model.

Definition createDefaultModel (schemaId : string) : DbModel.t :=
  DbModel.mk 1 [Schema.mk schemaId "public" None] [] [].

Definition createDefaultColumn (id name type : string) : Column.t :=
  Column.mk id name type false None
    (String.eqb name GENERIC_PK_NAME) (String.eqb name GENERIC_PK_NAME)
    false None.

Definition createDefaultTable (id columnId schemaId name : string) : Table.t :=
  Table.mk id schemaId name None
    [createDefaultColumn columnId GENERIC_PK_NAME "uuid"] [] None.

Definition includes (x : string) (xs : list string) : bool :=
  existsb (String.eqb x) xs.

Definition numbered (normalized : string) (counter : nat) : string :=
  normalized +:+ "_" +:+ Js.showNat counter.

(** The [while (set.has(candidate))] loop.  It is entered with as many
    rounds as there are existing names: one more candidate than that cannot
    be taken (see [ensureUniqueName_loop_spec]). *)
Fixpoint ensureUniqueName_loop (rounds : nat) (normalized : string)
    (existing : list string) (counter : nat) : string :=
  let candidate := numbered normalized counter in
  match rounds with
  | O => candidate
  | S rounds' =>
      if includes candidate existing
      then ensureUniqueName_loop rounds' normalized existing (S counter)
      else candidate
  end.

Definition ensureUniqueName (baseName : string) (existingNames : list string) : string :=
  let normalized :=
    if String.length (Js.trim baseName) =? 0 then "sem_nome" else Js.trim baseName in
  if negb (includes normalized existingNames) then normalized
  else ensureUniqueName_loop (length existingNames) normalized existingNames 2.

Definition pickReferenceColumn (table : Table.t) (preferredColumnId : option string)
    (exclude : gset string) : option Column.t :=
  let allowed (column : Column.t) := negb (bool_decide (Column.id column ∈ exclude)) in
  let preferred :=
    if Js.truthy preferredColumnId then
      find (fun column =>
              bool_decide (Some (Column.id column) = preferredColumnId) && allowed column)
           (Table.columns table)
    else None in
  match preferred with
  | Some column => Some column
  | None =>
      match find (fun column => Column.isPrimaryKey column && allowed column)
                 (Table.columns table) with
      | Some primary => Some primary
      | None =>
          match find (fun column => Column.isUnique column && allowed column)
                     (Table.columns table) with
          | Some unique => Some unique
          | None => find allowed (Table.columns table)
          end
      end
  end.

Section WithNaming.
Context {N : Naming} {L : Locale}.

(** [buildJoinColumnName] returns the name and the grown set of names. *)
Definition buildJoinColumnName (tableName referencedColumnName : string)
    (existingNames : list string) : string * list string :=
  let baseRaw := toSnakeCase tableName +:+ "_" +:+ toSnakeCase referencedColumnName in
  let fallback := toSnakeCase tableName +:+ "_" +:+ GENERIC_PK_NAME in
  let base := if 0 <? String.length (Js.trim baseRaw) then baseRaw else fallback in
  let unique := ensureUniqueName base existingNames in
  (unique, if includes unique existingNames then existingNames
           else existingNames ++ [unique]).

End WithNaming.

Definition normalizeFkCardinality (value : option string) : option string :=
  match value with
  | None => None
  | Some v =>
      if String.eqb v "many" || String.eqb v "one_or_many" || String.eqb v "zero_or_many"
      then Some "many"
      else Some "one"
  end.

Module ModelSnapshot.
Record t := mk {
  model : DbModel.t;
  selectedSchemaId : option string;
  selectedTableId : option string;
  selectedColumnId : option string
}.
End ModelSnapshot.

Module ModelState.
Record t := mk {
  model : DbModel.t;
  selectedSchemaId : option string;
  selectedTableId : option string;
  selectedColumnId : option string;
  showErd : bool;
  undoStack : list ModelSnapshot.t
}.
End ModelState.

(** *** Threading the store

    [get()] reads the state, [set(fn)] replaces it by [fn state] (an updater
    that returns [state] itself leaves the store as it is), and [throw]
    leaves the state reached so far. *)

Inductive Outcome (A : Type) :=
| Returned (value : A)
| Thrown (message : string).
Arguments Returned {A} value.
Arguments Thrown {A} message.

Definition Store (A : Type) : Type := ModelState.t -> Outcome A * ModelState.t.

Definition ret {A : Type} (a : A) : Store A := fun st => (Returned a, st).

Definition bind {A B : Type} (m : Store A) (k : A -> Store B) : Store B :=
  fun st =>
    match m st with
    | (Returned a, st') => k a st'
    | (Thrown e, st') => (Thrown e, st')
    end.

Definition get : Store ModelState.t := fun st => (Returned st, st).

Definition set (fn : ModelState.t -> ModelState.t) : Store unit :=
  fun st => (Returned tt, fn st).

Definition throw {A : Type} (message : string) : Store A :=
  fun st => (Thrown message, st).

#[global] Instance Store_ret : MRet Store := @ret.
#[global] Instance Store_bind : MBind Store := fun A B k m => bind m k.

(** [a === b] for a possibly null left side and a string right side. *)
Definition isId (selected : option string) (id : string) : bool :=
  match selected with
  | Some s => String.eqb s id
  | None => false
  end.

Definition hasColumn (tables : list Table.t) (columnId : string) : bool :=
  existsb (fun table =>
             existsb (fun column => String.eqb (Column.id column) columnId)
                     (Table.columns table))
          tables.

Definition snapshotOf (st : ModelState.t) : ModelSnapshot.t :=
  ModelSnapshot.mk (cloneModel (ModelState.model st))
    (ModelState.selectedSchemaId st) (ModelState.selectedTableId st)
    (ModelState.selectedColumnId st).

Definition pushUndo (snapshot : ModelSnapshot.t) (stack : list ModelSnapshot.t)
  : list ModelSnapshot.t :=
  firstn MAX_UNDO_STACK (snapshot :: stack).

Definition hasColumnOpt (tables : list Table.t) (columnId : option string) : bool :=
  match columnId with
  | Some c => hasColumn tables c
  | None => false
  end.

Definition idNot (id : string) (other : string) : bool := negb (String.eqb other id).

Definition removeSchema (id : string) : Store unit :=
  set (fun state =>
    let model := ModelState.model state in
    if length (DbModel.schemas model) <=? 1 then state
    else
      let filteredSchemas :=
        List.filter (fun schema => idNot id (Schema.id schema)) (DbModel.schemas model) in
      let filteredTables :=
        List.filter (fun table => idNot id (Table.schemaId table)) (DbModel.tables model) in
      let selectedSchemaId :=
        if isId (ModelState.selectedSchemaId state) id
        then option_map Schema.id (head filteredSchemas)
        else ModelState.selectedSchemaId state in
      let selectedTableId :=
        if Js.truthy (ModelState.selectedTableId state)
           && negb (existsb (fun table =>
                               isId (ModelState.selectedTableId state) (Table.id table))
                            filteredTables)
        then option_map Table.id (head filteredTables)
        else ModelState.selectedTableId state in
      let selectedColumnId :=
        if Js.truthy (ModelState.selectedColumnId state)
           && negb (hasColumnOpt filteredTables (ModelState.selectedColumnId state))
        then None
        else ModelState.selectedColumnId state in
      ModelState.mk
        (DbModel.mk (DbModel.version model) filteredSchemas filteredTables
                    (DbModel.types model))
        selectedSchemaId selectedTableId selectedColumnId
        (ModelState.showErd state) (ModelState.undoStack state)).

Definition addTable (newTableId newColumnId : string)
    (schemaId : string) (name : option string) (position : option TablePosition.t)
  : Store string :=
  st ← get;
  let model := ModelState.model st in
  if negb (existsb (fun schema => String.eqb (Schema.id schema) schemaId)
                   (DbModel.schemas model))
  then throw "Schema inexistente"
  else
    let schemaTables :=
      List.filter (fun table => String.eqb (Table.schemaId table) schemaId)
             (DbModel.tables model) in
    let tableName :=
      ensureUniqueName (default "tabela" name) (map Table.name schemaTables) in
    let created := createDefaultTable newTableId newColumnId schemaId tableName in
    let newTable :=
      match position with
      | Some p => Table.withPosition (Some p) created
      | None => created
      end in
    set (fun state =>
      ModelState.mk
        (DbModel.withTables (DbModel.tables (ModelState.model state) ++ [newTable])
                            (ModelState.model state))
        (ModelState.selectedSchemaId state) (Some (Table.id newTable)) None
        (ModelState.showErd state) (ModelState.undoStack state));;
    mret (Table.id newTable).

Definition removeTable (id : string) : Store unit :=
  st ← get;
  let snapshot := snapshotOf st in
  set (fun state =>
    let tables :=
      List.filter (fun table => idNot id (Table.id table))
             (DbModel.tables (ModelState.model state)) in
    let sanitizedTables :=
      map (fun table =>
             Table.withForeignKeys
               (List.filter (fun fk => idNot id (ForeignKey.toTableId fk))
                       (Table.foreignKeys table))
               table)
          tables in
    let selectedTableId :=
      if isId (ModelState.selectedTableId state) id
      then option_map Table.id (head sanitizedTables)
      else ModelState.selectedTableId state in
    let selectedColumnId :=
      if negb (Js.truthy (ModelState.selectedColumnId state))
         || negb (hasColumnOpt sanitizedTables (ModelState.selectedColumnId state))
      then
        let table :=
          match find (fun item => isId selectedTableId (Table.id item)) sanitizedTables with
          | Some item => Some item
          | None => head sanitizedTables
          end in
        match table with
        | Some tb => option_map Column.id (head (Table.columns tb))
        | None => None
        end
      else ModelState.selectedColumnId state in
    ModelState.mk
      (DbModel.withTables sanitizedTables (ModelState.model state))
      (ModelState.selectedSchemaId state) selectedTableId selectedColumnId
      (ModelState.showErd state)
      (pushUndo snapshot (ModelState.undoStack state))).

Definition addColumn (newColumnId : string) (tableId : string) (name : option string)
  : Store string :=
  st ← get;
  let model := ModelState.model st in
  match find (fun item => String.eqb (Table.id item) tableId) (DbModel.tables model) with
  | None => throw "Tabela inexistente"
  | Some table =>
      let columnName :=
        ensureUniqueName (default "coluna" name) (map Column.name (Table.columns table)) in
      let newColumn := createDefaultColumn newColumnId columnName "text" in
      set (fun state =>
        ModelState.mk
          (DbModel.withTables
             (map (fun item =>
                     if String.eqb (Table.id item) tableId
                     then Table.withColumns (Table.columns item ++ [newColumn]) item
                     else item)
                  (DbModel.tables (ModelState.model state)))
             (ModelState.model state))
          (ModelState.selectedSchemaId state) (ModelState.selectedTableId state)
          (Some (Column.id newColumn))
          (ModelState.showErd state) (ModelState.undoStack state));;
      mret (Column.id newColumn)
  end.

Definition removeColumn (tableId columnId : string) : Store unit :=
  st ← get;
  let snapshot := snapshotOf st in
  set (fun state =>
    let tables := DbModel.tables (ModelState.model state) in
    let updatedTables :=
      map (fun table =>
             if negb (String.eqb (Table.id table) tableId)
             then
               Table.withForeignKeys
                 (List.filter (fun fk => idNot columnId (ForeignKey.toColumnId fk))
                         (Table.foreignKeys table))
                 table
             else
               Table.withForeignKeys
                 (List.filter (fun fk => idNot columnId (ForeignKey.fromColumnId fk))
                         (Table.foreignKeys table))
                 (Table.withColumns
                    (List.filter (fun column => idNot columnId (Column.id column))
                            (Table.columns table))
                    table))
          tables in
    (* the assignment made inside the callback, once a table matches *)
    let afterMap :=
      if existsb (fun table => String.eqb (Table.id table) tableId) tables
         && isId (ModelState.selectedColumnId state) columnId
      then None
      else ModelState.selectedColumnId state in
    let nextSelectedColumnId :=
      if Js.truthy afterMap && negb (hasColumnOpt updatedTables afterMap)
      then None
      else afterMap in
    ModelState.mk
      (DbModel.withTables updatedTables (ModelState.model state))
      (ModelState.selectedSchemaId state) (ModelState.selectedTableId state)
      nextSelectedColumnId
      (ModelState.showErd state)
      (pushUndo snapshot (ModelState.undoStack state))).


Definition removeForeignKey (tableId fkId : string) : Store unit :=
  set (fun state =>
    ModelState.mk
      (DbModel.withTables
         (map (fun table =>
                 if String.eqb (Table.id table) tableId
                 then Table.withForeignKeys
                        (List.filter (fun fk => idNot fkId (ForeignKey.id fk))
                                     (Table.foreignKeys table))
                        table
                 else table)
              (DbModel.tables (ModelState.model state)))
         (ModelState.model state))
      (ModelState.selectedSchemaId state) (ModelState.selectedTableId state)
      (ModelState.selectedColumnId state)
      (ModelState.showErd state) (ModelState.undoStack state)).

Section StoreWithNaming.
Context {N : Naming} {L : Locale}.

(** [fk] is the [Omit<ForeignKey, 'id'>] argument: its [id] field is not
    read. *)
Definition addForeignKey (fkId : string) (tableId : string) (fk : ForeignKey.t)
  : Store string :=
  set (fun state =>
    let tables :=
      map (fun table =>
             if negb (String.eqb (Table.id table) tableId) then table
             else
               let fallback := "fk_" +:+ Js.slice0 8 fkId in
               let currentNames := map ForeignKey.name (Table.foreignKeys table) in
               let base := sanitizeConstraintName (ForeignKey.name fk) fallback in
               let uniqueName := ensureUniqueConstraintName base currentNames in
               let normalizedStart := normalizeFkCardinality (ForeignKey.startCardinality fk) in
               let normalizedEnd := normalizeFkCardinality (ForeignKey.endCardinality fk) in
               let fkWithId :=
                 ForeignKey.mk fkId uniqueName
                   (ForeignKey.fromColumnId fk) (ForeignKey.toTableId fk)
                   (ForeignKey.toColumnId fk) (ForeignKey.onDelete fk)
                   (ForeignKey.onUpdate fk) (ForeignKey.comment fk)
                   (match normalizedStart with
                    | Some v => Some v
                    | None => ForeignKey.startCardinality fk
                    end)
                   (match normalizedEnd with
                    | Some v => Some v
                    | None => ForeignKey.endCardinality fk
                    end) in
               Table.withForeignKeys (Table.foreignKeys table ++ [fkWithId]) table)
          (DbModel.tables (ModelState.model state)) in
    ModelState.mk
      (DbModel.withTables tables (ModelState.model state))
      (ModelState.selectedSchemaId state) (ModelState.selectedTableId state)
      (ModelState.selectedColumnId state)
      (ModelState.showErd state) (ModelState.undoStack state));;
  mret fkId.

End StoreWithNaming.

(** The identifiers drawn by one conversion, in the order of the
    [createId()] calls. *)
Module JoinIds.
Record t := mk {
  joinTableId : string;
  leftColumnId : string;
  rightColumnId : string;
  leftFkId : string;
  rightFkId : string
}.
End JoinIds.

(** [a || b] on strings. *)
Definition orElse (a b : string) : string :=
  if String.eqb a EmptyString then b else a.

Definition layoutSpacing : float := 320%float.

(** The three positions (source, join, target) chosen by the layout step. *)
Definition layoutPositions (source target : option TablePosition.t)
  : TablePosition.t * TablePosition.t * TablePosition.t :=
  let laneY :=
    match source, target with
    | Some s, _ => TablePosition.y s
    | None, Some t => TablePosition.y t
    | None, None => 0%float
    end in
  let at_ (x : float) := TablePosition.mk x laneY in
  match source, target with
  | Some s, Some t =>
      let distance := PrimFloat.abs (PrimFloat.sub (TablePosition.x t) (TablePosition.x s)) in
      let centerX :=
        PrimFloat.div (PrimFloat.add (TablePosition.x s) (TablePosition.x t)) 2%float in
      let '(s', t') :=
        if PrimFloat.ltb distance (PrimFloat.mul layoutSpacing 2%float)
        then (at_ (PrimFloat.sub centerX layoutSpacing),
              at_ (PrimFloat.add centerX layoutSpacing))
        else (at_ (TablePosition.x s), at_ (TablePosition.x t)) in
      (s',
       at_ (PrimFloat.div (PrimFloat.add (TablePosition.x s') (TablePosition.x t')) 2%float),
       t')
  | Some s, None =>
      let joinX := PrimFloat.add (TablePosition.x s) layoutSpacing in
      (at_ (TablePosition.x s), at_ joinX, at_ (PrimFloat.add joinX layoutSpacing))
  | None, Some t =>
      let joinX := PrimFloat.sub (TablePosition.x t) layoutSpacing in
      (at_ (PrimFloat.sub joinX layoutSpacing), at_ joinX, at_ (TablePosition.x t))
  | None, None =>
      (at_ (PrimFloat.opp layoutSpacing), at_ 0%float, at_ layoutSpacing)
  end.

Section ConvertWithNaming.
Context {N : Naming} {L : Locale}.

(** The updater passed to [set] by [convertForeignKeyToManyToMany], together
    with the value it leaves in [success]. *)
Definition convertUpdater (ids : JoinIds.t) (tableId fkId : string)
    (state : ModelState.t) : bool * ModelState.t :=
  let tables := DbModel.tables (ModelState.model state) in
  match Js.findIndex (fun table => String.eqb (Table.id table) tableId) tables with
  | None => (false, state)
  | Some tableIndex =>
  match nth_error tables tableIndex with
  | None => (false, state)
  | Some table =>
  match find (fun fk => String.eqb (ForeignKey.id fk) fkId) (Table.foreignKeys table) with
  | None => (false, state)
  | Some fk =>
  let sourceColumnFound :=
    find (fun column => String.eqb (Column.id column) (ForeignKey.fromColumnId fk))
         (Table.columns table) in
  let targetTableIndexFound :=
    Js.findIndex (fun candidate => String.eqb (Table.id candidate) (ForeignKey.toTableId fk))
                 tables in
  match sourceColumnFound, targetTableIndexFound with
  | None, _ | _, None => (false, state)
  | Some sourceColumn, Some targetTableIndex =>
  match nth_error tables targetTableIndex with
  | None => (false, state)
  | Some targetTable =>
  match find (fun column => String.eqb (Column.id column) (ForeignKey.toColumnId fk))
             (Table.columns targetTable) with
  | None => (false, state)
  | Some targetColumn =>
  let shouldRemoveSourceColumn := negb (Column.isPrimaryKey sourceColumn) in
  let excluded : gset string :=
    if shouldRemoveSourceColumn then {[ Column.id sourceColumn ]} else ∅ in
  match pickReferenceColumn table (Some (Column.id sourceColumn)) excluded,
        pickReferenceColumn targetTable (Some (Column.id targetColumn)) ∅ with
  | None, _ | _, None => (false, state)
  | Some sourceReference, Some targetReference =>
  let schemaId := Table.schemaId table in
  let schemaTables :=
    List.filter (fun candidate => String.eqb (Table.schemaId candidate) schemaId) tables in
  let orderedNames := Js.sort localeCompare [Table.name table; Table.name targetTable] in
  let baseNameRaw := Js.join "_" orderedNames in
  let fallbackName :=
    toSnakeCase (Table.name table) +:+ "_" +:+ toSnakeCase (Table.name targetTable) in
  let baseNameSanitized := orElse (toSnakeCase baseNameRaw) fallbackName in
  let baseName := orElse baseNameSanitized "relacionamento" in
  let joinTableName := ensureUniqueName baseName (map Table.name schemaTables) in
  let joinTableId := JoinIds.joinTableId ids in
  let '(leftName, joinColumnNames) :=
    buildJoinColumnName ("fk_" +:+ Table.name table) (Column.name sourceReference) [] in
  let leftColumn :=
    Column.mk (JoinIds.leftColumnId ids) leftName (Column.type sourceReference)
              false None true false false None in
  let '(rightName, _) :=
    buildJoinColumnName ("fk_" +:+ Table.name targetTable) (Column.name targetReference)
                        joinColumnNames in
  let rightColumn :=
    Column.mk (JoinIds.rightColumnId ids) rightName (Column.type targetReference)
              false None true false false None in
  let leftFkId := JoinIds.leftFkId ids in
  let leftFkNameBase :=
    buildConstraintName [joinTableName; Column.name leftColumn; Table.name table; "fk"]
                        ("fk_" +:+ Js.slice0 8 leftFkId) in
  let leftFkName := ensureUniqueConstraintName leftFkNameBase [] in
  let fkNames := [leftFkName] in
  let rightFkId := JoinIds.rightFkId ids in
  let rightFkNameBase :=
    buildConstraintName [joinTableName; Column.name rightColumn; Table.name targetTable; "fk"]
                        ("fk_" +:+ Js.slice0 8 rightFkId) in
  let rightFkName := ensureUniqueConstraintName rightFkNameBase fkNames in
  let leftFk :=
    ForeignKey.mk leftFkId leftFkName (Column.id leftColumn) (Table.id table)
                  (Column.id sourceReference) None None None (Some "many") (Some "one") in
  let rightFk :=
    ForeignKey.mk rightFkId rightFkName (Column.id rightColumn) (Table.id targetTable)
                  (Column.id targetReference) None None None (Some "many") (Some "one") in
  let '(sourcePosition, joinPosition, targetPosition) :=
    layoutPositions (Table.position table) (Table.position targetTable) in
  let sourceColumnId := Column.id sourceColumn in
  let sanitizedTables :=
    imap (fun index candidate =>
            if index =? tableIndex then
              Table.mk (Table.id candidate) (Table.schemaId candidate)
                (Table.name candidate) (Table.comment candidate)
                (if shouldRemoveSourceColumn
                 then List.filter (fun column => idNot sourceColumnId (Column.id column))
                             (Table.columns candidate)
                 else Table.columns candidate)
                (List.filter (fun item =>
                           idNot (ForeignKey.id fk) (ForeignKey.id item)
                           && (if shouldRemoveSourceColumn
                               then idNot sourceColumnId (ForeignKey.fromColumnId item)
                               else true))
                        (Table.foreignKeys candidate))
                (Some sourcePosition)
            else if index =? targetTableIndex then
              Table.mk (Table.id candidate) (Table.schemaId candidate)
                (Table.name candidate) (Table.comment candidate)
                (Table.columns candidate)
                (List.filter (fun item =>
                           if shouldRemoveSourceColumn
                           then idNot sourceColumnId (ForeignKey.toColumnId item)
                           else true)
                        (Table.foreignKeys candidate))
                (Some targetPosition)
            else
              Table.withForeignKeys
                (if shouldRemoveSourceColumn
                 then List.filter (fun item => idNot sourceColumnId (ForeignKey.toColumnId item))
                             (Table.foreignKeys candidate)
                 else Table.foreignKeys candidate)
                candidate)
         tables in
  let joinTable :=
    Table.mk joinTableId schemaId joinTableName None
             [leftColumn; rightColumn] [leftFk; rightFk] (Some joinPosition) in
  let nextTables := Js.spliceIn (tableIndex + 1) joinTable sanitizedTables in
  (true,
   ModelState.mk
     (DbModel.withTables nextTables (ModelState.model state))
     (ModelState.selectedSchemaId state) (Some joinTableId) (Some (Column.id leftColumn))
     (ModelState.showErd state) (ModelState.undoStack state))
  end end end end end end end.

Definition convertForeignKeyToManyToMany (ids : JoinIds.t) (tableId fkId : string)
  : Store bool :=
  fun state =>
    let '(success, next) := convertUpdater ids tableId fkId state in
    (Returned success, next).

End ConvertWithNaming.

(** ** Cardinality helpers ([components/CrowFootEdge.tsx]) *)

Inductive Kind := one | many.

Definition normalizeCardinality (value : option string) (fallback : Kind) : Kind :=
  match value with
  | Some v =>
      if String.eqb v "many" || String.eqb v "one_or_many" || String.eqb v "zero_or_many"
      then many
      else if String.eqb v "one" || String.eqb v "one_and_only_one"
              || String.eqb v "zero_or_one"
      then one
      else fallback
  | None => fallback
  end.

Module KindParams.
Record t := mk { fkNullable : bool; fkIsUnique : bool; refIsUnique : bool }.
End KindParams.

(** The result object [{ start, end }]; [end] is spelt [end_]. *)
Module Kinds.
Record t := mk { start : Kind; end_ : Kind }.
End Kinds.

Definition computeKindsFromModel (params : KindParams.t) : Kinds.t :=
  let fkIsUnique := KindParams.fkIsUnique params in
  let refIsUnique := KindParams.refIsUnique params in
  let start := if fkIsUnique then one else many in
  let end_ := if refIsUnique then one else many in
  Kinds.mk start end_.

(** ** The DDL generator *)

Definition dq : string := String Js.quoteChar EmptyString.
Definition apos : string := String Js.aposChar EmptyString.

Definition quoteIdent (value : string) : string :=
  dq +:+ Js.replaceAll Js.quoteChar (dq +:+ dq) value +:+ dq.

Definition qualify (schema name : string) : string :=
  quoteIdent schema +:+ "." +:+ quoteIdent name.

Definition quoteLiteral (text : string) : string :=
  apos +:+ Js.replaceAll Js.aposChar (apos +:+ apos) text +:+ apos.

Definition buildColumnDefinition (column : Column.t) : string :=
  let parts := [quoteIdent (Column.name column); Column.type column] in
  let parts := if negb (Column.nullable column) then parts ++ ["NOT NULL"] else parts in
  let parts :=
    match Column.defaultValue column with
    | Some d =>
        if Js.truthy (Some d) && (0 <? String.length (Js.trim d))
        then parts ++ ["DEFAULT " +:+ Js.trim d]
        else parts
    | None => parts
    end in
  Js.join " " parts.

Definition buildForeignKeyClause (fk : ForeignKey.t) (table : Table.t)
    (getTableById : string -> option Table.t) (getSchemaName : string -> string)
  : option string :=
  let fromColumnFound :=
    find (fun column => String.eqb (Column.id column) (ForeignKey.fromColumnId fk))
         (Table.columns table) in
  match fromColumnFound, getTableById (ForeignKey.toTableId fk) with
  | None, _ | _, None => None
  | Some fromColumn, Some targetTable =>
      let targetSchema := getSchemaName (Table.schemaId targetTable) in
      match find (fun column => String.eqb (Column.id column) (ForeignKey.toColumnId fk))
                 (Table.columns targetTable) with
      | None => None
      | Some targetColumn =>
          let clauses :=
            [ "CONSTRAINT " +:+ quoteIdent (ForeignKey.name fk) +:+ " FOREIGN KEY ("
                +:+ quoteIdent (Column.name fromColumn) +:+ ")";
              "REFERENCES " +:+ qualify targetSchema (Table.name targetTable) +:+ " ("
                +:+ quoteIdent (Column.name targetColumn) +:+ ")" ] in
          let clauses :=
            match ForeignKey.onDelete fk with
            | Some a => clauses ++ ["ON DELETE " +:+ referentialActionText a]
            | None => clauses
            end in
          let clauses :=
            match ForeignKey.onUpdate fk with
            | Some a => clauses ++ ["ON UPDATE " +:+ referentialActionText a]
            | None => clauses
            end in
          Some (Js.join " " clauses)
      end
  end.

Definition buildTableStatement (table : Table.t) (schemaName : string)
    (getTableById : string -> option Table.t) (getSchemaName : string -> string)
  : string :=
  let columnDefinitions := map buildColumnDefinition (Table.columns table) in
  let pkColumns :=
    map (fun column => quoteIdent (Column.name column))
        (List.filter Column.isPrimaryKey (Table.columns table)) in
  let columnDefinitions :=
    if 0 <? length pkColumns
    then columnDefinitions ++ ["PRIMARY KEY (" +:+ Js.join ", " pkColumns +:+ ")"]
    else columnDefinitions in
  let uniqueColumns :=
    map (fun column => quoteIdent (Column.name column))
        (List.filter (fun column => Column.isUnique column && negb (Column.isPrimaryKey column))
                (Table.columns table)) in
  let columnDefinitions :=
    columnDefinitions ++ map (fun columnName => "UNIQUE (" +:+ columnName +:+ ")") uniqueColumns in
  let columnDefinitions :=
    columnDefinitions ++
    flat_map (fun fk =>
                match buildForeignKeyClause fk table getTableById getSchemaName with
                | Some clause => if String.eqb clause EmptyString then [] else [clause]
                | None => []
                end)
             (Table.foreignKeys table) in
  let multilineTableDefinition :=
    "CREATE TABLE " +:+ qualify schemaName (Table.name table) +:+ " (" +:+ Js.newline
      +:+ "  " +:+ Js.join ("," +:+ Js.newline +:+ "  ") columnDefinitions
      +:+ Js.newline +:+ ");" in
  let inlineDefinitions := Js.join ", " columnDefinitions in
  let prefersInline :=
    (length columnDefinitions <=? 3) && (String.length inlineDefinitions <=? 120) in
  let tableDefinition :=
    if prefersInline
    then "CREATE TABLE " +:+ qualify schemaName (Table.name table) +:+ " ("
           +:+ inlineDefinitions +:+ ");"
    else multilineTableDefinition in
  let tableComment :=
    match Table.comment table with
    | Some c =>
        if Js.truthy (Some c)
        then ["COMMENT ON TABLE " +:+ qualify schemaName (Table.name table) +:+ " IS "
                +:+ quoteLiteral c +:+ ";"]
        else []
    | None => []
    end in
  let columnComments :=
    flat_map (fun column =>
                match Column.comment column with
                | Some c =>
                    if Js.truthy (Some c)
                    then ["COMMENT ON COLUMN " +:+ qualify schemaName (Table.name table)
                            +:+ "." +:+ quoteIdent (Column.name column) +:+ " IS "
                            +:+ quoteLiteral c +:+ ";"]
                    else []
                | None => []
                end)
             (Table.columns table) in
  Js.join Js.newline (tableDefinition :: tableComment ++ columnComments).

(** [usedNames.add(name)] on an insertion-ordered set. *)
Definition addName (name : string) (names : list string) : list string :=
  if includes name names then names else names ++ [name].

Section GeneratorWithNaming.
Context {N : Naming} {L : Locale}.

Definition indexBase (table : Table.t) (column : Column.t) : string :=
  let baseRaw := Table.name table +:+ "_" +:+ Column.name column +:+ "_idx" in
  let sanitized :=
    orElse (toSnakeCase baseRaw) ("idx_" +:+ Js.slice0 8 (Column.id column)) in
  if Js.startsWith "idx_" sanitized then sanitized else "idx_" +:+ sanitized.

(** The index name chosen for each column, [usedNames] growing along the
    [map]. *)
Fixpoint indexNames (table : Table.t) (usedNames : list string)
    (columns : list Column.t) : list (string * Column.t) :=
  match columns with
  | [] => []
  | column :: rest =>
      let indexName := ensureUniqueConstraintName (indexBase table column) usedNames in
      (indexName, column) :: indexNames table (addName indexName usedNames) rest
  end.

Definition indexStatement (table : Table.t) (schemaName : string)
    (entry : string * Column.t) : string :=
  "CREATE INDEX " +:+ quoteIdent (fst entry) +:+ " ON "
    +:+ qualify schemaName (Table.name table)
    +:+ " (" +:+ quoteIdent (Column.name (snd entry)) +:+ ");".

Definition indexedColumns (table : Table.t) : list Column.t :=
  List.filter (fun column =>
            Column.isIndexed column && negb (Column.isPrimaryKey column)
            && negb (Column.isUnique column))
         (Table.columns table).

Definition buildIndexesForTable (table : Table.t) (schemaName : string) : list string :=
  map (indexStatement table schemaName) (indexNames table [] (indexedColumns table)).

End GeneratorWithNaming.

(** *** Topological order of the tables *)

Module SortState.
Record t := mk {
  readyQueue : list string;
  ordered : list Table.t;
  visited : gset string;
  dependencyMap : gmap string (gset string)
}.
End SortState.

(** The body of [table.foreignKeys.forEach] while the graph is built;
    [dependencies] is the set under construction for the table [tableId]. *)
Definition addDependency (tableById : gmap string Table.t) (tableId : string)
    (acc : gset string * gmap string (list string)) (fk : ForeignKey.t)
  : gset string * gmap string (list string) :=
  let target := ForeignKey.toTableId fk in
  if String.eqb target EmptyString || String.eqb target tableId then acc
  else
    match tableById !! target with
    | None => acc
    | Some _ =>
        let dependents := default [] (snd acc !! target) in
        (fst acc ∪ {[ target ]}, <[ target := addName tableId dependents ]> (snd acc))
    end.

(** The body of [tables.forEach]. *)
Definition addTableDependencies (tableById : gmap string Table.t)
    (acc : gmap string (gset string) * gmap string (list string)) (table : Table.t)
  : gmap string (gset string) * gmap string (list string) :=
  let result :=
    fold_left (addDependency tableById (Table.id table)) (Table.foreignKeys table)
              (∅, snd acc) in
  (<[ Table.id table := fst result ]> (fst acc), snd result).

Definition buildGraph (tables : list Table.t) (tableById : gmap string Table.t)
  : gmap string (gset string) * gmap string (list string) :=
  fold_left (addTableDependencies tableById) tables (∅, ∅).

(** Work the loop may still have to do: the queue, and for every table not
    yet visited one round plus one queue entry per dependent. *)
Definition pendingWork (dependentsMap : gmap string (list string))
    (visited : gset string) : nat :=
  sum_list_with
    (fun entry => if bool_decide (fst entry ∈ visited) then 0 else S (length (snd entry)))
    (map_to_list dependentsMap).

Section SortWithLocale.
Context {L : Locale}.

Definition compareBySchemaAndName (tableById : gmap string Table.t)
    (getSchemaName : string -> string) (leftId rightId : string) : Z :=
  match tableById !! leftId, tableById !! rightId with
  | Some leftTable, Some rightTable =>
      let schemaComparison :=
        localeCompare (getSchemaName (Table.schemaId leftTable))
                      (getSchemaName (Table.schemaId rightTable)) in
      if negb (schemaComparison =? 0)%Z then schemaComparison
      else localeCompare (Table.name leftTable) (Table.name rightTable)
  | _, _ => 0%Z
  end.

(** The body of [dependents.forEach] for the table [currentId] just emitted. *)
Definition releaseDependent (compare : string -> string -> Z) (currentId : string)
    (acc : gmap string (gset string) * list string) (dependentId : string)
  : gmap string (gset string) * list string :=
  match fst acc !! dependentId with
  | None => acc
  | Some dependencies =>
      let remaining := dependencies ∖ {[ currentId ]} in
      let dependencyMap := <[ dependentId := remaining ]> (fst acc) in
      if size remaining =? 0 then
        match Js.findIndex (fun queuedId => (compare dependentId queuedId <? 0)%Z) (snd acc) with
        | None => (dependencyMap, snd acc ++ [dependentId])
        | Some insertIndex => (dependencyMap, Js.spliceIn insertIndex dependentId (snd acc))
        end
      else (dependencyMap, snd acc)
  end.

(** One round of the [while] loop, [currentId] having been shifted off the
    queue, which leaves [rest]. *)
Definition sortStep (tableById : gmap string Table.t)
    (dependentsMap : gmap string (list string)) (compare : string -> string -> Z)
    (currentId : string) (rest : list string) (st : SortState.t) : SortState.t :=
  if String.eqb currentId EmptyString || bool_decide (currentId ∈ SortState.visited st)
  then SortState.mk rest (SortState.ordered st) (SortState.visited st)
                    (SortState.dependencyMap st)
  else
    let visited := SortState.visited st ∪ {[ currentId ]} in
    match tableById !! currentId with
    | None => SortState.mk rest (SortState.ordered st) visited (SortState.dependencyMap st)
    | Some currentTable =>
        let ordered := SortState.ordered st ++ [currentTable] in
        match dependentsMap !! currentId with
        | None => SortState.mk rest ordered visited (SortState.dependencyMap st)
        | Some dependents =>
            let released :=
              fold_left (releaseDependent compare currentId) dependents
                        (SortState.dependencyMap st, rest) in
            SortState.mk (snd released) ordered visited (fst released)
        end
    end.

(** The [while (readyQueue.length > 0)] loop, with a bound on its rounds;
    [None] when the bound is reached with the queue not yet empty. *)
Fixpoint sortLoop (rounds : nat) (tableById : gmap string Table.t)
    (dependentsMap : gmap string (list string)) (compare : string -> string -> Z)
    (st : SortState.t) : option SortState.t :=
  match SortState.readyQueue st with
  | [] => Some st
  | currentId :: rest =>
      match rounds with
      | O => None
      | S rounds' =>
          sortLoop rounds' tableById dependentsMap compare
                   (sortStep tableById dependentsMap compare currentId rest st)
      end
  end.

Definition initialSortState (tables : list Table.t)
    (dependencyMap : gmap string (gset string)) (compare : string -> string -> Z)
  : SortState.t :=
  let readyQueue :=
    Js.sort compare
      (map Table.id
         (List.filter (fun table =>
                    match dependencyMap !! Table.id table with
                    | Some dependencies => size dependencies =? 0
                    | None => true
                    end)
                 tables)) in
  SortState.mk readyQueue [] ∅ dependencyMap.

Definition finishSort (tables : list Table.t) (compare : string -> string -> Z)
    (st : SortState.t) : list Table.t :=
  if negb (length (SortState.ordered st) =? length tables) then
    let remaining :=
      List.filter (fun table => negb (bool_decide (Table.id table ∈ SortState.visited st)))
             tables in
    SortState.ordered st
      ++ Js.sort (fun a b => compare (Table.id a) (Table.id b)) remaining
  else SortState.ordered st.

Definition topologicallySortTables_within (rounds : nat) (tables : list Table.t)
    (getSchemaName : string -> string) (tableById : gmap string Table.t)
  : option (list Table.t) :=
  let graph := buildGraph tables tableById in
  let compare := compareBySchemaAndName tableById getSchemaName in
  let start := initialSortState tables (fst graph) compare in
  option_map (finishSort tables compare)
             (sortLoop rounds tableById (snd graph) compare start).

(** Rounds after which the loop has certainly emptied its queue
    (see [sortLoop_terminates]). *)
Definition sortRounds (tables : list Table.t) (getSchemaName : string -> string)
    (tableById : gmap string Table.t) : nat :=
  let graph := buildGraph tables tableById in
  let compare := compareBySchemaAndName tableById getSchemaName in
  let start := initialSortState tables (fst graph) compare in
  length (SortState.readyQueue start) + pendingWork (snd graph) ∅.

Definition topologicallySortTables (tables : list Table.t)
    (getSchemaName : string -> string) (tableById : gmap string Table.t)
  : option (list Table.t) :=
  topologicallySortTables_within (sortRounds tables getSchemaName tableById)
                                 tables getSchemaName tableById.

End SortWithLocale.

(** *** The script *)

(** [typesBySchema]: a [Map] that is iterated, kept in insertion order. *)
Fixpoint pushType (customType : CustomType.t)
    (groups : list (string * list CustomType.t)) : list (string * list CustomType.t) :=
  match groups with
  | [] => [(CustomType.schemaId customType, [customType])]
  | (schemaId, types) :: rest =>
      if String.eqb schemaId (CustomType.schemaId customType)
      then (schemaId, types ++ [customType]) :: rest
      else (schemaId, types) :: pushType customType rest
  end.

Section ScriptWithNaming.
Context {N : Naming} {L : Locale}.

Definition schemaById (model : DbModel.t) : gmap string string :=
  fold_left (fun m schema => <[ Schema.id schema := Schema.name schema ]> m)
            (DbModel.schemas model) ∅.

Definition tableById (model : DbModel.t) : gmap string Table.t :=
  fold_left (fun m table => <[ Table.id table := table ]> m) (DbModel.tables model) ∅.

Definition getSchemaName (model : DbModel.t) (schemaId : string) : string :=
  default "public" (schemaById model !! schemaId).

Definition schemaStatements (model : DbModel.t) : list string :=
  let sortedSchemas :=
    Js.sort (fun a b => localeCompare (Schema.name a) (Schema.name b))
            (DbModel.schemas model) in
  flat_map (fun schema =>
              if negb (String.eqb (Schema.name schema) "public")
              then ["CREATE SCHEMA IF NOT EXISTS " +:+ quoteIdent (Schema.name schema) +:+ ";"]
              else [])
           sortedSchemas.

Definition typeStatements (model : DbModel.t) : list string :=
  let typesBySchema := fold_left (fun groups ct => pushType ct groups) (DbModel.types model) [] in
  flat_map (fun group =>
              match schemaById model !! fst group with
              | None => []
              | Some schemaName =>
                  if String.eqb schemaName EmptyString then []
                  else
                    map (fun customType =>
                           match CustomType.kind customType with
                           | enum =>
                               let values :=
                                 Js.join ", " (map quoteLiteral (CustomType.values customType)) in
                               "CREATE TYPE " +:+ qualify schemaName (CustomType.name customType)
                                 +:+ " AS ENUM (" +:+ values +:+ ");"
                           end)
                        (snd group)
              end)
           typesBySchema.

Definition orderedTables (model : DbModel.t) : option (list Table.t) :=
  topologicallySortTables (DbModel.tables model) (getSchemaName model) (tableById model).

(** The statements pushed for one table: its [CREATE TABLE] (with comments),
    then its indexes. *)
Definition tableStatements (model : DbModel.t) (table : Table.t) : list string :=
  buildTableStatement table (getSchemaName model (Table.schemaId table))
                      (fun id => tableById model !! id) (getSchemaName model)
  :: buildIndexesForTable table (getSchemaName model (Table.schemaId table)).

Definition generateStatements (model : DbModel.t) : option (list string) :=
  option_map
    (fun tables =>
       schemaStatements model ++ typeStatements model
         ++ flat_map (tableStatements model) tables)
    (orderedTables model).

Definition generatePostgresSql (model : DbModel.t) : option string :=
  option_map (Js.join Js.newline) (generateStatements model).

End ScriptWithNaming.

(** ** [lib/naming] as the specification describes it

    The file is not part of the sources at hand.  The definitions below
    follow the sentences of the specification (section 4.1) and serve where
    a statement needs the helpers to run; every general statement below
    holds for any [Naming]. *)

Definition isLower (c : ascii) : bool :=
  let n := nat_of_ascii c in (97 <=? n) && (n <=? 122).
Definition isUpper (c : ascii) : bool :=
  let n := nat_of_ascii c in (65 <=? n) && (n <=? 90).
Definition isDigit (c : ascii) : bool :=
  let n := nat_of_ascii c in (48 <=? n) && (n <=? 57).
Definition isAlnum (c : ascii) : bool := isLower c || isUpper c || isDigit c.
Definition toLower (c : ascii) : ascii :=
  if isUpper c then ascii_of_nat (nat_of_ascii c + 32) else c.

(** Lower-cased alphanumeric runs of [s], joined by single underscores;
    [started] tells whether a run was already emitted, [pending] whether a
    separator was met since. *)
Fixpoint snakeFrom (started pending : bool) (s : string) : string :=
  match s with
  | EmptyString => EmptyString
  | String c rest =>
      if isAlnum c then
        let tail := String (toLower c) (snakeFrom true false rest) in
        if started && pending then String "_"%char tail else tail
      else snakeFrom started true rest
  end.

(** Modelled from the spec: [toSnakeCase] of [lib/naming], "normalizes
    arbitrary text (including multi-word labels) into lower_snake_case
    tokens", idempotent, and non-empty on text with an alphanumeric
    character. *)
Definition specToSnakeCase (text : string) : string := snakeFrom false false text.

Definition isIdentStart (c : ascii) : bool :=
  isLower c || isUpper c || Ascii.eqb c "_"%char.

Fixpoint allChars (p : ascii -> bool) (s : string) : bool :=
  match s with
  | EmptyString => true
  | String c rest => p c && allChars p rest
  end.

Definition isConstraintName (s : string) : bool :=
  match s with
  | EmptyString => false
  | String c rest =>
      isIdentStart c && allChars (fun d => isAlnum d || Ascii.eqb d "_"%char) rest
  end.

(** Modelled from the spec: [sanitizeConstraintName] of [lib/naming], "trims
    ... candidate text into a valid constraint-name shape; if the result is
    empty or invalid, returns [fallback]". *)
Definition specSanitizeConstraintName (candidate fallback : string) : string :=
  let trimmed := Js.trim candidate in
  if isConstraintName trimmed then trimmed else fallback.

(** Modelled from the spec: [ensureUniqueConstraintName] of [lib/naming],
    "same collision-avoidance algorithm as [ensureUniqueName], applied to
    constraint names". *)
Definition specEnsureUniqueConstraintName (base : string) (existingNames : list string)
  : string :=
  ensureUniqueName base existingNames.

(** Modelled from the spec: [buildConstraintName] of [lib/naming]; the
    specification only says that the names are "derived from" the labels
    handed over, here their snake-cased concatenation, with the fallback of
    [sanitizeConstraintName]. *)
Definition specBuildConstraintName (parts : list string) (fallback : string) : string :=
  specSanitizeConstraintName (specToSnakeCase (Js.join "_" parts)) fallback.

Definition specNaming : Naming := {|
  toSnakeCase := specToSnakeCase;
  sanitizeConstraintName := specSanitizeConstraintName;
  ensureUniqueConstraintName := specEnsureUniqueConstraintName;
  buildConstraintName := specBuildConstraintName
|}.

(** A collation for running examples: code-unit order, which is the order
    [localeCompare] gives to lower-case ASCII words. *)
Definition codeUnitCompare (a b : string) : Z :=
  match String.compare a b with
  | Lt => (-1)%Z
  | Eq => 0%Z
  | Gt => 1%Z
  end.

Definition codeUnitLocale : Locale := {| localeCompare := codeUnitCompare |}.

(** ** Vocabulary of the statements *)

(** The table of [tables] with identifier [id] (the first one, should the
    identifier repeat). *)
Definition lookupTable (tables : list Table.t) (id : string) : option Table.t :=
  find (fun table => String.eqb (Table.id table) id) tables.

Definition lookupColumn (table : Table.t) (id : string) : option Column.t :=
  find (fun column => String.eqb (Column.id column) id) (Table.columns table).

Definition lookupForeignKey (table : Table.t) (id : string) : option ForeignKey.t :=
  find (fun fk => String.eqb (ForeignKey.id fk) id) (Table.foreignKeys table).

Definition modelTables (st : ModelState.t) : list Table.t :=
  DbModel.tables (ModelState.model st).

(** A foreign key of [owner] is resolved in [tables] when its target table
    exists and owns the target column. *)
Definition fkResolved (tables : list Table.t) (fk : ForeignKey.t) : Prop :=
  exists target column,
    In target tables /\ Table.id target = ForeignKey.toTableId fk /\
    In column (Table.columns target) /\ Column.id column = ForeignKey.toColumnId fk.

(** Some foreign key of the model names [columnId] as its source or as its
    target column. *)
Definition columnReferenced (tables : list Table.t) (columnId : string) : Prop :=
  exists table fk,
    In table tables /\ In fk (Table.foreignKeys table) /\
    (ForeignKey.fromColumnId fk = columnId \/ ForeignKey.toColumnId fk = columnId).

(** The ways in which a conversion request can miss its preconditions. *)
Inductive PreconditionFails (st : ModelState.t) (tableId fkId : string) : Prop :=
| NoTable :
    lookupTable (modelTables st) tableId = None ->
    PreconditionFails st tableId fkId
| NoForeignKey table :
    lookupTable (modelTables st) tableId = Some table ->
    lookupForeignKey table fkId = None ->
    PreconditionFails st tableId fkId
| NoSourceColumn table fk :
    lookupTable (modelTables st) tableId = Some table ->
    lookupForeignKey table fkId = Some fk ->
    lookupColumn table (ForeignKey.fromColumnId fk) = None ->
    PreconditionFails st tableId fkId
| NoTargetTable table fk :
    lookupTable (modelTables st) tableId = Some table ->
    lookupForeignKey table fkId = Some fk ->
    lookupTable (modelTables st) (ForeignKey.toTableId fk) = None ->
    PreconditionFails st tableId fkId
| NoTargetColumn table fk targetTable :
    lookupTable (modelTables st) tableId = Some table ->
    lookupForeignKey table fkId = Some fk ->
    lookupTable (modelTables st) (ForeignKey.toTableId fk) = Some targetTable ->
    lookupColumn targetTable (ForeignKey.toColumnId fk) = None ->
    PreconditionFails st tableId fkId
| NoReferenceColumn table fk sourceColumn :
    lookupTable (modelTables st) tableId = Some table ->
    lookupForeignKey table fkId = Some fk ->
    lookupColumn table (ForeignKey.fromColumnId fk) = Some sourceColumn ->
    Column.isPrimaryKey sourceColumn = false ->
    (forall column, In column (Table.columns table) ->
                    Column.id column = Column.id sourceColumn) ->
    PreconditionFails st tableId fkId.

(** [ensureUniqueConstraintName] answers with a name outside the list it is
    given. *)
Definition answersFresh {N : Naming} : Prop :=
  forall base used, ~ In (ensureUniqueConstraintName base used) used.

(** [earlier] stands before [later] in [xs]. *)
Definition precedes {A : Type} (xs : list A) (earlier later : A) : Prop :=
  exists front back, xs = front ++ later :: back /\ In earlier front.

(** The dependency graph of the tables: [a] depends on [b] when a foreign
    key of the table [a] targets the table [b] of the model, [b] being
    another table. *)
Definition dependsOn (tables : list Table.t) (a b : string) : Prop :=
  exists table fk,
    In table tables /\ Table.id table = a /\
    In fk (Table.foreignKeys table) /\ ForeignKey.toTableId fk = b /\
    b <> a /\ In b (map Table.id tables).

Definition acyclic (tables : list Table.t) : Prop :=
  forall a, ~ clos_trans string (dependsOn tables) a a.

(** The foreign key [fk] of the table [tableId] is kept as an edge to
    [target] when the graph is built. *)
Definition accepted (tableById : gmap string Table.t) (tableId : string)
    (fk : ForeignKey.t) (target : string) : Prop :=
  ForeignKey.toTableId fk = target /\ target <> EmptyString /\ target <> tableId
  /\ is_Some (tableById !! target).

(** [table] has an edge to [target]. *)
Definition requires (tableById : gmap string Table.t) (table : Table.t)
    (target : string) : Prop :=
  exists fk, In fk (Table.foreignKeys table) /\ accepted tableById (Table.id table) fk target.

(** The dependents recorded for [target]. *)
Definition dependentsOf (dependentsMap : gmap string (list string)) (target : string)
  : list string :=
  default [] (dependentsMap !! target).

(** What remains to be done in a state of the loop. *)
Definition remainingWork (dependentsMap : gmap string (list string))
    (st : SortState.t) : nat :=
  length (SortState.readyQueue st) + pendingWork dependentsMap (SortState.visited st).

(** [a] leads to the first node of [nodes], each node to the next. *)
Fixpoint path (R : string -> string -> Prop) (a : string) (nodes : list string) : Prop :=
  match nodes with
  | [] => True
  | b :: rest => R a b /\ path R b rest
  end.

(** What holds of the state of the loop at the start of every round. *)
Record SortInvariant (tables : list Table.t) (tableById : gmap string Table.t)
    (st : SortState.t) : Prop := {
  visited_ordered :
    forall k, k ∈ SortState.visited st <-> In k (map Table.id (SortState.ordered st));
  ordered_once : List.NoDup (map Table.id (SortState.ordered st));
  ordered_tables : forall table, In table (SortState.ordered st) -> In table tables;
  open_dependencies :
    forall table, In table tables ->
      exists dependencies,
        SortState.dependencyMap st !! Table.id table = Some dependencies
        /\ forall b, b ∈ dependencies
                     <-> requires tableById table b /\ b ∉ SortState.visited st;
  queued_ready :
    forall q, In q (SortState.readyQueue st) ->
      exists table, In table tables /\ Table.id table = q
                    /\ forall b, requires tableById table b -> b ∈ SortState.visited st;
  ready_queued :
    forall table, In table tables ->
      (forall b, requires tableById table b -> b ∈ SortState.visited st) ->
      Table.id table ∈ SortState.visited st \/ In (Table.id table) (SortState.readyQueue st);
  ordered_after_targets :
    forall front table back,
      SortState.ordered st = front ++ table :: back ->
      forall b, requires tableById table b -> In b (map Table.id front)
}.

(** ** Example models *)

Definition plainColumn (id name type : string) : Column.t :=
  Column.mk id name type true None false false false None.

Definition keyColumn (id name : string) : Column.t :=
  Column.mk id name "uuid" false None true true false None.

Definition plainForeignKey (id name fromColumnId toTableId toColumnId : string)
  : ForeignKey.t :=
  ForeignKey.mk id name fromColumnId toTableId toColumnId None None None None None.

Definition stateOf (model : DbModel.t) : ModelState.t :=
  ModelState.mk model None None None true [].

(** [employees.manager_id] references [employees.id]. *)
Definition employees : Table.t :=
  Table.mk "t_employees" "s_public" "employees" None
    [keyColumn "c_emp_id" "id"; plainColumn "c_emp_manager" "manager_id" "uuid"]
    [plainForeignKey "fk_manager" "employees_manager_id_fk"
                     "c_emp_manager" "t_employees" "c_emp_id"]
    None.

Definition employeesModel : DbModel.t :=
  DbModel.mk 1 [Schema.mk "s_public" "public" None] [employees] [].

(** [orders.customer_id] references [customers.id]. *)
Definition customers (schemaId : string) : Table.t :=
  Table.mk "t_customers" schemaId "customers" None
    [keyColumn "c_cust_id" "id"] [] None.

Definition orders : Table.t :=
  Table.mk "t_orders" "s_public" "orders" None
    [keyColumn "c_ord_id" "id"; plainColumn "c_ord_customer" "customer_id" "uuid"]
    [plainForeignKey "fk_customer" "orders_customer_id_fk"
                     "c_ord_customer" "t_customers" "c_cust_id"]
    None.

(** The customers live in a schema of their own. *)
Definition twoSchemaModel : DbModel.t :=
  DbModel.mk 1
    [Schema.mk "s_public" "public" None; Schema.mk "s_crm" "crm" None]
    [customers "s_crm"; orders] [].

Definition shopModel : DbModel.t :=
  DbModel.mk 1 [Schema.mk "s_public" "public" None]
    [customers "s_public"; orders] [].

(** [orders] reduced to its foreign-key column. *)
Definition bareOrders : Table.t :=
  Table.mk "t_orders" "s_public" "orders" None
    [plainColumn "c_ord_customer" "customer_id" "uuid"]
    [plainForeignKey "fk_customer" "orders_customer_id_fk"
                     "c_ord_customer" "t_customers" "c_cust_id"]
    None.

Definition bareShopModel : DbModel.t :=
  DbModel.mk 1 [Schema.mk "s_public" "public" None]
    [customers "s_public"; bareOrders] [].

Definition shopIds : JoinIds.t :=
  JoinIds.mk "t_join" "c_join_left" "c_join_right" "fk_join_left" "fk_join_right".

(** Tables [c], [b], [a] in this order, [b] referencing [a] and [c]
    referencing [b]. *)
Definition chainTable (id name : string) (target : option (string * string)) : Table.t :=
  Table.mk id "s_public" name None
    (keyColumn (id +:+ "_id") "id"
     :: match target with
        | Some _ => [plainColumn (id +:+ "_ref") "ref_id" "uuid"]
        | None => []
        end)
    match target with
    | Some (toTableId, toColumnId) =>
        [plainForeignKey (id +:+ "_fk") (name +:+ "_ref_id_fk") (id +:+ "_ref")
                         toTableId toColumnId]
    | None => []
    end
    None.

Definition tableA : Table.t := chainTable "t_a" "a" None.
Definition tableB : Table.t := chainTable "t_b" "b" (Some ("t_a", "t_a_id")).
Definition tableC : Table.t := chainTable "t_c" "c" (Some ("t_b", "t_b_id")).

Definition chainModel : DbModel.t :=
  DbModel.mk 1 [Schema.mk "s_public" "public" None] [tableC; tableB; tableA] [].

Definition chainRank (id : string) : nat :=
  if String.eqb id "t_c" then 2 else if String.eqb id "t_b" then 1 else 0.

(** [users.email] carries a plain index. *)
Definition users : Table.t :=
  Table.mk "t_users" "s_public" "users" None
    [keyColumn "c_user_id" "id";
     Column.mk "c_user_email" "email" "text" false None false false true None]
    [] None.

(** ** Further operations of the store *)

Definition addSchema (newSchemaId : string) (name : string) : Store string :=
  st ← get;
  let schemas := DbModel.schemas (ModelState.model st) in
  let newSchema :=
    Schema.mk newSchemaId (ensureUniqueName name (map Schema.name schemas)) None in
  set (fun state =>
    ModelState.mk
      (DbModel.withSchemas (DbModel.schemas (ModelState.model state) ++ [newSchema])
                           (ModelState.model state))
      (Some (Schema.id newSchema)) (ModelState.selectedTableId state)
      (ModelState.selectedColumnId state)
      (ModelState.showErd state) (ModelState.undoStack state));;
  mret (Schema.id newSchema).

(** [xs.splice(i, 1)] on a copy: the list without its element at [i]. *)
Definition spliceOut {A : Type} (i : nat) (xs : list A) : list A :=
  firstn i xs ++ skipn (S i) xs.

Definition moveColumn (tableId columnId targetColumnId : string) : Store unit :=
  if String.eqb columnId targetColumnId then mret tt
  else
    set (fun state =>
      let tables := DbModel.tables (ModelState.model state) in
      match Js.findIndex (fun table => String.eqb (Table.id table) tableId) tables with
      | None => state
      | Some tableIndex =>
      match nth_error tables tableIndex with
      | None => state
      | Some table =>
      let columns := Table.columns table in
      match Js.findIndex (fun column => String.eqb (Column.id column) columnId) columns,
            Js.findIndex (fun column => String.eqb (Column.id column) targetColumnId) columns
      with
      | None, _ | _, None => state
      | Some fromIndex, Some toIndex =>
      match nth_error columns fromIndex with
      | None => state
      | Some moved =>
          let updatedColumns := Js.spliceIn toIndex moved (spliceOut fromIndex columns) in
          let updatedTables :=
            imap (fun idx item =>
                    if idx =? tableIndex then Table.withColumns updatedColumns item
                    else item)
                 tables in
          ModelState.mk
            (DbModel.withTables updatedTables (ModelState.model state))
            (ModelState.selectedSchemaId state) (ModelState.selectedTableId state)
            (if isId (ModelState.selectedColumnId state) columnId
             then Some columnId
             else ModelState.selectedColumnId state)
            (ModelState.showErd state) (ModelState.undoStack state)
      end end end end).

(** A [Partial<ForeignKey>]: [None] when the key is absent.  For the optional
    fields of a foreign key, [Some None] is the key present with
    [undefined], which clears the field; the keys of the other fields are
    absent or carry a value. *)
Module ForeignKeyPatch.
Record t := mk {
  id : option string;
  name : option string;
  fromColumnId : option string;
  toTableId : option string;
  toColumnId : option string;
  onDelete : option (option ReferentialAction);
  onUpdate : option (option ReferentialAction);
  comment : option (option string);
  startCardinality : option (option string);
  endCardinality : option (option string)
}.

Definition empty : t := mk None None None None None None None None None None.
End ForeignKeyPatch.

Section UpdateWithNaming.
Context {N : Naming}.

(** The foreign key [fk] of [table] after [{ ...fk, ...updated }]. *)
Definition patchForeignKey (table : Table.t) (fkId : string)
    (patch : ForeignKeyPatch.t) (fk : ForeignKey.t) : ForeignKey.t :=
  let name :=
    match ForeignKeyPatch.name patch with
    | Some patched =>
        let fallback := ForeignKey.name fk in
        let base := sanitizeConstraintName patched fallback in
        let existingNames :=
          map ForeignKey.name
              (List.filter (fun item => idNot fkId (ForeignKey.id item))
                           (Table.foreignKeys table)) in
        ensureUniqueConstraintName base existingNames
    | None => ForeignKey.name fk
    end in
  let cardinality (patched : option (option string)) (current : option string) :=
    match patched with
    | Some (Some value) =>
        match normalizeFkCardinality (Some value) with
        | Some normalized => Some normalized
        | None => Some value
        end
    | Some None => None
    | None => current
    end in
  ForeignKey.mk
    (default (ForeignKey.id fk) (ForeignKeyPatch.id patch))
    name
    (default (ForeignKey.fromColumnId fk) (ForeignKeyPatch.fromColumnId patch))
    (default (ForeignKey.toTableId fk) (ForeignKeyPatch.toTableId patch))
    (default (ForeignKey.toColumnId fk) (ForeignKeyPatch.toColumnId patch))
    (default (ForeignKey.onDelete fk) (ForeignKeyPatch.onDelete patch))
    (default (ForeignKey.onUpdate fk) (ForeignKeyPatch.onUpdate patch))
    (default (ForeignKey.comment fk) (ForeignKeyPatch.comment patch))
    (cardinality (ForeignKeyPatch.startCardinality patch) (ForeignKey.startCardinality fk))
    (cardinality (ForeignKeyPatch.endCardinality patch) (ForeignKey.endCardinality fk)).

Definition updateForeignKey (tableId fkId : string) (patch : ForeignKeyPatch.t)
  : Store unit :=
  set (fun state =>
    ModelState.mk
      (DbModel.withTables
         (map (fun table =>
                 if negb (String.eqb (Table.id table) tableId) then table
                 else
                   Table.withForeignKeys
                     (map (fun fk =>
                             if negb (String.eqb (ForeignKey.id fk) fkId) then fk
                             else patchForeignKey table fkId patch fk)
                          (Table.foreignKeys table))
                     table)
              (DbModel.tables (ModelState.model state)))
         (ModelState.model state))
      (ModelState.selectedSchemaId state) (ModelState.selectedTableId state)
      (ModelState.selectedColumnId state)
      (ModelState.showErd state) (ModelState.undoStack state)).

(** The [map] of [sanitizeModel] over the foreign keys of one table, [used]
    growing along it. *)
Fixpoint sanitizeForeignKeys (used : list string) (fks : list ForeignKey.t)
  : list ForeignKey.t :=
  match fks with
  | [] => []
  | fk :: rest =>
      let fallback := "fk_" +:+ Js.slice0 8 (ForeignKey.id fk) in
      let base := sanitizeConstraintName (ForeignKey.name fk) fallback in
      let unique := ensureUniqueConstraintName base used in
      ForeignKey.mk (ForeignKey.id fk) unique (ForeignKey.fromColumnId fk)
                    (ForeignKey.toTableId fk) (ForeignKey.toColumnId fk)
                    (ForeignKey.onDelete fk) (ForeignKey.onUpdate fk)
                    (ForeignKey.comment fk) (ForeignKey.startCardinality fk)
                    (ForeignKey.endCardinality fk)
      :: sanitizeForeignKeys (addName unique used) rest
  end.

Definition sanitizeModel (model : DbModel.t) : DbModel.t :=
  DbModel.withTables
    (map (fun table =>
            Table.withForeignKeys (sanitizeForeignKeys [] (Table.foreignKeys table)) table)
         (DbModel.tables model))
    model.

Definition setModel (model : DbModel.t) : Store unit :=
  let sanitized :=
    sanitizeModel (DbModel.mk 1 (DbModel.schemas model) (DbModel.tables model)
                              (DbModel.types model)) in
  set (fun state =>
    ModelState.mk sanitized
      (option_map Schema.id (head (DbModel.schemas sanitized)))
      (option_map Table.id (head (DbModel.tables sanitized)))
      None
      (ModelState.showErd state) []).

(** The [onRehydrateStorage] callback, which repairs the state read back
    from storage. *)
Definition rehydrate (state : ModelState.t) : ModelState.t :=
  let model := sanitizeModel (ModelState.model state) in
  let selectedSchemaId :=
    if negb (Js.truthy (ModelState.selectedSchemaId state))
    then option_map Schema.id (head (DbModel.schemas model))
    else ModelState.selectedSchemaId state in
  let selectedTableId :=
    if Js.truthy (ModelState.selectedTableId state)
       && negb (existsb (fun table => isId (ModelState.selectedTableId state) (Table.id table))
                        (DbModel.tables model))
    then option_map Table.id (head (DbModel.tables model))
    else ModelState.selectedTableId state in
  let selectedColumnId :=
    if Js.truthy (ModelState.selectedColumnId state)
       && negb (hasColumnOpt (DbModel.tables model) (ModelState.selectedColumnId state))
    then None
    else ModelState.selectedColumnId state in
  ModelState.mk model selectedSchemaId selectedTableId selectedColumnId
                (ModelState.showErd state) (ModelState.undoStack state).

End UpdateWithNaming.

(** *** Sequences of removals and undos *)





(** *** Invariants of the model *)

(** The selection names entities of the model, where it names any. *)
Definition selectionValid (st : ModelState.t) : Prop :=
  (forall s, ModelState.selectedSchemaId st = Some s ->
             In s (map Schema.id (DbModel.schemas (ModelState.model st))))
  /\ (forall t, ModelState.selectedTableId st = Some t ->
                In t (map Table.id (modelTables st)))
  /\ (forall c, ModelState.selectedColumnId st = Some c ->
                hasColumn (modelTables st) c = true).

(** Every foreign key starts at a column of the table that owns it. *)
Definition sourcesResolved (tables : list Table.t) : Prop :=
  forall table fk,
    In table tables -> In fk (Table.foreignKeys table) ->
    exists column, In column (Table.columns table)
                   /\ Column.id column = ForeignKey.fromColumnId fk.

(** Every foreign key ends at a column of a table of the model. *)
Definition targetsResolved (tables : list Table.t) : Prop :=
  forall table fk,
    In table tables -> In fk (Table.foreignKeys table) -> fkResolved tables fk.

(** Every table belongs to a schema of the model. *)
Definition schemasResolved (model : DbModel.t) : Prop :=
  forall table, In table (DbModel.tables model) ->
                In (Table.schemaId table) (map Schema.id (DbModel.schemas model)).

(** The foreign keys of each table have pairwise distinct names. *)
Definition constraintNamesDistinct (tables : list Table.t) : Prop :=
  forall table, In table tables ->
                List.NoDup (map ForeignKey.name (Table.foreignKeys table)).

(** ** Further cardinality helpers ([components/CrowFootEdge.tsx]) *)

Definition kindText (kind : Kind) : string :=
  match kind with
  | one => "one"
  | many => "many"
  end.

(** The four identifiers [computeKindsForEdgeData] reads off the edge data. *)
Module EdgeEnds.
Record t := mk {
  sourceTableId : option string;
  sourceColumnId : option string;
  targetTableId : option string;
  targetColumnId : option string
}.
End EdgeEnds.

Definition computeKindsForEdgeData (edgeData : EdgeEnds.t) (model : DbModel.t) : Kinds.t :=
  let fallback := Kinds.mk many one in
  match EdgeEnds.sourceTableId edgeData, EdgeEnds.sourceColumnId edgeData,
        EdgeEnds.targetTableId edgeData, EdgeEnds.targetColumnId edgeData with
  | Some sourceTableId, Some sourceColumnId, Some targetTableId, Some targetColumnId =>
      if String.eqb sourceTableId EmptyString || String.eqb sourceColumnId EmptyString
         || String.eqb targetTableId EmptyString || String.eqb targetColumnId EmptyString
      then fallback
      else
        match find (fun t => String.eqb (Table.id t) sourceTableId) (DbModel.tables model),
              find (fun t => String.eqb (Table.id t) targetTableId) (DbModel.tables model) with
        | Some sourceTable, Some targetTable =>
            match find (fun c => String.eqb (Column.id c) sourceColumnId)
                       (Table.columns sourceTable),
                  find (fun c => String.eqb (Column.id c) targetColumnId)
                       (Table.columns targetTable) with
            | Some sourceCol, Some targetCol =>
                let fkNullable := Column.nullable sourceCol in
                let sourcePkColumns :=
                  List.filter Column.isPrimaryKey (Table.columns sourceTable) in
                let fkIsUnique :=
                  Column.isUnique sourceCol
                  || (Column.isPrimaryKey sourceCol && (length sourcePkColumns =? 1)) in
                let refPkColumns :=
                  List.filter Column.isPrimaryKey (Table.columns targetTable) in
                let refIsUnique :=
                  Column.isUnique targetCol
                  || (Column.isPrimaryKey targetCol && (length refPkColumns =? 1)) in
                computeKindsFromModel (KindParams.mk fkNullable fkIsUnique refIsUnique)
            | _, _ => fallback
            end
        | _, _ => fallback
        end
  | _, _, _, _ => fallback
  end.

(** ** Reading quoted text back *)

(** The text between an opening [quote] and the closing one that ends [s],
    doubled quotes standing for one. *)
Fixpoint readQuoted (quote : ascii) (s : string) : option string :=
  match s with
  | EmptyString => None
  | String d rest =>
      if Ascii.eqb d quote then
        match rest with
        | EmptyString => Some EmptyString
        | String e rest' =>
            if Ascii.eqb e quote then option_map (String quote) (readQuoted quote rest')
            else None
        end
      else option_map (String d) (readQuoted quote rest)
  end.

Definition unquote (quote : ascii) (s : string) : option string :=
  match s with
  | EmptyString => None
  | String d rest => if Ascii.eqb d quote then readQuoted quote rest else None
  end.

(** Two tables that reference each other, after a table that stands
    alone. *)
Definition tableP : Table.t := chainTable "t_p" "p" (Some ("t_q", "t_q_id")).
Definition tableQ : Table.t := chainTable "t_q" "q" (Some ("t_p", "t_p_id")).

Definition cycleModel : DbModel.t :=
  DbModel.mk 1 [Schema.mk "s_public" "public" None] [tableP; tableQ; tableA] [].

(** ** Vocabulary of the script *)

(** The [CREATE TABLE] statement, with its comments, that the script holds
    for [table]. *)
Definition createTableStatement (model : DbModel.t) (table : Table.t) : string :=
  buildTableStatement table (getSchemaName model (Table.schemaId table))
                      (fun id => tableById model !! id) (getSchemaName model).

(** How the statement of [table] begins. *)
Definition createTableHead (model : DbModel.t) (table : Table.t) : string :=
  "CREATE TABLE " +:+ qualify (getSchemaName model (Table.schemaId table)) (Table.name table)
    +:+ " (".

(** Text of ASCII characters only, on which the helpers of [Js] are those of
    JavaScript. *)
Definition isAsciiText (s : string) : bool :=
  forallb (fun c => nat_of_ascii c <? 128) (list_ascii_of_string s).

(** A table that references a table whose identifier is empty. *)
Definition referrer : Table.t := chainTable "t_a" "a" (Some (EmptyString, "_id")).
Definition nameless : Table.t := chainTable EmptyString "e" None.

Definition namelessModel : DbModel.t :=
  DbModel.mk 1 [Schema.mk "s_public" "public" None] [referrer; nameless] [].

(** Two tables that share an identifier, the first referencing a third
    table. *)
Definition twinX : Table.t := chainTable "t_a" "x" (Some ("t_b", "t_b_id")).
Definition twinY : Table.t := chainTable "t_a" "y" None.
Definition twinTarget : Table.t := chainTable "t_b" "b" None.

Definition twinModel : DbModel.t :=
  DbModel.mk 1 [Schema.mk "s_public" "public" None] [twinX; twinY; twinTarget] [].

(** * Properties *)

(** ** Lookups *)

Lemma find_none_iff {A : Type} (p : A -> bool) (xs : list A) :
  find p xs = None <-> forall x, In x xs -> p x = false.
Proof.
  split.
  - intros H x Hx. exact (find_none p xs H x Hx).
  - induction xs as [|y ys IH]; intros H; simpl; [reflexivity|].
    rewrite (H y (or_introl eq_refl)). apply IH. intros x Hx. apply H. now right.
Qed.

Lemma findIndex_find {A : Type} (p : A -> bool) (xs : list A) :
  match Js.findIndex p xs with
  | Some i => exists x, nth_error xs i = Some x /\ find p xs = Some x
  | None => find p xs = None
  end.
Proof.
  induction xs as [|y ys IH]; simpl; [reflexivity|].
  destruct (p y) eqn:Hy.
  - exists y. split; reflexivity.
  - destruct (Js.findIndex p ys) as [i|]; simpl.
    + destruct IH as (x & Hn & Hf). exists x. split; assumption.
    + assumption.
Qed.

Lemma findIndex_first {A : Type} (p : A -> bool) (xs : list A) (i : nat) :
  Js.findIndex p xs = Some i ->
  forall j y, j < i -> nth_error xs j = Some y -> p y = false.
Proof.
  revert i. induction xs as [|x xs IH]; intros i H j y Hj Hy; simpl in *; [discriminate|].
  destruct (p x) eqn:Hx.
  - inversion H; subst. lia.
  - destruct (Js.findIndex p xs) as [k|]; simpl in H; [|discriminate].
    inversion H; subst. destruct j as [|j]; simpl in Hy.
    + inversion Hy; subst. exact Hx.
    + eapply IH; eauto. lia.
Qed.

Lemma lookupTable_some (tables : list Table.t) (id : string) (table : Table.t) :
  lookupTable tables id = Some table -> In table tables /\ Table.id table = id.
Proof.
  intros H. apply find_some in H. destruct H as [Hin Heq].
  split; [assumption|]. now apply String.eqb_eq.
Qed.

Lemma lookupTable_none (tables : list Table.t) (id : string) :
  lookupTable tables id = None <-> forall table, In table tables -> Table.id table <> id.
Proof.
  unfold lookupTable. rewrite find_none_iff. split; intros H t Ht.
  - apply String.eqb_neq. now apply H.
  - apply String.eqb_neq. now apply H.
Qed.

Lemma existsb_id_false (tables : list Table.t) (id : string) :
  (forall table, In table tables -> Table.id table <> id) ->
  existsb (fun table => String.eqb (Table.id table) id) tables = false.
Proof.
  intros H. induction tables as [|t ts IH]; simpl; [reflexivity|].
  rewrite IH; [|intros; apply H; now right].
  rewrite orb_false_r. apply String.eqb_neq. apply H. now left.
Qed.

(** ** Cardinality inference *)

(** C10.  [computeKindsFromModel] does not look at [fkNullable]: two runs
    that differ only there return the same kinds, [start] being [one]
    exactly when [fkIsUnique] holds and [many] otherwise, [end] being [one]
    exactly when [refIsUnique] holds and [many] otherwise. *)
Theorem computeKindsFromModel_ignores_nullability :
  forall (fkIsUnique refIsUnique nullable1 nullable2 : bool),
    let run1 := computeKindsFromModel (KindParams.mk nullable1 fkIsUnique refIsUnique) in
    let run2 := computeKindsFromModel (KindParams.mk nullable2 fkIsUnique refIsUnique) in
    run1 = run2
    /\ (Kinds.start run1 = one <-> fkIsUnique = true)
    /\ (Kinds.start run1 = many <-> fkIsUnique = false)
    /\ (Kinds.end_ run1 = one <-> refIsUnique = true)
    /\ (Kinds.end_ run1 = many <-> refIsUnique = false).
Proof.
  intros fkIsUnique refIsUnique nullable1 nullable2. unfold computeKindsFromModel. simpl.
  destruct fkIsUnique, refIsUnique; repeat split; intros; congruence.
Qed.

(** ** Schemas *)

(** C9.  With exactly one schema in the model, [removeSchema] returns the
    state it was given: schemas (hence their count and the identifier of the
    survivor), tables, types and selection are those of before. *)
Theorem removeSchema_last_schema :
  forall (st : ModelState.t) (id : string),
    length (DbModel.schemas (ModelState.model st)) = 1 ->
    removeSchema id st = (Returned tt, st).
Proof.
  intros st id H. unfold removeSchema, set. now rewrite H.
Qed.

Lemma removeSchema_last_schema_witness :
  length (DbModel.schemas (ModelState.model (stateOf employeesModel))) = 1
  /\ removeSchema "s_public" (stateOf employeesModel)
     = (Returned tt, stateOf employeesModel).
Proof.
  split; [reflexivity|].
  apply (removeSchema_last_schema (stateOf employeesModel) "s_public"). reflexivity.
Defined.

(** What [removeSchema] does with two schemas or more: the schema and its
    tables go, every other table stays as it is. *)
Lemma removeSchema_tables (st : ModelState.t) (id : string) :
  2 <= length (DbModel.schemas (ModelState.model st)) ->
  let st' := snd (removeSchema id st) in
  DbModel.schemas (ModelState.model st')
  = List.filter (fun schema => idNot id (Schema.id schema))
                (DbModel.schemas (ModelState.model st))
  /\ modelTables st'
     = List.filter (fun table => idNot id (Table.schemaId table)) (modelTables st).
Proof.
  intros H. unfold removeSchema, set, modelTables. simpl.
  destruct (length (DbModel.schemas (ModelState.model st)) <=? 1) eqn:E.
  - apply Nat.leb_le in E. lia.
  - simpl. split; reflexivity.
Qed.

(** C2.  [removeSchema] drops the tables of the schema and leaves the
    foreign keys of the other tables alone: after [crm] is removed from the
    two-schema model, [orders] still carries its foreign key into the
    departed [customers]. *)
Theorem removeSchema_keeps_foreign_keys :
  let st' := snd (removeSchema "s_crm" (stateOf twoSchemaModel)) in
  2 <= length (DbModel.schemas (ModelState.model (stateOf twoSchemaModel)))
  /\ modelTables st' = [orders]
  /\ exists fk, In fk (Table.foreignKeys orders)
                /\ ForeignKey.toTableId fk = "t_customers"
                /\ ~ fkResolved (modelTables st') fk.
Proof.
  simpl. split; [lia|]. split; [reflexivity|].
  exists (plainForeignKey "fk_customer" "orders_customer_id_fk"
                          "c_ord_customer" "t_customers" "c_cust_id").
  split; [now left|]. split; [reflexivity|].
  intros (target & column & Hin & Hid & _).
  unfold modelTables in Hin. simpl in Hin. destruct Hin as [<-|[]]. discriminate.
Qed.

(** ** Tables and undo *)


(** ** Columns *)

(** The cascade [removeColumn] performs: the column leaves its table, the
    foreign keys of that table that start at the column go, and so do the
    foreign keys of every other table that end at it. *)
Lemma removeColumn_cascade (st : ModelState.t) (tableId columnId : string) :
  forall table fk,
    In table (modelTables (snd (removeColumn tableId columnId st))) ->
    In fk (Table.foreignKeys table) ->
    (Table.id table = tableId ->
       ForeignKey.fromColumnId fk <> columnId
       /\ forall column, In column (Table.columns table) -> Column.id column <> columnId)
    /\ (Table.id table <> tableId -> ForeignKey.toColumnId fk <> columnId).
Proof.
  intros table fk Hin Hfk. unfold removeColumn, modelTables in Hin. simpl in Hin.
  apply in_map_iff in Hin. destruct Hin as (t0 & Heq & _).
  destruct (String.eqb (Table.id t0) tableId) eqn:E; simpl in Heq; subst table;
    simpl in *; apply filter_In in Hfk; destruct Hfk as [_ Hfk];
    unfold idNot in Hfk; apply negb_true_iff, String.eqb_neq in Hfk.
  - split; [|intros Hne; apply String.eqb_eq in E; contradiction].
    intros _. split; [assumption|].
    intros column Hc. apply filter_In in Hc. destruct Hc as [_ Hc].
    unfold idNot in Hc. now apply negb_true_iff, String.eqb_neq in Hc.
  - split; [|intros _; assumption].
    intros Hid. apply String.eqb_neq in E. contradiction.
Qed.

(** C1.  A foreign key of the table itself that ends at the removed column
    survives [removeColumn]: once [employees.id] is removed, the foreign key
    from [manager_id] still names it as target, and no table owns the
    column any more. *)
Theorem removeColumn_keeps_self_reference :
  let st := stateOf employeesModel in
  let st' := snd (removeColumn "t_employees" "c_emp_id" st) in
  lookupTable (modelTables st) "t_employees" = Some employees
  /\ (exists column, lookupColumn employees "c_emp_id" = Some column)
  /\ hasColumn (modelTables st') "c_emp_id" = false
  /\ columnReferenced (modelTables st') "c_emp_id".
Proof.
  simpl. split; [reflexivity|]. split; [eexists; reflexivity|]. split; [reflexivity|].
  unfold columnReferenced, modelTables. simpl.
  eexists. eexists. split; [left; reflexivity|]. simpl. split; [left; reflexivity|].
  right. reflexivity.
Qed.

(** ** Invalid references *)

Section InvalidReferences.
Context {N : Naming}.

Lemma map_unmatched_id (f : Table.t -> Table.t) (tableId : string) (tables : list Table.t) :
  (forall table, In table tables -> Table.id table <> tableId) ->
  map (fun table => if negb (String.eqb (Table.id table) tableId) then table else f table)
      tables = tables.
Proof.
  intros H. induction tables as [|t ts IH]; simpl; [reflexivity|].
  rewrite IH; [|intros; apply H; now right].
  assert (E : String.eqb (Table.id t) tableId = false)
    by (apply String.eqb_neq; apply H; now left).
  now rewrite E.
Qed.

Lemma map_matched_id (f : Table.t -> Table.t) (tableId : string) (tables : list Table.t) :
  (forall table, In table tables -> Table.id table <> tableId) ->
  map (fun table => if String.eqb (Table.id table) tableId then f table else table)
      tables = tables.
Proof.
  intros H. induction tables as [|t ts IH]; simpl; [reflexivity|].
  rewrite IH; [|intros; apply H; now right].
  assert (E : String.eqb (Table.id t) tableId = false)
    by (apply String.eqb_neq; apply H; now left).
  now rewrite E.
Qed.

(** Where the identifier names nothing: [addTable] and [addColumn] throw and
    leave the store as it was; [addForeignKey] and [removeForeignKey] leave
    the store as it was and return as they do on success. *)
Lemma invalid_reference_outcomes :
  forall (st : ModelState.t) (schemaId tableId : string),
    (forall schema, In schema (DbModel.schemas (ModelState.model st)) ->
                    Schema.id schema <> schemaId) ->
    (forall table, In table (modelTables st) -> Table.id table <> tableId) ->
    (forall newTableId newColumnId name position,
        addTable newTableId newColumnId schemaId name position st
        = (Thrown "Schema inexistente", st))
    /\ (forall newColumnId name,
           addColumn newColumnId tableId name st = (Thrown "Tabela inexistente", st))
    /\ (forall fkId fk, addForeignKey fkId tableId fk st = (Returned fkId, st))
    /\ (forall fkId, removeForeignKey tableId fkId st = (Returned tt, st)).
Proof.
  intros st schemaId tableId Hschema Htable. repeat split.
  - intros. unfold addTable, mbind, Store_bind, bind, get. simpl.
    assert (E : existsb (fun schema => String.eqb (Schema.id schema) schemaId)
                        (DbModel.schemas (ModelState.model st)) = false).
    { clear -Hschema. induction (DbModel.schemas (ModelState.model st)) as [|s ss IH];
        simpl; [reflexivity|].
      rewrite IH; [|intros; apply Hschema; now right].
      rewrite orb_false_r. apply String.eqb_neq. apply Hschema. now left. }
    rewrite E. reflexivity.
  - intros. unfold addColumn, mbind, Store_bind, bind, get. simpl.
    apply lookupTable_none in Htable. unfold lookupTable, modelTables in Htable.
    rewrite Htable. reflexivity.
  - intros. unfold addForeignKey, mbind, Store_bind, bind, set, mret, Store_ret, ret. simpl.
    unfold modelTables in Htable. rewrite map_unmatched_id by exact Htable.
    destruct st as [[version schemas tables types] s1 s2 s3 erd undoStack]. reflexivity.
  - intros. unfold removeForeignKey, set.
    unfold modelTables in Htable. rewrite map_matched_id by exact Htable.
    destruct st as [[version schemas tables types] s1 s2 s3 erd undoStack]. reflexivity.
Qed.

End InvalidReferences.

(** C3.  [addForeignKey] on a table that the model lacks reports no
    failure: it returns the identifier drawn for the foreign key, as it does
    on a table of the model, although no table has received the key and the
    store is as it was.  Its siblings [addTable] and [addColumn] check the
    identifier they are given and throw.  The mutations that return nothing
    report nothing either: [removeForeignKey] with such an identifier leaves
    the store as it was, and [removeTable] keeps the tables and still pushes
    a snapshot on the undo stack. *)
Theorem addForeignKey_missing_table_returns_id :
  let st := stateOf shopModel in
  let fk := plainForeignKey EmptyString "orders_customer_id_fk" "c_ord_customer"
                            "t_customers" "c_cust_id" in
  lookupTable (modelTables st) "t_missing" = None
  /\ addForeignKey (N := specNaming) "fk_new" "t_missing" fk st = (Returned "fk_new", st)
  /\ (forall table, In table (modelTables st) -> lookupForeignKey table "fk_new" = None)
  /\ fst (addForeignKey (N := specNaming) "fk_new" "t_orders" fk st) = Returned "fk_new"
  /\ addColumn "c_new" "t_missing" None st = (Thrown "Tabela inexistente", st)
  /\ addTable "t_new" "c_new" "s_missing" None None st = (Thrown "Schema inexistente", st)
  /\ removeForeignKey "t_missing" "fk_customer" st = (Returned tt, st)
  /\ fst (removeTable "t_missing" st) = Returned tt
  /\ modelTables (snd (removeTable "t_missing" st)) = modelTables st
  /\ ModelState.undoStack (snd (removeTable "t_missing" st)) = [snapshotOf st].
Proof.
  cbv zeta. split; [reflexivity|]. split; [reflexivity|]. split.
  - unfold modelTables. simpl. intros table [<-|[<-|[]]]; reflexivity.
  - repeat split; reflexivity.
Qed.

(** ** Many-to-many conversion *)

Lemma pickReferenceColumn_none (table : Table.t) (preferred : option string)
    (exclude : gset string) :
  (forall column, In column (Table.columns table) -> Column.id column ∈ exclude) ->
  pickReferenceColumn table preferred exclude = None.
Proof.
  intros H.
  assert (Hallowed : forall column, In column (Table.columns table) ->
            negb (bool_decide (Column.id column ∈ exclude)) = false).
  { intros column Hc. apply negb_false_iff, bool_decide_eq_true. now apply H. }
  assert (Hfind : forall q : Column.t -> bool,
            find (fun column => q column && negb (bool_decide (Column.id column ∈ exclude)))
                 (Table.columns table) = None).
  { intros q. apply find_none_iff. intros column Hc.
    rewrite (Hallowed column Hc). apply andb_false_r. }
  unfold pickReferenceColumn.
  rewrite (Hfind (fun column => bool_decide (Some (Column.id column) = preferred))).
  rewrite (Hfind Column.isPrimaryKey), (Hfind Column.isUnique).
  assert (Hlast : find (fun column => negb (bool_decide (Column.id column ∈ exclude)))
                       (Table.columns table) = None)
    by (apply find_none_iff; exact Hallowed).
  rewrite Hlast. now destruct (Js.truthy preferred).
Qed.

Lemma pickReferenceColumn_some (table : Table.t) (preferred : option string)
    (exclude : gset string) (column : Column.t) :
  In column (Table.columns table) -> Column.id column ∉ exclude ->
  exists reference,
    pickReferenceColumn table preferred exclude = Some reference
    /\ In reference (Table.columns table) /\ Column.id reference ∉ exclude.
Proof.
  intros Hin Hout.
  assert (Hsound : forall (q : Column.t -> bool) reference,
            find (fun c => q c && negb (bool_decide (Column.id c ∈ exclude)))
                 (Table.columns table) = Some reference ->
            In reference (Table.columns table) /\ Column.id reference ∉ exclude).
  { intros q reference Hf. apply find_some in Hf. destruct Hf as [Hi Hq].
    split; [assumption|]. apply andb_true_iff in Hq. destruct Hq as [_ Hq].
    apply negb_true_iff, bool_decide_eq_false in Hq. exact Hq. }
  unfold pickReferenceColumn.
  destruct (if Js.truthy preferred
            then find (fun c => bool_decide (Some (Column.id c) = preferred)
                                && negb (bool_decide (Column.id c ∈ exclude)))
                      (Table.columns table)
            else None) as [r|] eqn:E1.
  { exists r. split; [reflexivity|]. destruct (Js.truthy preferred); [|discriminate].
    eapply Hsound; exact E1. }
  destruct (find (fun c => Column.isPrimaryKey c && negb (bool_decide (Column.id c ∈ exclude)))
                 (Table.columns table)) as [r|] eqn:E2.
  { exists r. split; [reflexivity|]. eapply Hsound; exact E2. }
  destruct (find (fun c => Column.isUnique c && negb (bool_decide (Column.id c ∈ exclude)))
                 (Table.columns table)) as [r|] eqn:E3.
  { exists r. split; [reflexivity|]. eapply Hsound; exact E3. }
  destruct (find (fun c => negb (bool_decide (Column.id c ∈ exclude)))
                 (Table.columns table)) as [r|] eqn:E4.
  - exists r. split; [reflexivity|]. apply find_some in E4. destruct E4 as [Hi Hq].
    split; [assumption|]. now apply negb_true_iff, bool_decide_eq_false in Hq.
  - exfalso. rewrite find_none_iff in E4. specialize (E4 column Hin).
    apply negb_false_iff, bool_decide_eq_true in E4. contradiction.
Qed.

Section Conversion.
Context {N : Naming} {L : Locale}.

(** The index search of the source agrees with [lookupTable]. *)
Lemma findIndex_lookupTable (tables : list Table.t) (id : string) :
  match Js.findIndex (fun table => String.eqb (Table.id table) id) tables with
  | Some i => exists table, nth_error tables i = Some table
                            /\ lookupTable tables id = Some table
  | None => lookupTable tables id = None
  end.
Proof. apply findIndex_find. Qed.

Ltac resolve_table tables id :=
  let H := fresh "Hindex" in
  let i := fresh "index" in
  let t := fresh "found" in
  let Hn := fresh "Hnth" in
  let Hl := fresh "Hlookup" in
  pose proof (findIndex_lookupTable tables id) as H;
  destruct (Js.findIndex (fun table => String.eqb (Table.id table) id) tables) as [i|];
  [ destruct H as (t & Hn & Hl); rewrite Hn | ].

(** C6.  When a precondition of the conversion fails (no such table, no
    such foreign key on it, no source column, no target table, no target
    column, or no column left to reference), the call returns [false] and
    the store is the one it was given. *)
Theorem convert_precondition_failure :
  forall (st : ModelState.t) (tableId fkId : string) (ids : JoinIds.t),
    PreconditionFails st tableId fkId ->
    convertForeignKeyToManyToMany ids tableId fkId st = (Returned false, st).
Proof.
  intros st tableId fkId ids Hfail.
  unfold convertForeignKeyToManyToMany, convertUpdater.
  fold (modelTables st).
  resolve_table (modelTables st) tableId.
  2: reflexivity.
  destruct Hfail as [H | table H Hfk | table fk H Hfk Hsrc | table fk H Hfk Htgt
                     | table fk targetTable H Hfk Htgt Hcol
                     | table fk sourceColumn H Hfk Hsrc Hpk Hall];
    rewrite H in Hlookup; inversion Hlookup; subst found; clear Hlookup.
  - unfold lookupForeignKey in Hfk. rewrite Hfk. reflexivity.
  - unfold lookupForeignKey in Hfk. rewrite Hfk.
    unfold lookupColumn in Hsrc. rewrite Hsrc. reflexivity.
  - unfold lookupForeignKey in Hfk. rewrite Hfk.
    resolve_table (modelTables st) (ForeignKey.toTableId fk).
    + rewrite Htgt in Hlookup. discriminate.
    + destruct (find _ (Table.columns table)); reflexivity.
  - unfold lookupForeignKey in Hfk. rewrite Hfk.
    resolve_table (modelTables st) (ForeignKey.toTableId fk).
    + rewrite Htgt in Hlookup. inversion Hlookup; subst found.
      unfold lookupColumn in Hcol. rewrite Hcol.
      destruct (find _ (Table.columns table)); reflexivity.
    + destruct (find _ (Table.columns table)); reflexivity.
  - unfold lookupForeignKey in Hfk. rewrite Hfk.
    unfold lookupColumn in Hsrc. rewrite Hsrc.
    resolve_table (modelTables st) (ForeignKey.toTableId fk); [|reflexivity].
    destruct (find _ (Table.columns found)); [|reflexivity].
    rewrite Hpk. simpl negb. cbv iota.
    rewrite (pickReferenceColumn_none table (Some (Column.id sourceColumn))
               {[ Column.id sourceColumn ]}).
    + reflexivity.
    + intros column Hc. rewrite (Hall column Hc). now apply elem_of_singleton.
Qed.

End Conversion.

Lemma convert_precondition_failure_witness :
  PreconditionFails (stateOf bareShopModel) "t_orders" "fk_customer"
  /\ convertForeignKeyToManyToMany (N := specNaming) (L := codeUnitLocale)
       shopIds "t_orders" "fk_customer" (stateOf bareShopModel)
     = (Returned false, stateOf bareShopModel).
Proof.
  assert (H : PreconditionFails (stateOf bareShopModel) "t_orders" "fk_customer").
  { apply (NoReferenceColumn _ _ _ bareOrders
             (plainForeignKey "fk_customer" "orders_customer_id_fk"
                              "c_ord_customer" "t_customers" "c_cust_id")
             (plainColumn "c_ord_customer" "customer_id" "uuid"));
      try reflexivity.
    simpl. intros column [<-|[]]. reflexivity. }
  split; [exact H|].
  apply (convert_precondition_failure (N := specNaming) (L := codeUnitLocale)
           (stateOf bareShopModel) "t_orders" "fk_customer" shopIds H).
Defined.

Lemma pickReferenceColumn_none_inv (table : Table.t) (preferred : option string)
    (exclude : gset string) :
  pickReferenceColumn table preferred exclude = None ->
  forall column, In column (Table.columns table) -> Column.id column ∈ exclude.
Proof.
  intros Hnone column Hin.
  destruct (decide (Column.id column ∈ exclude)) as [Hyes|Hno]; [assumption|exfalso].
  destruct (pickReferenceColumn_some table preferred exclude column Hin Hno)
    as (reference & Hsome & _).
  congruence.
Qed.

Section Refusal.
Context {N : Naming} {L : Locale}.

(** Conversely, the call returns [false] only when a precondition fails. *)
Lemma convert_refused_only_on_failure (st : ModelState.t) (tableId fkId : string)
    (ids : JoinIds.t) :
  fst (convertForeignKeyToManyToMany ids tableId fkId st) = Returned false ->
  PreconditionFails st tableId fkId.
Proof.
  unfold convertForeignKeyToManyToMany, convertUpdater. fold (modelTables st).
  pose proof (findIndex_lookupTable (modelTables st) tableId) as Htable.
  destruct (Js.findIndex _ (modelTables st)) as [i|]; [|intros _; now apply NoTable].
  destruct Htable as (table & Hnth & Htable). rewrite Hnth.
  destruct (find _ (Table.foreignKeys table)) as [fk|] eqn:Hfk;
    [|intros _; now apply (NoForeignKey _ _ _ table)].
  destruct (find _ (Table.columns table)) as [sourceColumn|] eqn:Hsource;
    [|intros _; now apply (NoSourceColumn _ _ _ table fk)].
  pose proof (findIndex_lookupTable (modelTables st) (ForeignKey.toTableId fk)) as Htarget.
  destruct (Js.findIndex _ (modelTables st)) as [j|];
    [|intros _; now apply (NoTargetTable _ _ _ table fk)].
  destruct Htarget as (targetTable & Hnthj & Htarget). rewrite Hnthj.
  destruct (find _ (Table.columns targetTable)) as [targetColumn|] eqn:Hcolumn;
    [|intros _; now apply (NoTargetColumn _ _ _ table fk targetTable)].
  destruct (pickReferenceColumn table _ _) as [sourceReference|] eqn:Hpick.
  - destruct (pickReferenceColumn targetTable _ _) as [targetReference|] eqn:Hpick'.
    + destruct (buildJoinColumnName _ _ []) as [leftName names].
      destruct (buildJoinColumnName _ _ names) as [rightName names'].
      destruct (layoutPositions _ _) as [[sourcePosition joinPosition] targetPosition].
      simpl. discriminate.
    + intros _. exfalso.
      pose proof (pickReferenceColumn_none_inv _ _ _ Hpick' targetColumn) as Hin.
      apply find_some in Hcolumn. destruct Hcolumn as [Hcolumn _].
      exact (not_elem_of_empty _ (Hin Hcolumn)).
  - intros _.
    pose proof (pickReferenceColumn_none_inv _ _ _ Hpick) as Hall.
    assert (Hsrc : In sourceColumn (Table.columns table))
      by (apply find_some in Hsource; tauto).
    destruct (Column.isPrimaryKey sourceColumn) eqn:Hpk; simpl in Hall.
    + exfalso. exact (not_elem_of_empty _ (Hall sourceColumn Hsrc)).
    + apply (NoReferenceColumn _ _ _ table fk sourceColumn); auto.
      intros column Hcol. specialize (Hall column Hcol).
      now apply elem_of_singleton in Hall.
Qed.

End Refusal.

(** *** The orders and customers scenario *)

Lemma findIndex_split {A : Type} (p : A -> bool) (xs : list A) (i : nat) :
  Js.findIndex p xs = Some i ->
  exists before x after,
    xs = before ++ x :: after /\ length before = i /\ p x = true
    /\ (forall y, In y before -> p y = false).
Proof.
  revert i. induction xs as [|x xs IH]; intros i H; simpl in H; [discriminate|].
  destruct (p x) eqn:Hx.
  - inversion H; subst. exists [], x, xs. repeat split; auto. intros y [].
  - destruct (Js.findIndex p xs) as [k|]; simpl in H; [|discriminate].
    inversion H; subst. destruct (IH k eq_refl) as (b & y & a & -> & Hl & Hy & Hb).
    exists (x :: b), y, a. repeat split; simpl; auto.
    intros z [<-|Hz]; auto.
Qed.

Lemma find_app_first {A : Type} (p : A -> bool) (before after : list A) (x : A) :
  (forall y, In y before -> p y = false) -> p x = true ->
  find p (before ++ x :: after) = Some x.
Proof.
  intros Hb Hx. induction before as [|b bs IH]; simpl.
  - now rewrite Hx.
  - rewrite (Hb b (or_introl eq_refl)). apply IH. intros y Hy. apply Hb. now right.
Qed.

Lemma spliceIn_after {A : Type} (front back : list A) (y j : A) :
  Js.spliceIn (length front + 1) j (front ++ y :: back) = front ++ y :: j :: back.
Proof.
  unfold Js.spliceIn. rewrite Nat.add_1_r.
  replace (front ++ y :: back) with ((front ++ [y]) ++ back) by (now rewrite <- app_assoc).
  replace (S (length front)) with (length (front ++ [y]))
    by (rewrite length_app; simpl; lia).
  rewrite firstn_app, skipn_app, firstn_all, skipn_all, Nat.sub_diag. simpl.
  rewrite app_nil_r, <- app_assoc. reflexivity.
Qed.

Lemma spliceIn_imap {A : Type} (f : nat -> A -> A) (before after : list A) (x j : A) :
  Js.spliceIn (length before + 1) j (imap f (before ++ x :: after))
  = imap f before ++ f (length before) x :: j
      :: imap (fun n => f (length before + S n)) after.
Proof.
  rewrite imap_app, imap_cons.
  rewrite <- (length_imap f before) at 1.
  rewrite spliceIn_after. rewrite Nat.add_0_r. reflexivity.
Qed.

Lemma sort_pair {A : Type} (cmp : A -> A -> Z) (a b : A) :
  (0 < cmp a b)%Z -> Js.sort cmp [a; b] = [b; a].
Proof.
  intros H. unfold Js.sort. simpl.
  destruct (cmp a b <=? 0)%Z eqn:E; [apply Z.leb_le in E; lia|reflexivity].
Qed.

Lemma includes_In (x : string) (xs : list string) :
  includes x xs = true <-> In x xs.
Proof.
  unfold includes. rewrite existsb_exists. split.
  - intros (y & Hy & E). apply String.eqb_eq in E. now subst.
  - intros H. exists x. split; [assumption|apply String.eqb_refl].
Qed.

Lemma includes_not_In (x : string) (xs : list string) :
  includes x xs = false <-> ~ In x xs.
Proof.
  rewrite <- includes_In. destruct (includes x xs); split; congruence.
Qed.

Lemma ensureUniqueName_free (base : string) (existing : list string) :
  Js.trim base = base -> base <> EmptyString -> ~ In base existing ->
  ensureUniqueName base existing = base.
Proof.
  intros Ht Hne Hfree. unfold ensureUniqueName. rewrite Ht.
  apply includes_not_In in Hfree.
  destruct base as [|c rest]; [contradiction|].
  change (String.length (String c rest) =? 0) with false. cbv iota.
  now rewrite Hfree.
Qed.

Section ConversionScenario.
Context {N : Naming} {L : Locale}.

(** C5 (as the code has it).  Converting the foreign key of [orders] that
    leads from its non-primary-key column [customer_id] to the unique
    column [id] of [customers] succeeds as soon as [orders] has another
    column to be referenced and no table of its schema is already called
    [customers_orders]: [orders] loses the column and the foreign key, and a
    table [customers_orders] appears with exactly two columns, both primary
    keys, and exactly two foreign keys, many-to-one into [orders] and
    many-to-one into [customers].  The two facts about the helpers say that
    snake-casing leaves [customers_orders] alone and that the collation
    puts [customers] before [orders], whichever of the two it is asked about
    first. *)
Theorem convert_orders_customers :
  forall (st : ModelState.t) (tableId fkId : string) (ids : JoinIds.t)
         (ordersTable customersTable : Table.t) (fk : ForeignKey.t)
         (customerId idColumn other : Column.t),
    lookupTable (modelTables st) tableId = Some ordersTable ->
    Table.name ordersTable = "orders" ->
    lookupForeignKey ordersTable fkId = Some fk ->
    lookupColumn ordersTable (ForeignKey.fromColumnId fk) = Some customerId ->
    Column.name customerId = "customer_id" ->
    Column.isPrimaryKey customerId = false ->
    lookupTable (modelTables st) (ForeignKey.toTableId fk) = Some customersTable ->
    Table.name customersTable = "customers" ->
    lookupColumn customersTable (ForeignKey.toColumnId fk) = Some idColumn ->
    Column.name idColumn = "id" ->
    Column.isUnique idColumn = true ->
    In other (Table.columns ordersTable) ->
    Column.id other <> Column.id customerId ->
    (forall table, In table (modelTables st) ->
                   Table.schemaId table = Table.schemaId ordersTable ->
                   Table.name table <> "customers_orders") ->
    toSnakeCase "customers_orders" = "customers_orders" ->
    (localeCompare "customers" "orders" < 0)%Z ->
    (0 < localeCompare "orders" "customers")%Z ->
    exists st' orders' join left right leftFk rightFk,
      convertForeignKeyToManyToMany ids tableId fkId st = (Returned true, st')
      /\ lookupTable (modelTables st') tableId = Some orders'
      /\ Table.name orders' = "orders"
      /\ (forall column, In column (Table.columns orders') <->
                         In column (Table.columns ordersTable)
                         /\ Column.id column <> Column.id customerId)
      /\ (forall key, In key (Table.foreignKeys orders') ->
                      In key (Table.foreignKeys ordersTable)
                      /\ ForeignKey.id key <> fkId
                      /\ ForeignKey.fromColumnId key <> Column.id customerId)
      /\ In join (modelTables st')
      /\ Table.id join = JoinIds.joinTableId ids
      /\ Table.name join = "customers_orders"
      /\ Table.columns join = [left; right]
      /\ Column.isPrimaryKey left = true /\ Column.isPrimaryKey right = true
      /\ Table.foreignKeys join = [leftFk; rightFk]
      /\ ForeignKey.startCardinality leftFk = Some "many"
      /\ ForeignKey.endCardinality leftFk = Some "one"
      /\ ForeignKey.toTableId leftFk = Table.id ordersTable
      /\ ForeignKey.startCardinality rightFk = Some "many"
      /\ ForeignKey.endCardinality rightFk = Some "one"
      /\ ForeignKey.toTableId rightFk = Table.id customersTable.
Proof.
  intros st tableId fkId ids ordersTable customersTable fk customerId idColumn other
         Horders Hname Hfk Hsrc Hsrcname Hpk Hcust Hcname Hcol Hcolname Hunique
         Hother Hotherid Hfree Hsnake _ Hlocale.
  unfold convertForeignKeyToManyToMany, convertUpdater.
  fold (modelTables st).
  pose proof (findIndex_lookupTable (modelTables st) tableId) as Hi.
  destruct (Js.findIndex (fun table => String.eqb (Table.id table) tableId) (modelTables st))
    as [i|] eqn:Ei; [|congruence].
  destruct Hi as (t0 & Hnth & Hl). rewrite Horders in Hl. inversion Hl; subst t0; clear Hl.
  rewrite Hnth.
  unfold lookupForeignKey in Hfk. rewrite Hfk.
  unfold lookupColumn in Hsrc. rewrite Hsrc.
  pose proof (findIndex_lookupTable (modelTables st) (ForeignKey.toTableId fk)) as Hj.
  destruct (Js.findIndex (fun table => String.eqb (Table.id table) (ForeignKey.toTableId fk))
                         (modelTables st)) as [j|] eqn:Ej; [|congruence].
  destruct Hj as (t1 & Hnthj & Hl). rewrite Hcust in Hl. inversion Hl; subst t1; clear Hl.
  rewrite Hnthj.
  unfold lookupColumn in Hcol. rewrite Hcol.
  rewrite Hpk. simpl negb. cbv iota.
  destruct (pickReferenceColumn_some ordersTable (Some (Column.id customerId))
              {[ Column.id customerId ]} other Hother) as (sref & Hsref & _ & _).
  { intros Hin. apply elem_of_singleton in Hin. contradiction. }
  rewrite Hsref.
  assert (Hidin : In idColumn (Table.columns customersTable))
    by (apply find_some in Hcol; tauto).
  destruct (pickReferenceColumn_some customersTable (Some (Column.id idColumn)) ∅
              idColumn Hidin) as (tref & Htref & _ & _).
  { apply not_elem_of_empty. }
  rewrite Htref.
  rewrite Hname, Hcname, (sort_pair _ _ _ Hlocale).
  destruct (buildJoinColumnName _ _ []) as [leftName names].
  destruct (buildJoinColumnName _ _ names) as [rightName names'].
  destruct (layoutPositions _ _) as [[sourcePosition joinPosition] targetPosition].
  match goal with
  | |- context [ensureUniqueName ?b ?e] =>
      assert (Hjoin : ensureUniqueName b e = "customers_orders")
  end.
  { change (Js.join "_" ["customers"; "orders"]) with "customers_orders".
    rewrite Hsnake. change (orElse "customers_orders" ?x) with "customers_orders".
    change (orElse "customers_orders" ?x) with "customers_orders".
    apply ensureUniqueName_free; [reflexivity|discriminate|].
    intros Hin. apply in_map_iff in Hin. destruct Hin as (t & Ht & Hin).
    apply filter_In in Hin. destruct Hin as [Hin Hs]. apply String.eqb_eq in Hs.
    exact (Hfree t Hin Hs Ht). }
  rewrite Hjoin. clear Hjoin.
  destruct (findIndex_split _ _ _ Ei) as (before & x & after & Htables & Hlen & Hx & Hbefore).
  assert (x = ordersTable) as ->.
  { rewrite Htables in Hnth. rewrite nth_error_app2 in Hnth by lia.
    rewrite Hlen, Nat.sub_diag in Hnth. simpl in Hnth. congruence. }
  do 7 eexists. split; [reflexivity|].
  unfold modelTables in *. simpl ModelState.model. simpl DbModel.tables.
  rewrite Htables, <- Hlen.
  rewrite spliceIn_imap, Nat.eqb_refl.
  split.
  { unfold lookupTable. apply find_app_first; [|exact Hx].
    intros y Hy. apply list_elem_of_In, elem_of_lookup_imap in Hy.
    destruct Hy as (k & t & -> & Hk).
    apply list_elem_of_lookup_2, list_elem_of_In, Hbefore in Hk.
    destruct (k =? length before); [exact Hk|]. destruct (k =? j); exact Hk. }
  split; [exact Hname|].
  split.
  { intros column. simpl. rewrite filter_In. unfold idNot.
    rewrite negb_true_iff, String.eqb_neq. reflexivity. }
  split.
  { intros key Hkey. simpl in Hkey. apply filter_In in Hkey. destruct Hkey as [Hin Hkey].
    apply andb_true_iff in Hkey. destruct Hkey as [Hk1 Hk2]. unfold idNot in Hk1, Hk2.
    apply negb_true_iff, String.eqb_neq in Hk1. apply negb_true_iff, String.eqb_neq in Hk2.
    split; [assumption|]. split; [|assumption].
    apply find_some in Hfk. destruct Hfk as [_ Hfk]. apply String.eqb_eq in Hfk. congruence. }
  split.
  { apply in_or_app. right. apply in_cons. apply in_eq. }
  repeat split; reflexivity.
Qed.
End ConversionScenario.

Lemma convert_orders_customers_witness :
  exists st' orders' join left right leftFk rightFk,
    convertForeignKeyToManyToMany (N := specNaming) (L := codeUnitLocale)
      shopIds "t_orders" "fk_customer" (stateOf shopModel) = (Returned true, st')
    /\ lookupTable (modelTables st') "t_orders" = Some orders'
    /\ Table.name orders' = "orders"
    /\ (forall column, In column (Table.columns orders') <->
                       In column (Table.columns orders)
                       /\ Column.id column <> "c_ord_customer")
    /\ (forall key, In key (Table.foreignKeys orders') ->
                    In key (Table.foreignKeys orders)
                    /\ ForeignKey.id key <> "fk_customer"
                    /\ ForeignKey.fromColumnId key <> "c_ord_customer")
    /\ In join (modelTables st')
    /\ Table.id join = "t_join"
    /\ Table.name join = "customers_orders"
    /\ Table.columns join = [left; right]
    /\ Column.isPrimaryKey left = true /\ Column.isPrimaryKey right = true
    /\ Table.foreignKeys join = [leftFk; rightFk]
    /\ ForeignKey.startCardinality leftFk = Some "many"
    /\ ForeignKey.endCardinality leftFk = Some "one"
    /\ ForeignKey.toTableId leftFk = "t_orders"
    /\ ForeignKey.startCardinality rightFk = Some "many"
    /\ ForeignKey.endCardinality rightFk = Some "one"
    /\ ForeignKey.toTableId rightFk = "t_customers".
Proof.
  apply (convert_orders_customers (N := specNaming) (L := codeUnitLocale)
           (stateOf shopModel) "t_orders" "fk_customer" shopIds
           orders (customers "s_public")
           (plainForeignKey "fk_customer" "orders_customer_id_fk"
                            "c_ord_customer" "t_customers" "c_cust_id")
           (plainColumn "c_ord_customer" "customer_id" "uuid")
           (keyColumn "c_cust_id" "id") (keyColumn "c_ord_id" "id"));
    try reflexivity.
  - simpl. left. reflexivity.
  - discriminate.
  - unfold modelTables. simpl. intros table [<-|[<-|[]]] _; discriminate.
Defined.

(** The scenario run on the shop model: the tables after the conversion, by
    name, with their columns by name. *)
Example convert_shop_model_tables :
  map (fun table => (Table.name table, map Column.name (Table.columns table)))
      (modelTables
         (snd (convertForeignKeyToManyToMany (N := specNaming) (L := codeUnitLocale)
                 shopIds "t_orders" "fk_customer" (stateOf shopModel))))
  = [("customers", ["id"]); ("orders", ["id"]);
     ("customers_orders", ["fk_orders_id"; "fk_customers_id"])].
Proof. vm_compute. reflexivity. Qed.

(** With [orders] reduced to the column [customer_id], the foreign key is
    as the scenario wants it and the conversion is refused: nothing is left
    on [orders] for the join table to reference. *)
Lemma convert_bare_orders_refused :
  lookupTable (modelTables (stateOf bareShopModel)) "t_orders" = Some bareOrders
  /\ Table.name bareOrders = "orders"
  /\ (exists fk customerId customersTable idColumn,
        lookupForeignKey bareOrders "fk_customer" = Some fk
        /\ lookupColumn bareOrders (ForeignKey.fromColumnId fk) = Some customerId
        /\ Column.name customerId = "customer_id"
        /\ Column.isPrimaryKey customerId = false
        /\ lookupTable (modelTables (stateOf bareShopModel)) (ForeignKey.toTableId fk)
           = Some customersTable
        /\ Table.name customersTable = "customers"
        /\ lookupColumn customersTable (ForeignKey.toColumnId fk) = Some idColumn
        /\ Column.name idColumn = "id"
        /\ Column.isUnique idColumn = true)
  /\ convertForeignKeyToManyToMany (N := specNaming) (L := codeUnitLocale)
       shopIds "t_orders" "fk_customer" (stateOf bareShopModel)
     = (Returned false, stateOf bareShopModel).
Proof.
  split; [reflexivity|]. split; [reflexivity|]. split.
  - do 4 eexists. repeat split; reflexivity.
  - vm_compute. reflexivity.
Qed.

(** ** Name de-duplication *)

Lemma append_inj_r (s a b : string) : s +:+ a = s +:+ b -> a = b.
Proof.
  induction s as [|c s IH]; simpl; intros H; [assumption|].
  inversion H. auto.
Qed.

Lemma numbered_inj (normalized : string) (j k : nat) :
  numbered normalized j = numbered normalized k -> j = k.
Proof.
  unfold numbered, Js.showNat. intros H.
  apply append_inj_r in H. apply (append_inj_r "_") in H.
  exact (inj pretty j k H).
Qed.

(** The loop returns the first free candidate from [counter] on, or the
    candidate that follows the [rounds] taken ones it has met. *)
Lemma ensureUniqueName_loop_spec (rounds : nat) (normalized : string)
    (existing : list string) (counter : nat) :
  exists k,
    ensureUniqueName_loop rounds normalized existing counter = numbered normalized k
    /\ counter <= k <= counter + rounds
    /\ (forall j, counter <= j < k -> In (numbered normalized j) existing)
    /\ (k < counter + rounds -> ~ In (numbered normalized k) existing).
Proof.
  revert counter. induction rounds as [|rounds IH]; intros counter; simpl.
  - exists counter. repeat split; try lia.
  - destruct (includes (numbered normalized counter) existing) eqn:E.
    + destruct (IH (S counter)) as (k & Hk & Hrange & Htaken & Hfree).
      exists k. split; [assumption|]. split; [lia|]. split.
      * intros j Hj. destruct (Nat.eq_dec j counter) as [->|Hne].
        -- now apply includes_In.
        -- apply Htaken. lia.
      * intros Hlt. apply Hfree. lia.
    + exists counter. split; [reflexivity|]. split; [lia|]. split.
      * intros j Hj. lia.
      * intros _. now apply includes_not_In.
Qed.

(** The name returned is not among the existing ones: the bound on the
    rounds of the loop is never what ends it on a taken name. *)
Lemma ensureUniqueName_fresh (baseName : string) (existingNames : list string) :
  ~ In (ensureUniqueName baseName existingNames) existingNames.
Proof.
  unfold ensureUniqueName.
  set (normalized := if String.length (Js.trim baseName) =? 0 then "sem_nome"
                     else Js.trim baseName).
  destruct (includes normalized existingNames) eqn:E; simpl.
  2: now apply includes_not_In.
  destruct (ensureUniqueName_loop_spec (length existingNames) normalized existingNames 2)
    as (k & -> & Hrange & Htaken & Hfree).
  destruct (Nat.eq_dec k (2 + length existingNames)) as [->|Hne].
  2: apply Hfree; lia.
  intros Hin.
  set (candidates := map (numbered normalized) (seq 2 (S (length existingNames)))).
  assert (Hnodup : List.NoDup candidates).
  { apply Finite.Injective_map_NoDup; [|apply seq_NoDup].
    intros j k. apply numbered_inj. }
  assert (Hincl : incl candidates existingNames).
  { intros c Hc. apply in_map_iff in Hc. destruct Hc as (j & <- & Hj).
    apply in_seq in Hj.
    destruct (Nat.eq_dec j (2 + length existingNames)) as [->|Hj']; [assumption|].
    apply Htaken. lia. }
  pose proof (NoDup_incl_length Hnodup Hincl) as Hlen.
  unfold candidates in Hlen. rewrite length_map, length_seq in Hlen. lia.
Qed.

(** ** Index statements *)

Lemma addName_fresh (name : string) (names : list string) :
  ~ In name names -> addName name names = names ++ [name].
Proof.
  intros H. unfold addName. apply includes_not_In in H. now rewrite H.
Qed.

Section Indexes.
Context {N : Naming}.

Lemma indexNames_columns (table : Table.t) (used : list string) (columns : list Column.t) :
  map snd (indexNames table used columns) = columns.
Proof.
  revert used. induction columns as [|c cs IH]; intros used; simpl; [reflexivity|].
  now rewrite IH.
Qed.

Lemma indexNames_app (table : Table.t) (used : list string)
    (front back : list Column.t) :
  answersFresh ->
  indexNames table used (front ++ back)
  = indexNames table used front
      ++ indexNames table (used ++ map fst (indexNames table used front)) back.
Proof.
  intros Hfresh. revert used. induction front as [|c cs IH]; intros used; simpl.
  - now rewrite app_nil_r.
  - rewrite IH. rewrite addName_fresh by apply Hfresh.
    rewrite <- app_assoc. reflexivity.
Qed.

Lemma indexNames_distinct (table : Table.t) (used : list string) (columns : list Column.t) :
  answersFresh ->
  List.NoDup (map fst (indexNames table used columns))
  /\ forall name, In name (map fst (indexNames table used columns)) -> ~ In name used.
Proof.
  intros Hfresh. revert used. induction columns as [|c cs IH]; intros used; simpl.
  - split; [constructor|]. intros name [].
  - rewrite addName_fresh by apply Hfresh.
    destruct (IH (used ++ [ensureUniqueConstraintName (indexBase table c) used]))
      as [Hnodup Hout].
    split.
    + constructor; [|assumption]. intros Hin. apply (Hout _ Hin).
      apply in_or_app. right. now left.
    + intros name [<-|Hin]; [apply Hfresh|].
      intros Hused. apply (Hout _ Hin). apply in_or_app. now left.
Qed.

Lemma startsWith_idx (rest : string) : Js.startsWith "idx_" ("idx_" +:+ rest) = true.
Proof.
  unfold Js.startsWith. simpl.
  repeat (destruct (ascii_dec _ _) as [_|Hne]; [|congruence]).
  now destruct rest.
Qed.

Lemma indexBase_cases (table : Table.t) (column : Column.t) :
  let snake := toSnakeCase (Table.name table +:+ "_" +:+ Column.name column +:+ "_idx") in
  indexBase table column
  = if String.eqb snake EmptyString then "idx_" +:+ Js.slice0 8 (Column.id column)
    else if Js.startsWith "idx_" snake then snake
    else "idx_" +:+ snake.
Proof.
  unfold indexBase, orElse. simpl.
  destruct (String.eqb _ EmptyString); [|reflexivity].
  now rewrite startsWith_idx.
Qed.

(** C7 (as the code has it).  For every column of a table that is indexed
    and neither a primary key nor unique, [buildIndexesForTable] emits one
    [CREATE INDEX] statement on that column.  Its name is the snake-cased
    text [<table>_<column>_idx], prefixed by [idx_] unless it already starts
    so (and [idx_] followed by eight characters of the column identifier
    when snake-casing leaves nothing), made unique against the names given
    to the columns before it; the names of one table are pairwise distinct.
    This supposes that [ensureUniqueConstraintName] answers with a name
    outside the list it is given. *)
Theorem index_statement_emitted :
  forall (table : Table.t) (schemaName : string) (column : Column.t),
    In column (Table.columns table) ->
    Column.isIndexed column = true ->
    Column.isPrimaryKey column = false ->
    Column.isUnique column = false ->
    answersFresh ->
    exists front back,
      indexedColumns table = front ++ column :: back
      /\ let usedNames := map fst (indexNames table [] front) in
         let snake :=
           toSnakeCase (Table.name table +:+ "_" +:+ Column.name column +:+ "_idx") in
         let base :=
           if String.eqb snake EmptyString then "idx_" +:+ Js.slice0 8 (Column.id column)
           else if Js.startsWith "idx_" snake then snake
           else "idx_" +:+ snake in
         let indexName := ensureUniqueConstraintName base usedNames in
         In ("CREATE INDEX " +:+ quoteIdent indexName +:+ " ON "
               +:+ qualify schemaName (Table.name table)
               +:+ " (" +:+ quoteIdent (Column.name column) +:+ ");")
            (buildIndexesForTable table schemaName)
         /\ Js.startsWith "idx_" base = true
         /\ ~ In indexName usedNames
         /\ List.NoDup (map fst (indexNames table [] (indexedColumns table))).
Proof.
  intros table schemaName column Hin Hindexed Hpk Hunique Hfresh.
  assert (Hcol : In column (indexedColumns table)).
  { unfold indexedColumns. apply filter_In. split; [assumption|].
    now rewrite Hindexed, Hpk, Hunique. }
  destruct (in_split _ _ Hcol) as (front & back & Hsplit).
  exists front, back. split; [assumption|]. cbv zeta.
  rewrite <- (indexBase_cases table column).
  split; [|split; [|split]].
  - unfold buildIndexesForTable. rewrite Hsplit, indexNames_app by assumption.
    rewrite map_app. apply in_or_app. right. simpl. left. reflexivity.
  - rewrite indexBase_cases. cbv zeta.
    set (snake := toSnakeCase _).
    destruct (String.eqb snake EmptyString); [apply startsWith_idx|].
    destruct (Js.startsWith "idx_" snake) eqn:E; [assumption|apply startsWith_idx].
  - apply Hfresh.
  - apply indexNames_distinct. assumption.
Qed.

End Indexes.

Lemma index_statement_emitted_witness :
  In (Column.mk "c_user_email" "email" "text" false None false false true None)
     (Table.columns users)
  /\ @answersFresh specNaming
  /\ In ("CREATE INDEX " +:+ quoteIdent "idx_users_email_idx" +:+ " ON "
           +:+ qualify "public" "users" +:+ " (" +:+ quoteIdent "email" +:+ ");")
        (buildIndexesForTable (N := specNaming) users "public").
Proof.
  assert (Hfresh : @answersFresh specNaming)
    by (intros base used; apply ensureUniqueName_fresh).
  split; [simpl; right; left; reflexivity|]. split; [exact Hfresh|].
  destruct (index_statement_emitted (N := specNaming) users "public"
              (Column.mk "c_user_email" "email" "text" false None false false true None))
    as (front & back & Hsplit & Hin & _); try reflexivity.
  - simpl. right. left. reflexivity.
  - exact Hfresh.
  - destruct front as [|c front]; simpl in Hsplit.
    + exact Hin.
    + inversion Hsplit as [[Hc Hrest]]. destruct front; discriminate.
Defined.

(** For [users.email] the statement emitted names the index
    [idx_users_email_idx]; none names it [idx_users_email]. *)
Lemma users_email_index_name :
  Column.isIndexed (Column.mk "c_user_email" "email" "text" false None false false true None)
  = true
  /\ buildIndexesForTable (N := specNaming) users "public"
     = ["CREATE INDEX " +:+ quoteIdent "idx_users_email_idx" +:+ " ON "
          +:+ qualify "public" "users" +:+ " (" +:+ quoteIdent "email" +:+ ");"]
  /\ ~ In ("CREATE INDEX " +:+ quoteIdent "idx_users_email" +:+ " ON "
            +:+ qualify "public" "users" +:+ " (" +:+ quoteIdent "email" +:+ ");")
          (buildIndexesForTable (N := specNaming) users "public").
Proof.
  split; [reflexivity|]. split; [vm_compute; reflexivity|].
  vm_compute. intros [H|[]]. discriminate.
Qed.

(** ** Topological order: the loop ends *)

Lemma pendingWork_visit (dependentsMap : gmap string (list string))
    (visited : gset string) (currentId : string) :
  currentId ∉ visited ->
  pendingWork dependentsMap (visited ∪ {[ currentId ]})
    + match dependentsMap !! currentId with
      | Some dependents => S (length dependents)
      | None => 0
      end
  <= pendingWork dependentsMap visited.
Proof.
  intros Hnew. unfold pendingWork.
  assert (Hmono : forall entries : list (string * list string),
            sum_list_with
              (fun entry => if bool_decide (fst entry ∈ visited ∪ {[ currentId ]})
                            then 0 else S (length (snd entry))) entries
            <= sum_list_with
                 (fun entry => if bool_decide (fst entry ∈ visited)
                               then 0 else S (length (snd entry))) entries).
  { intros entries. induction entries as [|e es IH]; simpl; [lia|].
    destruct (bool_decide (fst e ∈ visited)) eqn:E.
    - apply bool_decide_eq_true in E.
      rewrite bool_decide_eq_true_2 by (apply elem_of_union; now left). lia.
    - destruct (bool_decide (fst e ∈ visited ∪ {[ currentId ]})); lia. }
  destruct (dependentsMap !! currentId) as [dependents|] eqn:Hlookup.
  - rewrite <- (map_to_list_delete dependentsMap currentId dependents Hlookup).
    simpl. rewrite bool_decide_eq_true_2
      by (apply elem_of_union; right; now apply elem_of_singleton).
    rewrite bool_decide_eq_false_2 by assumption.
    specialize (Hmono (map_to_list (delete currentId dependentsMap))). lia.
  - specialize (Hmono (map_to_list dependentsMap)). lia.
Qed.

Section Termination.
Context {L : Locale}.
Variables (tableById : gmap string Table.t) (dependentsMap : gmap string (list string))
          (compare : string -> string -> Z).

Lemma releaseDependent_queue (currentId dependentId : string)
    (acc : gmap string (gset string) * list string) :
  length (snd (releaseDependent compare currentId acc dependentId)) <= S (length (snd acc)).
Proof.
  unfold releaseDependent.
  destruct (fst acc !! dependentId) as [dependencies|]; [|lia].
  destruct (size (dependencies ∖ {[ currentId ]}) =? 0); simpl; [|lia].
  destruct (Js.findIndex _ (snd acc)) as [i|]; simpl.
  - unfold Js.spliceIn. rewrite length_app. simpl.
    pose proof (firstn_skipn i (snd acc)) as H.
    apply (f_equal (@length string)) in H. rewrite length_app in H. lia.
  - rewrite length_app. simpl. lia.
Qed.

Lemma release_all_queue (currentId : string) (dependents : list string)
    (acc : gmap string (gset string) * list string) :
  length (snd (fold_left (releaseDependent compare currentId) dependents acc))
  <= length dependents + length (snd acc).
Proof.
  revert acc. induction dependents as [|d ds IH]; intros acc; simpl; [lia|].
  specialize (IH (releaseDependent compare currentId acc d)).
  pose proof (releaseDependent_queue currentId d acc). lia.
Qed.

Lemma sortStep_progress (currentId : string) (rest : list string) (st : SortState.t) :
  SortState.readyQueue st = currentId :: rest ->
  remainingWork dependentsMap (sortStep tableById dependentsMap compare currentId rest st)
  < remainingWork dependentsMap st.
Proof.
  intros Hqueue. unfold remainingWork, sortStep. rewrite Hqueue. simpl.
  destruct (String.eqb currentId EmptyString || bool_decide (currentId ∈ SortState.visited st))
    eqn:Hskip; simpl; [lia|].
  apply orb_false_iff in Hskip. destruct Hskip as [_ Hnew].
  apply bool_decide_eq_false in Hnew.
  pose proof (pendingWork_visit dependentsMap (SortState.visited st) currentId Hnew) as Hwork.
  destruct (tableById !! currentId) as [currentTable|]; simpl; [|lia].
  destruct (dependentsMap !! currentId) as [dependents|]; simpl; [|lia].
  pose proof (release_all_queue currentId dependents (SortState.dependencyMap st, rest)) as Hq.
  simpl in Hq. lia.
Qed.

Lemma sortLoop_terminates (rounds : nat) (st : SortState.t) :
  remainingWork dependentsMap st <= rounds ->
  exists final,
    sortLoop rounds tableById dependentsMap compare st = Some final
    /\ SortState.readyQueue final = [].
Proof.
  revert st. induction rounds as [|rounds IH]; intros st Hwork; simpl.
  - destruct (SortState.readyQueue st) as [|currentId rest] eqn:Hqueue.
    + exists st. split; [reflexivity|assumption].
    + unfold remainingWork in Hwork. rewrite Hqueue in Hwork. simpl in Hwork. lia.
  - destruct (SortState.readyQueue st) as [|currentId rest] eqn:Hqueue.
    + exists st. split; [reflexivity|assumption].
    + apply IH. pose proof (sortStep_progress currentId rest st Hqueue). lia.
Qed.

Lemma sortLoop_more_rounds (rounds rounds' : nat) (st final : SortState.t) :
  sortLoop rounds tableById dependentsMap compare st = Some final ->
  rounds <= rounds' ->
  sortLoop rounds' tableById dependentsMap compare st = Some final.
Proof.
  revert rounds' st. induction rounds as [|rounds IH]; intros rounds' st Hrun Hle; simpl in Hrun.
  - destruct (SortState.readyQueue st) eqn:Hqueue; [|discriminate].
    destruct rounds'; simpl; now rewrite Hqueue.
  - destruct (SortState.readyQueue st) as [|currentId rest] eqn:Hqueue.
    + destruct rounds'; simpl; now rewrite Hqueue.
    + destruct rounds' as [|rounds']; [lia|]. simpl. rewrite Hqueue.
      apply IH; [assumption|lia].
Qed.

End Termination.

Section SortTotal.
Context {L : Locale}.

(** [topologicallySortTables] returns a list, whatever the tables. *)
Lemma topologicallySortTables_total (tables : list Table.t)
    (getSchemaName : string -> string) (tableById : gmap string Table.t) :
  exists ordered, topologicallySortTables tables getSchemaName tableById = Some ordered.
Proof.
  unfold topologicallySortTables, topologicallySortTables_within, sortRounds.
  set (graph := buildGraph tables tableById).
  set (compare := compareBySchemaAndName tableById getSchemaName).
  set (start := initialSortState tables (fst graph) compare).
  destruct (sortLoop_terminates tableById (snd graph) compare
              (length (SortState.readyQueue start) + pendingWork (snd graph) ∅) start)
    as (final & Hrun & _).
  { unfold remainingWork. simpl. lia. }
  rewrite Hrun. simpl. eexists. reflexivity.
Qed.

(** More rounds than [sortRounds] change nothing. *)
Lemma topologicallySortTables_enough_rounds (rounds : nat) (tables : list Table.t)
    (getSchemaName : string -> string) (tableById : gmap string Table.t) :
  sortRounds tables getSchemaName tableById <= rounds ->
  topologicallySortTables_within rounds tables getSchemaName tableById
  = topologicallySortTables tables getSchemaName tableById.
Proof.
  intros Hle. unfold topologicallySortTables, topologicallySortTables_within.
  set (graph := buildGraph tables tableById).
  set (compare := compareBySchemaAndName tableById getSchemaName).
  set (start := initialSortState tables (fst graph) compare).
  destruct (sortLoop_terminates tableById (snd graph) compare
              (sortRounds tables getSchemaName tableById) start)
    as (final & Hrun & _).
  { apply Nat.le_refl. }
  rewrite Hrun.
  now rewrite (sortLoop_more_rounds tableById (snd graph) compare _ rounds start final Hrun Hle).
Qed.

End SortTotal.

(** ** Topological order: the graph *)

Lemma addName_In (name x : string) (names : list string) :
  In x (addName name names) <-> In x names \/ x = name.
Proof.
  unfold addName. destruct (includes name names) eqn:E.
  - apply includes_In in E. split; [auto|]. intros [H| ->]; assumption.
  - rewrite in_app_iff. simpl. intuition.
Qed.

Section Graph.
Variable tableById : gmap string Table.t.

Lemma addDependency_edges (tableId : string) (fk : ForeignKey.t)
    (acc : gset string * gmap string (list string)) :
  (forall b, b ∈ fst (addDependency tableById tableId acc fk)
             <-> b ∈ fst acc \/ accepted tableById tableId fk b)
  /\ (forall b d, In d (dependentsOf (snd (addDependency tableById tableId acc fk)) b)
                  <-> In d (dependentsOf (snd acc) b)
                      \/ (d = tableId /\ accepted tableById tableId fk b)).
Proof.
  unfold addDependency, accepted, dependentsOf.
  destruct (String.eqb (ForeignKey.toTableId fk) EmptyString) eqn:E1; simpl.
  { apply String.eqb_eq in E1. split; intros; split; auto; intros [H|H]; auto;
      exfalso; destruct H as (? & ?); intuition congruence. }
  destruct (String.eqb (ForeignKey.toTableId fk) tableId) eqn:E2; simpl.
  { apply String.eqb_eq in E2. split; intros; split; auto; intros [H|H]; auto;
      exfalso; destruct H as (? & ?); intuition congruence. }
  apply String.eqb_neq in E1. apply String.eqb_neq in E2.
  destruct (tableById !! ForeignKey.toTableId fk) as [target|] eqn:E3; simpl.
  - split.
    + intros b. rewrite elem_of_union, elem_of_singleton. split.
      * intros [H| ->]; [now left|]. right. rewrite E3. repeat split; eauto.
      * intros [H|(<- & _)]; auto.
    + intros b d. destruct (decide (ForeignKey.toTableId fk = b)) as [<-|Hne].
      * rewrite lookup_insert_eq. simpl. rewrite addName_In. split.
        -- intros [H| ->]; [now left|]. right. rewrite E3. repeat split; eauto.
        -- intros [H|(-> & _)]; auto.
      * rewrite lookup_insert_ne by assumption. split; [auto|].
        intros [H|(_ & Heq & _)]; [assumption|contradiction].
  - split; intros; split; auto; intros [H|H]; auto; exfalso.
    + destruct H as (<- & _ & _ & [x Hx]). congruence.
    + destruct H as (_ & <- & _ & _ & [x Hx]). congruence.
Qed.

Lemma addDependencies_edges (tableId : string) (fks : list ForeignKey.t)
    (acc : gset string * gmap string (list string)) :
  let result := fold_left (addDependency tableById tableId) fks acc in
  (forall b, b ∈ fst result
             <-> b ∈ fst acc \/ exists fk, In fk fks /\ accepted tableById tableId fk b)
  /\ (forall b d, In d (dependentsOf (snd result) b)
                  <-> In d (dependentsOf (snd acc) b)
                      \/ (d = tableId
                          /\ exists fk, In fk fks /\ accepted tableById tableId fk b)).
Proof.
  revert acc. induction fks as [|fk fks IH]; intros acc; simpl.
  - split; intros; split; auto; intros [H|H]; auto; destruct H as (? & ?);
      try destruct H0 as (? & [] & _); try destruct H as ([] & _).
  - destruct (IH (addDependency tableById tableId acc fk)) as [IH1 IH2].
    destruct (addDependency_edges tableId fk acc) as [S1 S2].
    split.
    + intros b. rewrite IH1, S1. split.
      * intros [[H|H]|(k & Hk & Hacc)]; auto.
        -- right. exists fk. auto.
        -- right. exists k. auto.
      * intros [H|(k & [<-|Hk] & Hacc)]; auto. right. exists k. auto.
    + intros b d. rewrite IH2, S2. split.
      * intros [[H|(-> & H)]|(-> & k & Hk & Hacc)]; auto.
        -- right. split; [reflexivity|]. exists fk. auto.
        -- right. split; [reflexivity|]. exists k. auto.
      * intros [H|(-> & k & [<-|Hk] & Hacc)]; auto. right. split; [reflexivity|]. exists k. auto.
Qed.

Lemma addTableDependencies_edges (tables : list Table.t)
    (acc : gmap string (gset string) * gmap string (list string)) :
  let result := fold_left (addTableDependencies tableById) tables acc in
  (forall b d, In d (dependentsOf (snd result) b)
               <-> In d (dependentsOf (snd acc) b)
                   \/ exists table, In table tables /\ Table.id table = d
                                    /\ requires tableById table b)
  /\ (forall k, (forall table, In table tables -> Table.id table <> k) ->
                fst result !! k = fst acc !! k)
  /\ (List.NoDup (map Table.id tables) ->
      forall table, In table tables ->
        exists dependencies,
          fst result !! Table.id table = Some dependencies
          /\ forall b, b ∈ dependencies <-> requires tableById table b).
Proof.
  revert acc. induction tables as [|t ts IH]; intros acc; simpl.
  - split; [|split].
    + intros b d. split; auto. intros [H|(? & [] & _)]. assumption.
    + reflexivity.
    + intros _ table [].
  - set (step := addTableDependencies tableById acc t).
    destruct (IH step) as (IH1 & IH2 & IH3).
    destruct (addDependencies_edges (Table.id t) (Table.foreignKeys t) (∅, snd acc))
      as [S1 S2]. simpl in S1, S2.
    split; [|split].
    + intros b d. rewrite IH1. unfold step, addTableDependencies. simpl. rewrite S2.
      unfold requires. split.
      * intros [[H|(-> & Hfk)]|(table & Hin & Hid & Hreq)]; auto.
        -- right. exists t. split; [now left|]. split; [reflexivity|exact Hfk].
        -- right. exists table. split; [now right|]. split; assumption.
      * intros [H|(table & [<-|Hin] & Hid & Hreq)].
        -- left. now left.
        -- left. right. split; [now symmetry|exact Hreq].
        -- right. exists table. split; [assumption|]. split; assumption.
    + intros k Hk. rewrite IH2 by (intros; apply Hk; now right).
      unfold step, addTableDependencies. simpl.
      apply lookup_insert_ne. apply Hk. now left.
    + intros Hnodup table [<-|Hin].
      * inversion Hnodup as [|? ? Hhead Htail]; subst.
        rewrite IH2.
        -- unfold step, addTableDependencies. simpl. rewrite lookup_insert_eq.
           eexists. split; [reflexivity|]. intros b. rewrite S1. unfold requires.
           split; [intros [H|H]; [now apply not_elem_of_empty in H|assumption]|auto].
        -- intros table Hin Heq. apply Hhead. rewrite <- Heq. now apply in_map.
      * inversion Hnodup; subst. now apply IH3.
Qed.

End Graph.

(** ** Finite graphs without cycles *)

Section Paths.
Variable R : string -> string -> Prop.

Lemma path_reaches (a b : string) (front back : list string) :
  path R a (front ++ b :: back) -> clos_trans string R a b.
Proof.
  revert a. induction front as [|c front IH]; intros a; simpl.
  - intros [H _]. now apply t_step.
  - intros [H Hrest]. eapply t_trans; [apply t_step; exact H|]. now apply IH.
Qed.

Lemma path_suffix (a b : string) (front back : list string) :
  path R a (front ++ b :: back) -> path R b back.
Proof.
  revert a. induction front as [|c front IH]; intros a; simpl.
  - tauto.
  - intros [_ Hrest]. now apply (IH c).
Qed.

Lemma path_repeats (a : string) (nodes : list string) :
  path R a nodes -> ~ List.NoDup (a :: nodes) -> exists x, clos_trans string R x x.
Proof.
  revert a. induction nodes as [|b rest IH]; intros a Hpath Hdup.
  - exfalso. apply Hdup. constructor; [intros []|constructor].
  - destruct (in_dec string_dec a (b :: rest)) as [Hin|Hout].
    + apply in_split in Hin. destruct Hin as (front & back & Heq).
      exists a. rewrite Heq in Hpath. eapply path_reaches. exact Hpath.
    + simpl in Hpath. destruct Hpath as [_ Hrest].
      apply (IH b Hrest). intros Hnodup. apply Hdup. now constructor.
Qed.

(** Inside a set of nodes each of which has a successor in the set, paths
    of any length exist. *)
Lemma path_of_length (inside : string -> Prop) (n : nat) :
  (forall a, inside a -> exists b, R a b /\ inside b) ->
  forall a, inside a ->
    exists nodes, length nodes = n /\ path R a nodes /\ Forall inside nodes.
Proof.
  intros Hnext. induction n as [|n IH]; intros a Ha.
  - exists []. repeat split; constructor.
  - destruct (Hnext a Ha) as (b & Hab & Hb).
    destruct (IH b Hb) as (nodes & Hlen & Hpath & Hall).
    exists (b :: nodes). simpl. repeat split; auto.
Qed.

(** A non-empty set of nodes, all among finitely many, in which every node
    has a successor, holds a cycle. *)
Lemma closed_set_has_cycle (universe : list string) (inside : string -> Prop) :
  (forall a, inside a -> In a universe) ->
  (forall a, inside a -> exists b, R a b /\ inside b) ->
  (exists a, inside a) ->
  exists x, clos_trans string R x x.
Proof.
  intros Hfinite Hnext (a & Ha).
  destruct (path_of_length inside (length universe) Hnext a Ha)
    as (nodes & Hlen & Hpath & Hall).
  apply (path_repeats a nodes Hpath). intros Hnodup.
  assert (Hincl : incl (a :: nodes) universe).
  { intros x [<-|Hx]; [now apply Hfinite|].
    apply Hfinite. rewrite List.Forall_forall in Hall. now apply Hall. }
  pose proof (NoDup_incl_length Hnodup Hincl) as Hle. simpl in Hle. lia.
Qed.

End Paths.

(** A ranking that decreases along the edges rules cycles out. *)
Lemma ranked_acyclic (tables : list Table.t) (rank : string -> nat) :
  (forall a b, dependsOn tables a b -> rank b < rank a) -> acyclic tables.
Proof.
  intros Hrank.
  assert (Hclos : forall a b, clos_trans string (dependsOn tables) a b -> rank b < rank a).
  { intros a b H. induction H as [a b H|a b c _ IH1 _ IH2]; [now apply Hrank|lia]. }
  intros a Hcycle. specialize (Hclos a a Hcycle). lia.
Qed.

(** ** Topological order: sorting and queue insertion keep the elements *)

Lemma insertSorted_In {A : Type} (cmp : A -> A -> Z) (x y : A) (xs : list A) :
  In y (Js.insertSorted cmp x xs) <-> y = x \/ In y xs.
Proof.
  induction xs as [|z zs IH]; simpl.
  - intuition.
  - destruct (cmp x z <=? 0)%Z; simpl; [intuition|]. rewrite IH. intuition.
Qed.

Lemma sort_In {A : Type} (cmp : A -> A -> Z) (y : A) (xs : list A) :
  In y (Js.sort cmp xs) <-> In y xs.
Proof.
  unfold Js.sort. induction xs as [|x xs IH]; simpl; [reflexivity|].
  rewrite insertSorted_In, IH. intuition.
Qed.

Lemma spliceIn_In {A : Type} (i : nat) (x y : A) (xs : list A) :
  In y (Js.spliceIn i x xs) <-> y = x \/ In y xs.
Proof.
  unfold Js.spliceIn. rewrite in_app_iff. simpl.
  assert (H : In y xs <-> In y (firstn i xs) \/ In y (skipn i xs))
    by (rewrite <- in_app_iff, firstn_skipn; reflexivity).
  rewrite H. intuition.
Qed.

Lemma unique_by_id (tables : list Table.t) (t1 t2 : Table.t) :
  List.NoDup (map Table.id tables) -> In t1 tables -> In t2 tables ->
  Table.id t1 = Table.id t2 -> t1 = t2.
Proof.
  induction tables as [|t ts IH]; intros Hnodup H1 H2 Heq; [destruct H1|].
  inversion Hnodup as [|? ? Hhead Htail]; subst.
  destruct H1 as [<-|H1], H2 as [<-|H2]; auto.
  - exfalso. apply Hhead. rewrite Heq. now apply in_map.
  - exfalso. apply Hhead. rewrite <- Heq. now apply in_map.
Qed.

(** ** Topological order: one round *)

Lemma difference_twice (X Y : gset string) : (X ∖ Y) ∖ Y = X ∖ Y.
Proof. apply set_eq. intros x. rewrite !elem_of_difference. tauto. Qed.

Section Release.
Variables (compare : string -> string -> Z) (currentId : string).

Lemma releaseDependent_spec (dependentId : string)
    (dependencyMap : gmap string (gset string)) (queue : list string) :
  let result := releaseDependent compare currentId (dependencyMap, queue) dependentId in
  match dependencyMap !! dependentId with
  | None => result = (dependencyMap, queue)
  | Some dependencies =>
      fst result = <[ dependentId := dependencies ∖ {[ currentId ]} ]> dependencyMap
      /\ forall x, In x (snd result)
                   <-> In x queue
                       \/ (x = dependentId /\ dependencies ∖ {[ currentId ]} = ∅)
  end.
Proof.
  unfold releaseDependent. simpl.
  destruct (dependencyMap !! dependentId) as [dependencies|]; [|reflexivity].
  destruct (size (dependencies ∖ {[ currentId ]}) =? 0) eqn:E.
  - apply Nat.eqb_eq, size_empty_iff in E. apply leibniz_equiv in E.
    destruct (Js.findIndex _ queue) as [i|]; simpl; (split; [reflexivity|]); intros x.
    + rewrite spliceIn_In. intuition.
    + rewrite in_app_iff. simpl. intuition.
  - simpl. split; [reflexivity|]. intros x. split; [auto|].
    intros [H|[_ H]]; [assumption|].
    rewrite H in E. rewrite size_empty in E. discriminate.
Qed.

Lemma releaseAll_spec (dependents : list string)
    (dependencyMap : gmap string (gset string)) (queue : list string) :
  let result :=
    fold_left (releaseDependent compare currentId) dependents (dependencyMap, queue) in
  (forall k dependencies,
      dependencyMap !! k = Some dependencies ->
      fst result !! k
      = Some (if in_dec string_dec k dependents
              then dependencies ∖ {[ currentId ]} else dependencies))
  /\ (forall x, In x (snd result)
                <-> In x queue
                    \/ (In x dependents
                        /\ exists dependencies,
                             dependencyMap !! x = Some dependencies
                             /\ dependencies ∖ {[ currentId ]} = ∅)).
Proof.
  revert dependencyMap queue.
  induction dependents as [|d ds IH]; intros dependencyMap queue; simpl.
  - split; [intros k dependencies Hk; exact Hk|].
    intros x. split; [auto|]. intros [H|([] & _)]. assumption.
  - pose proof (releaseDependent_spec d dependencyMap queue) as Hstep. simpl in Hstep.
    destruct (releaseDependent compare currentId (dependencyMap, queue) d)
      as [stepMap stepQueue] eqn:Estep.
    destruct (IH stepMap stepQueue) as [IH1 IH2]. simpl in Hstep.
    destruct (dependencyMap !! d) as [own|] eqn:Hd.
    + destruct Hstep as [-> Hqueue]. split.
      * intros k dependencies Hk.
        destruct (string_dec d k) as [->|Hne].
        -- rewrite Hd in Hk. inversion Hk; subst own.
           rewrite (IH1 k (dependencies ∖ {[ currentId ]})) by apply lookup_insert_eq.
           f_equal. destruct (in_dec string_dec k ds); [apply difference_twice|reflexivity].
        -- rewrite (IH1 k dependencies) by (rewrite lookup_insert_ne; assumption).
           f_equal. destruct (in_dec string_dec k ds) as [Hin|Hout];
             destruct (in_dec string_dec k ds); try contradiction; reflexivity.
      * intros x. rewrite IH2, Hqueue. split.
        -- intros [[H|(-> & Hempty)]|(Hin & dependencies & Hx & Hempty)].
           ++ now left.
           ++ right. split; [now left|]. exists own. split; assumption.
           ++ right. split; [now right|].
              destruct (string_dec d x) as [->|Hne].
              ** rewrite lookup_insert_eq in Hx. inversion Hx; subst dependencies.
                 exists own. split; [assumption|]. now rewrite difference_twice in Hempty.
              ** rewrite lookup_insert_ne in Hx by assumption.
                 exists dependencies. split; assumption.
        -- intros [H|([<-|Hin] & dependencies & Hx & Hempty)].
           ++ left. now left.
           ++ left. right. split; [reflexivity|]. congruence.
           ++ right. split; [assumption|].
              destruct (string_dec d x) as [->|Hne].
              ** rewrite lookup_insert_eq. rewrite Hd in Hx. inversion Hx; subst own.
                 exists (dependencies ∖ {[ currentId ]}). split; [reflexivity|].
                 now rewrite difference_twice.
              ** rewrite lookup_insert_ne by assumption.
                 exists dependencies. split; assumption.
    + inversion Hstep; subst stepMap stepQueue. split.
      * intros k dependencies Hk. rewrite (IH1 k dependencies Hk). f_equal.
        destruct (string_dec d k) as [->|Hne]; [congruence|].
        destruct (in_dec string_dec k ds); reflexivity.
      * intros x. rewrite IH2. split.
        -- intros [H|(Hin & Hrest)]; [now left|]. right. split; [now right|assumption].
        -- intros [H|([<-|Hin] & dependencies & Hx & Hempty)]; [now left|congruence|].
           right. split; [assumption|]. exists dependencies. split; assumption.
Qed.

End Release.

Section Rounds.
Context {L : Locale}.
Variables (tables : list Table.t) (tableById : gmap string Table.t)
          (dependentsMap : gmap string (list string))
          (compare : string -> string -> Z).
Hypothesis distinct_ids : List.NoDup (map Table.id tables).
Hypothesis named_ids : forall table, In table tables -> Table.id table <> EmptyString.
Hypothesis by_id : forall table, In table tables -> tableById !! Table.id table = Some table.
Hypothesis dependents_recorded :
  forall b d, In d (dependentsOf dependentsMap b)
              <-> exists table, In table tables /\ Table.id table = d
                                /\ requires tableById table b.

Lemma sortStep_invariant (currentId : string) (rest : list string) (st : SortState.t) :
  SortState.readyQueue st = currentId :: rest ->
  SortInvariant tables tableById st ->
  SortInvariant tables tableById
    (sortStep tableById dependentsMap compare currentId rest st).
Proof.
  intros Hqueue [I1 I2 I3 I4 I5 I6 I7].
  rewrite Hqueue in I5, I6.
  destruct (I5 currentId (or_introl eq_refl)) as (current & Hcurrent & Hid & Hready).
  unfold sortStep.
  assert (Hnamed : String.eqb currentId EmptyString = false).
  { apply String.eqb_neq. rewrite <- Hid. now apply named_ids. }
  rewrite Hnamed. simpl.
  destruct (bool_decide (currentId ∈ SortState.visited st)) eqn:Hseen.
  { apply bool_decide_eq_true in Hseen.
    constructor; simpl; auto.
    - intros q Hq. apply I5. now right.
    - intros table Hin Hall. destruct (I6 table Hin Hall) as [H|[H|H]]; auto.
      left. now rewrite <- H. }
  apply bool_decide_eq_false in Hseen.
  rewrite <- Hid, (by_id current Hcurrent), Hid.
  set (dependents := dependentsOf dependentsMap currentId).
  set (released := fold_left (releaseDependent compare currentId) dependents
                             (SortState.dependencyMap st, rest)).
  assert (Hstate :
    match dependentsMap !! currentId with
    | Some listed =>
        SortState.mk
          (snd (fold_left (releaseDependent compare currentId) listed
                          (SortState.dependencyMap st, rest)))
          (SortState.ordered st ++ [current])
          (SortState.visited st ∪ {[ currentId ]})
          (fst (fold_left (releaseDependent compare currentId) listed
                          (SortState.dependencyMap st, rest)))
    | None =>
        SortState.mk rest (SortState.ordered st ++ [current])
          (SortState.visited st ∪ {[ currentId ]}) (SortState.dependencyMap st)
    end
    = SortState.mk (snd released) (SortState.ordered st ++ [current])
        (SortState.visited st ∪ {[ currentId ]}) (fst released)).
  { unfold released, dependents, dependentsOf.
    destruct (dependentsMap !! currentId); reflexivity. }
  rewrite Hstate. clear Hstate.
  destruct (releaseAll_spec compare currentId dependents (SortState.dependencyMap st) rest)
    as [Hmap Hrel]. fold released in Hmap, Hrel.
  assert (Hdep : forall table, In table tables ->
            (In (Table.id table) dependents <-> requires tableById table currentId)).
  { intros table Hin. unfold dependents. rewrite dependents_recorded. split.
    - intros (other & Hother & Heq & Hreq).
      now rewrite <- (unique_by_id tables other table distinct_ids Hother Hin Heq).
    - intros Hreq. exists table. auto. }
  constructor; simpl.
  - intros k. rewrite elem_of_union, elem_of_singleton, map_app, in_app_iff, I1. simpl.
    rewrite Hid. intuition.
  - rewrite map_app. simpl. apply List.NoDup_app; [assumption| |].
    + constructor; [intros []|constructor].
    + intros k Hk [Heq|[]]. apply Hseen. apply I1. rewrite <- Hid, Heq. exact Hk.
  - intros table Hin. apply in_app_iff in Hin. destruct Hin as [Hin|[<-|[]]]; auto.
  - intros table Hin. destruct (I4 table Hin) as (dependencies & Hlookup & Hmem).
    rewrite (Hmap _ _ Hlookup). eexists. split; [reflexivity|].
    intros b. destruct (in_dec string_dec (Table.id table) dependents) as [Hyes|Hno].
    + rewrite elem_of_difference, elem_of_singleton, Hmem, not_elem_of_union,
        elem_of_singleton. tauto.
    + rewrite Hmem, not_elem_of_union, elem_of_singleton. split; [|tauto].
      intros [Hreq Hnew]. repeat split; auto.
      intros ->. apply Hno. now apply Hdep.
  - intros q Hq. apply Hrel in Hq.
    destruct Hq as [Hq|(Hq & dependencies & Hlookup & Hempty)].
    + destruct (I5 q (or_intror Hq)) as (table & Hin & Heq & Hall).
      exists table. repeat split; auto. intros b Hb. apply elem_of_union. left. auto.
    + apply dependents_recorded in Hq. destruct Hq as (table & Hin & Heq & _).
      exists table. repeat split; auto. intros b Hb.
      destruct (I4 table Hin) as (own & Hown & Hmem).
      rewrite Heq, Hlookup in Hown. inversion Hown; subst own.
      destruct (decide (b ∈ SortState.visited st ∪ {[ currentId ]})) as [Hyes|Hno];
        [assumption|exfalso].
      apply not_elem_of_union in Hno. destruct Hno as [Hno Hne].
      assert (Hb' : b ∈ dependencies ∖ {[ currentId ]}).
      { apply elem_of_difference. split; [apply Hmem; auto|assumption]. }
      rewrite Hempty in Hb'. now apply not_elem_of_empty in Hb'.
  - intros table Hin Hall.
    destruct (in_dec string_dec (Table.id table) dependents) as [Hyes|Hno].
    + right. apply Hrel. right. split; [assumption|].
      destruct (I4 table Hin) as (own & Hown & Hmem).
      exists own. split; [assumption|].
      apply set_eq. intros b. rewrite elem_of_difference, Hmem. split.
      * intros [[Hreq Hnew] Hne]. exfalso. specialize (Hall b Hreq).
        apply elem_of_union in Hall. destruct Hall; contradiction.
      * intros Hb. now apply not_elem_of_empty in Hb.
    + assert (Hold : forall b, requires tableById table b -> b ∈ SortState.visited st).
      { intros b Hb. specialize (Hall b Hb). apply elem_of_union in Hall.
        destruct Hall as [H|H]; [assumption|]. apply elem_of_singleton in H. subst b.
        exfalso. apply Hno. now apply Hdep. }
      destruct (I6 table Hin Hold) as [H|[H|H]].
      * left. apply elem_of_union. now left.
      * left. apply elem_of_union. right. now apply elem_of_singleton.
      * right. apply Hrel. now left.
  - intros front table back Heq b Hb.
    destruct back as [|item back] using rev_ind.
    + apply app_inj_tail in Heq. destruct Heq as [<- <-].
      apply I1. apply Hready.
      assert (Hreq : requires tableById current b) by exact Hb. exact Hreq.
    + clear IHback. rewrite app_comm_cons, app_assoc in Heq.
      apply app_inj_tail in Heq. destruct Heq as [Heq _].
      exact (I7 front table back Heq b Hb).
Qed.

Lemma sortLoop_invariant (rounds : nat) (st final : SortState.t) :
  SortInvariant tables tableById st ->
  sortLoop rounds tableById dependentsMap compare st = Some final ->
  SortInvariant tables tableById final /\ SortState.readyQueue final = [].
Proof.
  revert st. induction rounds as [|rounds IH]; intros st Hinv Hrun; simpl in Hrun.
  - destruct (SortState.readyQueue st) eqn:Hqueue; [|discriminate].
    inversion Hrun; subst. auto.
  - destruct (SortState.readyQueue st) as [|currentId rest] eqn:Hqueue.
    + inversion Hrun; subst. auto.
    + apply (IH _ (sortStep_invariant currentId rest st Hqueue Hinv) Hrun).
Qed.

End Rounds.

(** ** Topological order: the result *)

Lemma insertTables_lookup (tables : list Table.t) (acc : gmap string Table.t) :
  let result := fold_left (fun m table => <[ Table.id table := table ]> m) tables acc in
  (forall k table, result !! k = Some table ->
                   (In table tables /\ Table.id table = k) \/ acc !! k = Some table)
  /\ (forall k, (forall table, In table tables -> Table.id table <> k) ->
                result !! k = acc !! k)
  /\ (List.NoDup (map Table.id tables) ->
      forall table, In table tables -> result !! Table.id table = Some table).
Proof.
  revert acc. induction tables as [|t ts IH]; intros acc; simpl.
  - split; [auto|]. split; [auto|]. intros _ table [].
  - destruct (IH (<[ Table.id t := t ]> acc)) as (IH1 & IH2 & IH3).
    split; [|split].
    + intros k table Hk. destruct (IH1 k table Hk) as [[Hin Hid]|Hacc].
      * left. split; [now right|assumption].
      * destruct (decide (Table.id t = k)) as [<-|Hne].
        -- rewrite lookup_insert_eq in Hacc. inversion Hacc; subst. left. split; [now left|reflexivity].
        -- rewrite lookup_insert_ne in Hacc by assumption. now right.
    + intros k Hk. rewrite IH2 by (intros; apply Hk; now right).
      apply lookup_insert_ne. apply Hk. now left.
    + intros Hnodup table [<-|Hin]; inversion Hnodup as [|? ? Hhead Htail]; subst.
      * rewrite IH2; [apply lookup_insert_eq|].
        intros table Hin Heq. apply Hhead. rewrite <- Heq. now apply in_map.
      * now apply IH3.
Qed.

Lemma tableById_lookup (model : DbModel.t) :
  (forall k table, tableById model !! k = Some table ->
                   In table (DbModel.tables model) /\ Table.id table = k)
  /\ (List.NoDup (map Table.id (DbModel.tables model)) ->
      forall table, In table (DbModel.tables model) ->
                    tableById model !! Table.id table = Some table).
Proof.
  destruct (insertTables_lookup (DbModel.tables model) ∅) as (H1 & _ & H3).
  split; [|exact H3].
  intros k table Hk. destruct (H1 k table Hk) as [H|H]; [assumption|].
  rewrite lookup_empty in H. discriminate.
Qed.

Lemma filter_none {A : Type} (p : A -> bool) (xs : list A) :
  (forall x, In x xs -> p x = false) -> List.filter p xs = [].
Proof.
  intros H. induction xs as [|x xs IH]; simpl; [reflexivity|].
  rewrite (H x (or_introl eq_refl)). apply IH. intros y Hy. apply H. now right.
Qed.

Section SortedTables.
Context {L : Locale}.
Variables (tables : list Table.t) (tableById : gmap string Table.t)
          (getSchemaName : string -> string).
Hypothesis distinct_ids : List.NoDup (map Table.id tables).
Hypothesis named_ids : forall table, In table tables -> Table.id table <> EmptyString.
Hypothesis by_id : forall table, In table tables -> tableById !! Table.id table = Some table.
Hypothesis only_tables :
  forall k table, tableById !! k = Some table -> In table tables /\ Table.id table = k.

Lemma requires_dependsOn (table : Table.t) (b : string) :
  In table tables ->
  (requires tableById table b <-> dependsOn tables (Table.id table) b).
Proof.
  intros Hin. unfold requires, accepted, dependsOn. split.
  - intros (fk & Hfk & Hto & Hnamed & Hother & [target Htarget]).
    exists table, fk. repeat split; auto.
    destruct (only_tables b target Htarget) as [Ht Hid]. rewrite <- Hid. now apply in_map.
  - intros (other & fk & Hother & Hid & Hfk & Hto & Hne & Hb).
    rewrite (unique_by_id tables other table distinct_ids Hother Hin Hid) in Hfk.
    exists fk. split; [assumption|]. split; [assumption|].
    apply in_map_iff in Hb. destruct Hb as (target & Htid & Htarget).
    split; [rewrite <- Htid; now apply named_ids|]. split; [assumption|].
    exists target. rewrite <- Htid. now apply by_id.
Qed.

Lemma dependents_of_graph (b d : string) :
  In d (dependentsOf (snd (buildGraph tables tableById)) b)
  <-> exists table, In table tables /\ Table.id table = d /\ requires tableById table b.
Proof.
  unfold buildGraph.
  destruct (addTableDependencies_edges tableById tables (∅, ∅)) as (H & _ & _).
  simpl in H. rewrite H. unfold dependentsOf at 1. simpl. rewrite lookup_empty. simpl.
  tauto.
Qed.

Lemma initial_invariant (compare : string -> string -> Z) :
  SortInvariant tables tableById
    (initialSortState tables (fst (buildGraph tables tableById)) compare).
Proof.
  destruct (addTableDependencies_edges tableById tables (∅, ∅)) as (_ & _ & Hdeps).
  specialize (Hdeps distinct_ids). fold (buildGraph tables tableById) in Hdeps.
  constructor; simpl.
  - intros k. split; [intros H; now apply not_elem_of_empty in H|intros []].
  - constructor.
  - intros table [].
  - intros table Hin. destruct (Hdeps table Hin) as (dependencies & Hlookup & Hmem).
    exists dependencies. split; [assumption|]. intros b. rewrite Hmem.
    split; [intros H; split; [assumption|apply not_elem_of_empty]|tauto].
  - intros q Hq. apply sort_In, in_map_iff in Hq. destruct Hq as (table & Hid & Hq).
    apply filter_In in Hq. destruct Hq as [Hin Hsize].
    exists table. repeat split; auto. intros b Hb. exfalso.
    destruct (Hdeps table Hin) as (dependencies & Hlookup & Hmem).
    rewrite Hlookup in Hsize. apply Nat.eqb_eq, size_empty_iff in Hsize.
    apply Hmem in Hb. apply Hsize in Hb. now apply not_elem_of_empty in Hb.
  - intros table Hin Hall. right. apply sort_In, in_map. apply filter_In.
    split; [assumption|].
    destruct (Hdeps table Hin) as (dependencies & Hlookup & Hmem).
    rewrite Hlookup. apply Nat.eqb_eq, size_empty_iff.
    intros b. split; [|intros H; now apply not_elem_of_empty in H].
    intros Hb. apply Hmem, Hall in Hb. exact Hb.
  - intros front table back Heq. destruct front; discriminate.
Qed.

(** Without a cycle, the loop leaves no table out. *)
Lemma all_visited (final : SortState.t) :
  acyclic tables ->
  SortInvariant tables tableById final ->
  SortState.readyQueue final = [] ->
  forall table, In table tables -> Table.id table ∈ SortState.visited final.
Proof.
  intros Hacyclic [I1 I2 I3 I4 I5 I6 I7] Hempty table Hin.
  destruct (decide (Table.id table ∈ SortState.visited final)) as [Hyes|Hno];
    [assumption|exfalso].
  set (inside := fun a => In a (map Table.id tables) /\ a ∉ SortState.visited final).
  destruct (closed_set_has_cycle (dependsOn tables) (map Table.id tables) inside)
    as (x & Hcycle).
  - intros a [Ha _]. exact Ha.
  - intros a [Ha Hnew]. apply in_map_iff in Ha. destruct Ha as (t & <- & Ht).
    destruct (I4 t Ht) as (dependencies & Hlookup & Hmem).
    destruct (decide (dependencies = ∅)) as [->|Hsome].
    + exfalso. destruct (I6 t Ht) as [H|H].
      * intros b Hb.
        destruct (decide (b ∈ SortState.visited final)) as [Hv|Hv]; [assumption|].
        exfalso. apply (not_elem_of_empty (C := gset string) b). apply Hmem. auto.
      * contradiction.
      * rewrite Hempty in H. destruct H.
    + apply set_choose_L in Hsome. destruct Hsome as (b & Hb).
      apply Hmem in Hb. destruct Hb as [Hreq Hnewb].
      apply (requires_dependsOn t b Ht) in Hreq.
      exists b. split; [assumption|]. split; [|assumption].
      destruct Hreq as (_ & _ & _ & _ & _ & _ & _ & Hb). exact Hb.
  - exists (Table.id table). split; [now apply in_map|assumption].
  - exact (Hacyclic x Hcycle).
Qed.

Lemma topologicallySortTables_acyclic :
  acyclic tables ->
  exists ordered,
    topologicallySortTables tables getSchemaName tableById = Some ordered
    /\ Permutation ordered tables
    /\ forall a b, In a tables -> In b tables ->
                   dependsOn tables (Table.id a) (Table.id b) ->
                   precedes ordered b a.
Proof.
  intros Hacyclic.
  unfold topologicallySortTables, topologicallySortTables_within, sortRounds.
  set (graph := buildGraph tables tableById).
  set (compare := compareBySchemaAndName tableById getSchemaName).
  set (start := initialSortState tables (fst graph) compare).
  destruct (sortLoop_terminates tableById (snd graph) compare
              (length (SortState.readyQueue start) + pendingWork (snd graph) ∅) start)
    as (final & Hrun & Hempty).
  { unfold remainingWork. simpl. lia. }
  rewrite Hrun. simpl.
  destruct (sortLoop_invariant tables tableById (snd graph) compare
              distinct_ids named_ids by_id dependents_of_graph _ start final
              (initial_invariant compare) Hrun) as [Hinv _].
  pose proof (all_visited final Hacyclic Hinv Hempty) as Hall.
  destruct Hinv as [I1 I2 I3 I4 I5 I6 I7].
  assert (Hfinish : finishSort tables compare final = SortState.ordered final).
  { unfold finishSort. destruct (negb _); [|reflexivity].
    rewrite filter_none; [apply app_nil_r|].
    intros table Hin. apply negb_false_iff, bool_decide_eq_true. now apply Hall. }
  rewrite Hfinish. exists (SortState.ordered final). split; [reflexivity|].
  assert (Hback : forall table, In table tables -> In table (SortState.ordered final)).
  { intros table Hin. pose proof (Hall table Hin) as Hseen.
    apply I1, in_map_iff in Hseen. destruct Hseen as (other & Hid & Hother).
    now rewrite <- (unique_by_id tables other table distinct_ids (I3 _ Hother) Hin Hid). }
  split.
  - apply Stdlib.Sorting.Permutation.NoDup_Permutation.
    + eapply List.NoDup_map_inv. exact I2.
    + eapply List.NoDup_map_inv. exact distinct_ids.
    + intros table. split; [apply I3|apply Hback].
  - intros a b Ha Hb Hdep.
    destruct (in_split _ _ (Hback a Ha)) as (front & back & Heq).
    exists front, back. split; [assumption|].
    apply (requires_dependsOn a (Table.id b) Ha) in Hdep.
    pose proof (I7 front a back Heq (Table.id b) Hdep) as Hfront.
    apply in_map_iff in Hfront. destruct Hfront as (other & Hid & Hother).
    assert (Hin : In other tables).
    { apply I3. rewrite Heq. apply in_or_app. now left. }
    now rewrite <- (unique_by_id tables other b distinct_ids Hin Hb Hid).
Qed.

End SortedTables.

(** ** Joined text *)

Lemma append_assoc (a b c : string) : (a +:+ b) +:+ c = a +:+ (b +:+ c).
Proof.
  induction a as [|ch a IH]; [reflexivity|].
  change (String ch ((a +:+ b) +:+ c) = String ch (a +:+ (b +:+ c))).
  now rewrite IH.
Qed.

Lemma append_empty_r (a : string) : a +:+ EmptyString = a.
Proof.
  induction a as [|ch a IH]; [reflexivity|].
  change (String ch (a +:+ EmptyString) = String ch a). now rewrite IH.
Qed.

Lemma join_cons (sep x : string) (xs : list string) :
  exists post, Js.join sep (x :: xs) = x +:+ post.
Proof.
  destruct xs as [|y ys].
  - exists EmptyString. unfold Js.join. simpl. now rewrite append_empty_r.
  - eexists. unfold Js.join. simpl. reflexivity.
Qed.

(** A part of a joined text stands in it as it is. *)
Lemma join_member (sep : string) (xs ys : list string) (y : string) :
  exists pre post, Js.join sep (xs ++ y :: ys) = pre +:+ y +:+ post.
Proof.
  induction xs as [|x xs IH].
  - destruct (join_cons sep y ys) as (post & Hpost).
    exists EmptyString, post. exact Hpost.
  - destruct IH as (pre & post & IH).
    exists (x +:+ sep +:+ pre), post.
    change (Js.join sep ((x :: xs) ++ y :: ys))
      with (Js.join sep (x :: (xs ++ y :: ys))).
    unfold Js.join in *.
    destruct (xs ++ y :: ys) as [|z zs] eqn:E; [destruct xs; discriminate|].
    change (String.concat sep (x :: z :: zs))
      with (x +:+ sep +:+ String.concat sep (z :: zs)).
    rewrite IH, !append_assoc. reflexivity.
Qed.

(** Two parts of a joined text stand in it in the order of the list. *)
Lemma join_members (sep : string) (xs ys zs : list string) (y z : string) :
  exists pre mid post,
    Js.join sep (xs ++ y :: ys ++ z :: zs) = pre +:+ y +:+ mid +:+ z +:+ post.
Proof.
  induction xs as [|x xs IH].
  - destruct (join_member sep ys zs z) as (pre & post & Hrest).
    exists EmptyString, (sep +:+ pre), post.
    unfold Js.join in *. simpl app.
    destruct (ys ++ z :: zs) as [|w ws] eqn:E; [destruct ys; discriminate|].
    change (String.concat sep (y :: w :: ws))
      with (y +:+ sep +:+ String.concat sep (w :: ws)).
    rewrite Hrest, !append_assoc. reflexivity.
  - destruct IH as (pre & mid & post & IH).
    exists (x +:+ sep +:+ pre), mid, post.
    change (Js.join sep ((x :: xs) ++ y :: ys ++ z :: zs))
      with (Js.join sep (x :: (xs ++ y :: ys ++ z :: zs))).
    unfold Js.join in *.
    destruct (xs ++ y :: ys ++ z :: zs) as [|w ws] eqn:E; [destruct xs; discriminate|].
    change (String.concat sep (x :: w :: ws))
      with (x +:+ sep +:+ String.concat sep (w :: ws)).
    rewrite IH, !append_assoc. reflexivity.
Qed.

Lemma flat_map_two {A B : Type} (f : A -> list B) (f1 f2 back : list A) (x y : A) :
  flat_map f (f1 ++ x :: f2 ++ y :: back)
  = flat_map f f1 ++ f x ++ flat_map f f2 ++ f y ++ flat_map f back.
Proof.
  rewrite flat_map_app. simpl. rewrite flat_map_app. reflexivity.
Qed.

(** Every [CREATE TABLE] statement begins with the qualified name of its
    table. *)
Lemma buildTableStatement_head (table : Table.t) (schemaName : string)
    (getTableById : string -> option Table.t) (getSchemaName : string -> string) :
  exists rest,
    buildTableStatement table schemaName getTableById getSchemaName
    = "CREATE TABLE " +:+ qualify schemaName (Table.name table) +:+ " (" +:+ rest.
Proof.
  unfold buildTableStatement. cbv zeta.
  match goal with
  | |- exists rest, Js.join _ (?definition :: ?comments) = _ =>
      destruct (join_cons Js.newline definition comments) as (post & ->)
  end.
  match goal with
  | |- context [if ?inline then _ else _] => destruct inline
  end; eexists; rewrite !append_assoc; reflexivity.
Qed.

Lemma createTableStatement_head (model : DbModel.t) (table : Table.t) :
  exists rest, createTableStatement model table = createTableHead model table +:+ rest.
Proof.
  unfold createTableStatement, createTableHead.
  destruct (buildTableStatement_head table (getSchemaName model (Table.schemaId table))
              (fun id => tableById model !! id) (getSchemaName model)) as (rest & ->).
  exists rest. rewrite !append_assoc. reflexivity.
Qed.

(** A text that stands in a part of a text stands in the text. *)
Lemma occurs_left (part s t : string) :
  (exists before after, s = before +:+ part +:+ after) ->
  exists before after, s +:+ t = before +:+ part +:+ after.
Proof.
  intros (before & after & ->). exists before, (after +:+ t).
  now rewrite !append_assoc.
Qed.

Lemma occurs_right (part s t : string) :
  (exists before after, s = before +:+ part +:+ after) ->
  exists before after, t +:+ s = before +:+ part +:+ after.
Proof.
  intros (before & after & ->). exists (t +:+ before), after.
  now rewrite !append_assoc.
Qed.

(** A clause that [buildForeignKeyClause] answers with stands in the
    statement of the table. *)
Lemma buildTableStatement_clause (table : Table.t) (schemaName : string)
    (getTableById : string -> option Table.t) (getSchemaName : string -> string)
    (fk : ForeignKey.t) (clause : string) :
  In fk (Table.foreignKeys table) ->
  buildForeignKeyClause fk table getTableById getSchemaName = Some clause ->
  clause <> EmptyString ->
  exists before after,
    buildTableStatement table schemaName getTableById getSchemaName
    = before +:+ clause +:+ after.
Proof.
  intros Hfk Hclause Hfilled.
  assert (Hin : In clause
                   (flat_map (fun fk =>
                                match buildForeignKeyClause fk table getTableById
                                                            getSchemaName with
                                | Some clause =>
                                    if String.eqb clause EmptyString then [] else [clause]
                                | None => []
                                end)
                             (Table.foreignKeys table))).
  { apply in_flat_map. exists fk. split; [exact Hfk|]. rewrite Hclause.
    destruct (String.eqb_spec clause EmptyString) as [->|_]; [now destruct Hfilled|].
    now left. }
  unfold buildTableStatement. cbv zeta.
  match goal with
  | |- exists before after, Js.join _ (?definition :: ?comments) = _ =>
      destruct (join_cons Js.newline definition comments) as (post & ->)
  end.
  match goal with
  | |- context [Js.join ", " (?base ++ flat_map ?f ?fks)] =>
      assert (Hsplit : exists front back, base ++ flat_map f fks = front ++ clause :: back)
  end.
  { destruct (in_split _ _ Hin) as (front & back & ->).
    eexists (_ ++ front), back. apply List.app_assoc. }
  destruct Hsplit as (front & back & ->).
  destruct (join_member ", " front back clause) as (pre1 & post1 & ->).
  destruct (join_member ("," +:+ Js.newline +:+ "  ") front back clause)
    as (pre2 & post2 & ->).
  apply occurs_left.
  match goal with
  | |- context [if ?inline && _ then _ else _] => destruct (inline && _)
  end.
  - do 3 apply occurs_right. apply occurs_left. now exists pre1, post1.
  - do 5 apply occurs_right. apply occurs_left. now exists pre2, post2.
Qed.

Lemma createTableStatement_clause (model : DbModel.t) (table : Table.t)
    (fk : ForeignKey.t) (clause : string) :
  In fk (Table.foreignKeys table) ->
  buildForeignKeyClause fk table (fun id => tableById model !! id) (getSchemaName model)
  = Some clause ->
  clause <> EmptyString ->
  exists before after, createTableStatement model table = before +:+ clause +:+ after.
Proof. apply buildTableStatement_clause. Qed.

Section ScriptText.
Context {N : Naming} {L : Locale}.

Lemma tableStatements_head (model : DbModel.t) (table : Table.t) :
  tableStatements model table
  = createTableStatement model table
      :: buildIndexesForTable table (getSchemaName model (Table.schemaId table)).
Proof. reflexivity. Qed.

(** The statement of a table is among the statements of the tables. *)
Lemma statement_listed (model : DbModel.t) (tables : list Table.t) (table : Table.t) :
  In table tables ->
  In (createTableStatement model table) (flat_map (tableStatements model) tables).
Proof.
  intros Hin. apply in_flat_map. exists table. split; [exact Hin|].
  rewrite tableStatements_head. now left.
Qed.

(** The statement of a table of the order stands in the text of the
    script. *)
Lemma script_member (model : DbModel.t) (prelude : list string) (ordered : list Table.t)
    (table : Table.t) :
  In table ordered ->
  exists before after,
    Js.join Js.newline (prelude ++ flat_map (tableStatements model) ordered)
    = before +:+ createTableStatement model table +:+ after.
Proof.
  intros Hin. destruct (in_split _ _ Hin) as (f1 & f2 & ->).
  rewrite flat_map_app. cbn [flat_map]. rewrite tableStatements_head.
  rewrite List.app_assoc. cbn [app]. apply join_member.
Qed.

(** The statements of the tables, written out. *)
Lemma tableStatements_written (model : DbModel.t) (tables : list Table.t) :
  flat_map (tableStatements model) tables
  = flat_map (fun table =>
                createTableStatement model table
                  :: buildIndexesForTable table (getSchemaName model (Table.schemaId table)))
             tables.
Proof. reflexivity. Qed.

(** In the text of the script, the statement of a table that stands earlier
    in the order stands earlier. *)
Lemma script_order (model : DbModel.t) (prelude : list string) (ordered : list Table.t)
    (earlier later : Table.t) :
  precedes ordered earlier later ->
  exists before between after,
    Js.join Js.newline (prelude ++ flat_map (tableStatements model) ordered)
    = before +:+ createTableStatement model earlier +:+ between
        +:+ createTableStatement model later +:+ after.
Proof.
  intros (front & back & -> & Hearlier).
  destruct (in_split _ _ Hearlier) as (f1 & f2 & ->).
  rewrite <- app_assoc. simpl app.
  rewrite flat_map_two, !tableStatements_head.
  set (indexes := fun table : Table.t =>
         buildIndexesForTable table (getSchemaName model (Table.schemaId table))).
  replace (prelude
           ++ flat_map (tableStatements model) f1
           ++ (createTableStatement model earlier :: indexes earlier)
           ++ flat_map (tableStatements model) f2
           ++ (createTableStatement model later :: indexes later)
           ++ flat_map (tableStatements model) back)
    with ((prelude ++ flat_map (tableStatements model) f1)
          ++ createTableStatement model earlier
          :: (indexes earlier ++ flat_map (tableStatements model) f2)
          ++ createTableStatement model later
          :: (indexes later ++ flat_map (tableStatements model) back))
    by (rewrite <- ?List.app_assoc; simpl; rewrite <- ?List.app_assoc; reflexivity).
  apply join_members.
Qed.

End ScriptText.

(** ** The script follows the order *)

Section Script.
Context {N : Naming} {L : Locale}.

(** C4 (as the code has it).  In a model whose tables have pairwise
    distinct, non-empty identifiers and whose dependency graph has no cycle,
    [generatePostgresSql] returns the statements of the schemas, of the
    types and of the tables joined by line breaks.  The tables come in an
    order that holds each of them once, each after all the tables its
    foreign keys target; the script holds the [CREATE TABLE] statement of
    every table, which begins with the qualified name of the table, and the
    statement of a table stands in the text after the statements of the
    tables it references: with [b] referencing [a] and [c] referencing [b],
    [a] comes before [b] and [b] before [c].  The script is a function of
    the model: generating it again from the same model gives the same
    text. *)
Theorem tables_follow_their_targets :
  forall (model : DbModel.t),
    List.NoDup (map Table.id (DbModel.tables model)) ->
    (forall table, In table (DbModel.tables model) -> Table.id table <> EmptyString) ->
    acyclic (DbModel.tables model) ->
    exists ordered,
      orderedTables model = Some ordered
      /\ Permutation ordered (DbModel.tables model)
      /\ (forall a b,
            In a (DbModel.tables model) -> In b (DbModel.tables model) ->
            dependsOn (DbModel.tables model) (Table.id a) (Table.id b) ->
            precedes ordered b a)
      /\ generatePostgresSql model
         = Some (Js.join Js.newline
                   (schemaStatements model ++ typeStatements model
                      ++ flat_map (tableStatements model) ordered))
      /\ (forall table,
            In table (DbModel.tables model) ->
            In (createTableStatement model table)
               (flat_map (tableStatements model) ordered)
            /\ exists rest,
                 createTableStatement model table = createTableHead model table +:+ rest)
      /\ (forall a b,
            In a (DbModel.tables model) -> In b (DbModel.tables model) ->
            dependsOn (DbModel.tables model) (Table.id a) (Table.id b) ->
            exists before between after,
              generatePostgresSql model
              = Some (before +:+ createTableStatement model b +:+ between
                        +:+ createTableStatement model a +:+ after))
      /\ (forall again, again = model ->
                        generatePostgresSql again = generatePostgresSql model).
Proof.
  intros model Hdistinct Hnamed Hacyclic.
  destruct (tableById_lookup model) as [Honly Hby].
  destruct (topologicallySortTables_acyclic (DbModel.tables model) (tableById model)
              (getSchemaName model) Hdistinct Hnamed (Hby Hdistinct) Honly Hacyclic)
    as (ordered & Hsort & Hperm & Horder).
  assert (Hscript : generatePostgresSql model
                    = Some (Js.join Js.newline
                              (schemaStatements model ++ typeStatements model
                                 ++ flat_map (tableStatements model) ordered))).
  { unfold generatePostgresSql, generateStatements, orderedTables. rewrite Hsort.
    reflexivity. }
  exists ordered. split; [exact Hsort|]. split; [exact Hperm|]. split; [exact Horder|].
  split; [exact Hscript|]. split; [|split].
  - intros table Hin. split; [|apply createTableStatement_head].
    apply statement_listed. eapply Permutation_in; [symmetry; exact Hperm|exact Hin].
  - intros a b Ha Hb Hdep. rewrite Hscript, List.app_assoc.
    destruct (script_order model (schemaStatements model ++ typeStatements model)
                           ordered b a (Horder a b Ha Hb Hdep))
      as (before & between & after & ->).
    now exists before, between, after.
  - intros again ->. reflexivity.
Qed.

End Script.

Lemma chainModel_acyclic : acyclic (DbModel.tables chainModel).
Proof.
  apply (ranked_acyclic _ chainRank).
  intros a b (table & fk & Hin & <- & Hfk & <- & _).
  simpl in Hin. destruct Hin as [<-|[<-|[<-|[]]]]; simpl in Hfk.
  - destruct Hfk as [<-|[]]. vm_compute. lia.
  - destruct Hfk as [<-|[]]. vm_compute. lia.
  - destruct Hfk.
Qed.

Lemma tables_follow_their_targets_witness :
  exists ordered,
    orderedTables (L := codeUnitLocale) chainModel = Some ordered
    /\ Permutation ordered [tableC; tableB; tableA]
    /\ precedes ordered tableA tableB
    /\ precedes ordered tableB tableC
    /\ exists before between after,
         generatePostgresSql (N := specNaming) (L := codeUnitLocale) chainModel
         = Some (before +:+ createTableStatement chainModel tableA +:+ between
                   +:+ createTableStatement chainModel tableB +:+ after).
Proof.
  destruct (tables_follow_their_targets (N := specNaming) (L := codeUnitLocale) chainModel)
    as (ordered & Hsort & Hperm & Horder & _ & _ & Htext & _).
  - simpl. repeat constructor; simpl; intuition discriminate.
  - simpl. intros table [<-|[<-|[<-|[]]]]; discriminate.
  - exact chainModel_acyclic.
  - assert (Hba : dependsOn (DbModel.tables chainModel) (Table.id tableB) (Table.id tableA)).
    { exists tableB. eexists. simpl. repeat split; auto; discriminate. }
    assert (Hcb : dependsOn (DbModel.tables chainModel) (Table.id tableC) (Table.id tableB)).
    { exists tableC. eexists. simpl. repeat split; auto; discriminate. }
    exists ordered. split; [exact Hsort|]. split; [exact Hperm|]. split.
    + apply Horder; simpl; auto.
    + split; [apply Horder; simpl; auto|].
      apply Htext; simpl; auto.
Defined.

(** Without those conditions on the identifiers the order fails.  A table
    whose identifier is empty is taken for absent: the table that references
    it is created first.  Of two tables that share an identifier the script
    holds one only. *)
Lemma shared_or_empty_ids_break_the_order :
  (acyclic (DbModel.tables namelessModel)
   /\ dependsOn (DbModel.tables namelessModel) (Table.id referrer) (Table.id nameless)
   /\ orderedTables (L := codeUnitLocale) namelessModel = Some [referrer; nameless]
   /\ generatePostgresSql (N := specNaming) (L := codeUnitLocale) namelessModel
      = Some (createTableStatement namelessModel referrer +:+ Js.newline
                +:+ createTableStatement namelessModel nameless)
   /\ ~ precedes [referrer; nameless] nameless referrer)
  /\ (acyclic (DbModel.tables twinModel)
      /\ dependsOn (DbModel.tables twinModel) (Table.id twinX) (Table.id twinTarget)
      /\ orderedTables (L := codeUnitLocale) twinModel = Some [twinTarget; twinY]
      /\ ~ In twinX [twinTarget; twinY]).
Proof.
  split.
  - split.
    { apply (ranked_acyclic _ (fun id => if String.eqb id "t_a" then 1 else 0)).
      intros a b (table & fk & Hin & <- & Hfk & <- & Hne & _).
      simpl in Hin. destruct Hin as [<-|[<-|[]]]; simpl in Hfk.
      - destruct Hfk as [<-|[]]. vm_compute. lia.
      - destruct Hfk. }
    split.
    { exists referrer. eexists. simpl. repeat split; auto; discriminate. }
    split; [vm_compute; reflexivity|]. split; [vm_compute; reflexivity|].
    intros (front & back & Heq & Hin).
    destruct front as [|first front]; [destruct Hin|].
    injection Heq as <- Heq.
    destruct front as [|second front]; [|destruct front; discriminate].
    simpl in Heq. injection Heq as Heq _. discriminate.
  - split.
    { apply (ranked_acyclic _ (fun id => if String.eqb id "t_a" then 1 else 0)).
      intros a b (table & fk & Hin & <- & Hfk & <- & Hne & _).
      simpl in Hin. destruct Hin as [<-|[<-|[<-|[]]]]; simpl in Hfk.
      - destruct Hfk as [<-|[]]. vm_compute. lia.
      - destruct Hfk.
      - destruct Hfk. }
    split.
    { exists twinX. eexists. simpl. repeat split; auto; discriminate. }
    split; [vm_compute; reflexivity|].
    intros [H|[H|[]]]; discriminate.
Qed.

Example chainModel_order :
  option_map (map Table.name) (orderedTables (L := codeUnitLocale) chainModel)
  = Some ["a"; "b"; "c"].
Proof. vm_compute. reflexivity. Qed.
(** * Further properties *)

(** ** Names made unique *)

(** X1.  For a base name of ASCII characters, [ensureUniqueName] answers
    with a name that is not taken: the trimmed base (or [sem_nome] for a
    blank one) when it is free, and otherwise the base followed by [_k] for
    the least [k] from 2 on that is free. *)
Theorem ensureUniqueName_least_free :
  forall (baseName : string) (existingNames : list string),
    isAsciiText baseName = true ->
    let normalized :=
      if String.length (Js.trim baseName) =? 0 then "sem_nome" else Js.trim baseName in
    let result := ensureUniqueName baseName existingNames in
    ~ In result existingNames
    /\ (~ In normalized existingNames -> result = normalized)
    /\ (In normalized existingNames ->
        exists k, 2 <= k /\ result = normalized +:+ "_" +:+ Js.showNat k
                  /\ forall j, 2 <= j < k ->
                               In (normalized +:+ "_" +:+ Js.showNat j) existingNames).
Proof.
  intros baseName existingNames _ normalized result.
  split; [apply ensureUniqueName_fresh|]. split.
  - intros Hfree. unfold result, ensureUniqueName. fold normalized.
    apply includes_not_In in Hfree. now rewrite Hfree.
  - intros Htaken. unfold result, ensureUniqueName. fold normalized.
    apply includes_In in Htaken. rewrite Htaken. simpl.
    destruct (ensureUniqueName_loop_spec (length existingNames) normalized existingNames 2)
      as (k & Hk & Hrange & Hbelow & _).
    exists k. split; [lia|]. split; [exact Hk|]. exact Hbelow.
Qed.

Lemma ensureUniqueName_least_free_witness :
  isAsciiText " orders " = true
  /\ ~ In (ensureUniqueName " orders " ["orders"; "orders_2"]) ["orders"; "orders_2"].
Proof.
  split; [reflexivity|].
  apply (ensureUniqueName_least_free " orders " ["orders"; "orders_2"] eq_refl).
Defined.

(** ** Additions *)

Lemma NoDup_snoc {A : Type} (xs : list A) (x : A) :
  List.NoDup xs -> ~ In x xs -> List.NoDup (xs ++ [x]).
Proof.
  intros Hxs Hx. apply List.NoDup_app; [assumption| |].
  - constructor; [intros []|constructor].
  - intros y Hy [<-|[]]. contradiction.
Qed.

(** X2.  [addSchema] always succeeds: it appends one schema, whose name no
    schema had, selects it and leaves tables and types alone; schema names
    that were pairwise distinct stay so. *)
Theorem addSchema_appends :
  forall (st : ModelState.t) (newSchemaId name : string),
    exists schema st',
      addSchema newSchemaId name st = (Returned newSchemaId, st')
      /\ DbModel.schemas (ModelState.model st')
         = DbModel.schemas (ModelState.model st) ++ [schema]
      /\ Schema.id schema = newSchemaId
      /\ ~ In (Schema.name schema)
              (map Schema.name (DbModel.schemas (ModelState.model st)))
      /\ modelTables st' = modelTables st
      /\ DbModel.types (ModelState.model st') = DbModel.types (ModelState.model st)
      /\ ModelState.selectedSchemaId st' = Some newSchemaId
      /\ (List.NoDup (map Schema.name (DbModel.schemas (ModelState.model st))) ->
          List.NoDup (map Schema.name (DbModel.schemas (ModelState.model st')))).
Proof.
  intros st newSchemaId name.
  unfold addSchema, mbind, Store_bind, bind, get, set, mret, Store_ret, ret.
  do 2 eexists. split; [reflexivity|]. simpl.
  split; [reflexivity|]. split; [reflexivity|].
  split; [apply ensureUniqueName_fresh|].
  split; [reflexivity|]. split; [reflexivity|]. split; [reflexivity|].
  intros Hdistinct. rewrite map_app. simpl.
  apply NoDup_snoc; [assumption|apply ensureUniqueName_fresh].
Qed.

(** X3.  On a schema of the model, [addTable] appends one table to it, named
    unlike the other tables of that schema, with the single primary-key
    column [id] and no foreign key, and selects it.  Tables keep belonging
    to schemas of the model. *)
Theorem addTable_appends :
  forall (st : ModelState.t) (newTableId newColumnId schemaId : string)
         (name : option string) (position : option TablePosition.t),
    In schemaId (map Schema.id (DbModel.schemas (ModelState.model st))) ->
    exists table column st',
      addTable newTableId newColumnId schemaId name position st
      = (Returned newTableId, st')
      /\ modelTables st' = modelTables st ++ [table]
      /\ DbModel.schemas (ModelState.model st') = DbModel.schemas (ModelState.model st)
      /\ Table.id table = newTableId
      /\ Table.schemaId table = schemaId
      /\ (forall other, In other (modelTables st) ->
                        Table.schemaId other = schemaId ->
                        Table.name other <> Table.name table)
      /\ Table.columns table = [column]
      /\ Column.id column = newColumnId
      /\ Column.name column = "id"
      /\ Column.isPrimaryKey column = true
      /\ Table.foreignKeys table = []
      /\ Table.position table = position
      /\ ModelState.selectedTableId st' = Some newTableId
      /\ ModelState.selectedColumnId st' = None
      /\ (schemasResolved (ModelState.model st) -> schemasResolved (ModelState.model st')).
Proof.
  intros st newTableId newColumnId schemaId name position Hschema.
  unfold addTable, mbind, Store_bind, bind, get, set, mret, Store_ret, ret. simpl.
  assert (E : existsb (fun schema => String.eqb (Schema.id schema) schemaId)
                      (DbModel.schemas (ModelState.model st)) = true).
  { apply existsb_exists. apply in_map_iff in Hschema.
    destruct Hschema as (schema & Hid & Hin). exists schema.
    split; [assumption|]. now apply String.eqb_eq. }
  rewrite E. simpl.
  set (siblings := map Table.name
                       (List.filter (fun table => String.eqb (Table.schemaId table) schemaId)
                                    (DbModel.tables (ModelState.model st)))).
  assert (Hfresh : forall other, In other (modelTables st) ->
            Table.schemaId other = schemaId ->
            Table.name other <> ensureUniqueName (default "tabela" name) siblings).
  { intros other Hin Hs Heq.
    apply (ensureUniqueName_fresh (default "tabela" name) siblings).
    rewrite <- Heq. unfold siblings. apply in_map. apply filter_In.
    split; [exact Hin|]. now apply String.eqb_eq. }
  assert (Hresolved : forall table,
            Table.schemaId table = schemaId ->
            schemasResolved (ModelState.model st) ->
            schemasResolved
              (DbModel.withTables (DbModel.tables (ModelState.model st) ++ [table])
                                  (ModelState.model st))).
  { intros table Hs Hold other Hin. simpl in *. apply in_app_iff in Hin.
    destruct Hin as [Hin|[<-|[]]]; [now apply Hold|]. now rewrite Hs. }
  destruct position as [p|]; do 3 eexists; (split; [reflexivity|]); simpl;
    repeat (split; [first [reflexivity | exact Hfresh]|]);
    apply Hresolved; reflexivity.
Qed.

Lemma addTable_appends_witness :
  exists table st',
    addTable "t_invoices" "c_inv_id" "s_public" (Some "orders") None (stateOf shopModel)
    = (Returned "t_invoices", st')
    /\ modelTables st' = modelTables (stateOf shopModel) ++ [table]
    /\ Table.schemaId table = "s_public"
    /\ ModelState.selectedTableId st' = Some "t_invoices".
Proof.
  destruct (addTable_appends (stateOf shopModel) "t_invoices" "c_inv_id" "s_public"
              (Some "orders") None)
    as (table & column & st' & Hrun & Htables & _ & _ & Hschema & _ & _ & _ & _ & _ & _
        & _ & Hselected & _).
  - simpl. left. reflexivity.
  - exists table, st'. repeat split; assumption.
Defined.

Lemma lookupTable_map (f : Table.t -> Table.t) (tables : list Table.t) (id : string) :
  (forall table, Table.id (f table) = Table.id table) ->
  lookupTable (map f tables) id = option_map f (lookupTable tables id).
Proof.
  intros Hid. unfold lookupTable. induction tables as [|table rest IH]; [reflexivity|].
  simpl. rewrite Hid. destruct (String.eqb (Table.id table) id); [reflexivity|exact IH].
Qed.

Lemma map_ids_kept (f : Table.t -> Table.t) (tables : list Table.t) :
  (forall table, Table.id (f table) = Table.id table) ->
  map Table.id (map f tables) = map Table.id tables.
Proof.
  intros Hid. rewrite map_map. apply map_ext. exact Hid.
Qed.

(** X4.  On a table of the model, [addColumn] appends one column to it: a
    non-nullable [text] column named unlike the columns the table had, which
    is a primary key exactly when that name is [id].  The column is
    selected, column names that were distinct stay so, and the tables with
    another identifier are kept as they are. *)
Theorem addColumn_appends :
  forall (st : ModelState.t) (newColumnId tableId : string) (name : option string)
         (table : Table.t),
    lookupTable (modelTables st) tableId = Some table ->
    exists column st',
      addColumn newColumnId tableId name st = (Returned newColumnId, st')
      /\ lookupTable (modelTables st') tableId
         = Some (Table.withColumns (Table.columns table ++ [column]) table)
      /\ Column.id column = newColumnId
      /\ Column.type column = "text"
      /\ Column.nullable column = false
      /\ Column.isPrimaryKey column = String.eqb (Column.name column) "id"
      /\ ~ In (Column.name column) (map Column.name (Table.columns table))
      /\ (List.NoDup (map Column.name (Table.columns table)) ->
          List.NoDup (map Column.name (Table.columns table ++ [column])))
      /\ map Table.id (modelTables st') = map Table.id (modelTables st)
      /\ (forall other, In other (modelTables st) -> Table.id other <> tableId ->
                        In other (modelTables st'))
      /\ ModelState.selectedColumnId st' = Some newColumnId.
Proof.
  intros st newColumnId tableId name table Htable.
  unfold addColumn, mbind, Store_bind, bind, get, set, mret, Store_ret, ret. simpl.
  unfold lookupTable, modelTables in Htable. rewrite Htable. simpl.
  set (columnName := ensureUniqueName (default "coluna" name)
                                      (map Column.name (Table.columns table))).
  set (append := fun item : Table.t =>
         if String.eqb (Table.id item) tableId
         then Table.withColumns
                (Table.columns item ++ [createDefaultColumn newColumnId columnName "text"])
                item
         else item).
  assert (Hid : forall item, Table.id (append item) = Table.id item).
  { intros item. unfold append. now destruct (String.eqb (Table.id item) tableId). }
  do 2 eexists. split; [reflexivity|]. unfold modelTables. simpl.
  split.
  { rewrite (lookupTable_map append) by exact Hid.
    unfold lookupTable. rewrite Htable. simpl. unfold append.
    apply find_some in Htable. destruct Htable as [_ ->]. reflexivity. }
  do 4 (split; [reflexivity|]).
  split; [apply ensureUniqueName_fresh|].
  split.
  { intros Hdistinct. rewrite map_app. simpl.
    apply NoDup_snoc; [assumption|apply ensureUniqueName_fresh]. }
  split; [apply map_ids_kept, Hid|].
  split; [|reflexivity].
  intros other Hin Hother. apply in_map_iff. exists other. split; [|exact Hin].
  unfold append. apply String.eqb_neq in Hother. now rewrite Hother.
Qed.

Lemma addColumn_appends_witness :
  exists column st',
    addColumn "c_ord_total" "t_orders" (Some "id") (stateOf shopModel)
    = (Returned "c_ord_total", st')
    /\ lookupTable (modelTables st') "t_orders"
       = Some (Table.withColumns (Table.columns orders ++ [column]) orders)
    /\ ~ In (Column.name column) (map Column.name (Table.columns orders)).
Proof.
  destruct (addColumn_appends (stateOf shopModel) "c_ord_total" "t_orders" (Some "id") orders)
    as (column & st' & Hrun & Htable & _ & _ & _ & _ & Hname & _).
  - reflexivity.
  - exists column, st'. repeat split; assumption.
Defined.

(** ** Foreign keys added, removed and renamed *)

(** X5.  [removeForeignKey] drops from the tables called [tableId] the foreign
    keys called [fkId] and nothing else: every table keeps its place and its
    other fields, the remaining foreign keys keep their order, the tables
    with another identifier are as they were, and schemas, types, selection
    and undo stack are untouched. *)
Theorem removeForeignKey_removes_only_that_key :
  forall (st : ModelState.t) (tableId fkId : string),
    let st' := snd (removeForeignKey tableId fkId st) in
    Forall2 (fun before after =>
               Table.id after = Table.id before
               /\ Table.schemaId after = Table.schemaId before
               /\ Table.name after = Table.name before
               /\ Table.comment after = Table.comment before
               /\ Table.columns after = Table.columns before
               /\ Table.position after = Table.position before
               /\ (Table.id before <> tableId -> after = before)
               /\ (Table.id before = tableId ->
                   Table.foreignKeys after
                   = List.filter (fun fk => negb (String.eqb (ForeignKey.id fk) fkId))
                                 (Table.foreignKeys before)
                   /\ forall fk, In fk (Table.foreignKeys after) <->
                                  In fk (Table.foreignKeys before)
                                  /\ ForeignKey.id fk <> fkId))
            (modelTables st) (modelTables st')
    /\ DbModel.version (ModelState.model st') = DbModel.version (ModelState.model st)
    /\ DbModel.schemas (ModelState.model st') = DbModel.schemas (ModelState.model st)
    /\ DbModel.types (ModelState.model st') = DbModel.types (ModelState.model st)
    /\ ModelState.selectedSchemaId st' = ModelState.selectedSchemaId st
    /\ ModelState.selectedTableId st' = ModelState.selectedTableId st
    /\ ModelState.selectedColumnId st' = ModelState.selectedColumnId st
    /\ ModelState.showErd st' = ModelState.showErd st
    /\ ModelState.undoStack st' = ModelState.undoStack st.
Proof.
  intros st tableId fkId st'. unfold st', removeForeignKey, set, modelTables. simpl.
  split; [|repeat split].
  induction (DbModel.tables (ModelState.model st)) as [|table rest IH]; simpl.
  - constructor.
  - constructor; [|exact IH].
    destruct (String.eqb (Table.id table) tableId) eqn:E.
    + apply String.eqb_eq in E. simpl. do 6 (split; [reflexivity|]). split.
      * intros Hne. contradiction.
      * intros _. split; [reflexivity|].
        intros fk. rewrite filter_In. unfold idNot.
        rewrite negb_true_iff, String.eqb_neq. reflexivity.
    + apply String.eqb_neq in E. do 6 (split; [reflexivity|]). split.
      * reflexivity.
      * intros Heq. contradiction.
Qed.

Lemma NoDup_insert_middle {A : Type} (front back : list A) (x : A) :
  List.NoDup (front ++ back) -> ~ In x (front ++ back) ->
  List.NoDup (front ++ x :: back).
Proof.
  intros Hrest Hx.
  apply (Permutation_NoDup (l := x :: front ++ back)).
  - apply Permutation_middle.
  - now constructor.
Qed.

Lemma split_at_id (fkId : string) (fks : list ForeignKey.t) :
  List.NoDup (map ForeignKey.id fks) ->
  (forall fk, In fk fks -> ForeignKey.id fk <> fkId)
  \/ exists front fk back,
       fks = front ++ fk :: back /\ ForeignKey.id fk = fkId
       /\ (forall other, In other (front ++ back) -> ForeignKey.id other <> fkId).
Proof.
  induction fks as [|fk rest IH]; intros Hids.
  - left. intros fk [].
  - simpl in Hids. inversion Hids as [|? ? Hfresh Hrest]; subst.
    destruct (String.eqb_spec (ForeignKey.id fk) fkId) as [Heq|Hne].
    + right. exists [], fk, rest. simpl. repeat split; [exact Heq|].
      intros other Hin Hother. apply Hfresh. rewrite Heq, <- Hother.
      now apply in_map.
    + destruct (IH Hrest) as [Hnone|(front & fk' & back & -> & Hid & Hothers)].
      * left. intros other [<-|Hin]; [exact Hne|now apply Hnone].
      * right. exists (fk :: front), fk', back. simpl. repeat split; [exact Hid|].
        intros other [<-|Hin]; [exact Hne|now apply Hothers].
Qed.

Lemma map_unmatched_fk (f : ForeignKey.t -> ForeignKey.t) (fkId : string)
    (fks : list ForeignKey.t) :
  (forall fk, In fk fks -> ForeignKey.id fk <> fkId) ->
  map (fun fk => if negb (String.eqb (ForeignKey.id fk) fkId) then fk else f fk) fks = fks
  /\ List.filter (fun item => idNot fkId (ForeignKey.id item)) fks = fks.
Proof.
  intros Hnone. induction fks as [|fk rest IH]; [split; reflexivity|].
  simpl. unfold idNot.
  assert (E : String.eqb (ForeignKey.id fk) fkId = false)
    by (apply String.eqb_neq, Hnone; now left).
  rewrite E. simpl.
  destruct IH as [-> IH']; [intros other Hin; apply Hnone; now right|].
  unfold idNot in IH'. rewrite IH'. split; reflexivity.
Qed.

Section ConstraintNames.
Context {N : Naming}.

Lemma sanitizeForeignKeys_names (used : list string) (fks : list ForeignKey.t) :
  answersFresh ->
  (forall name, In name (map ForeignKey.name (sanitizeForeignKeys used fks)) ->
                ~ In name used)
  /\ List.NoDup (map ForeignKey.name (sanitizeForeignKeys used fks)).
Proof.
  intros Hfresh. revert used.
  induction fks as [|fk rest IH]; intros used; simpl.
  - split; [intros name []|constructor].
  - set (unique := ensureUniqueConstraintName
                     (sanitizeConstraintName (ForeignKey.name fk)
                        ("fk_" +:+ Js.slice0 8 (ForeignKey.id fk))) used).
    destruct (IH (addName unique used)) as [Hout Hdistinct].
    split.
    + intros name [<-|Hin]; [apply Hfresh|].
      intros Hused. apply (Hout name Hin). apply addName_In. now left.
    + constructor; [|exact Hdistinct].
      intros Hin. apply (Hout unique Hin). apply addName_In. now right.
Qed.

Lemma sanitizeForeignKeys_keeps (used : list string) (fks : list ForeignKey.t) :
  Forall2 (fun before after =>
             after = ForeignKey.mk (ForeignKey.id before) (ForeignKey.name after)
                       (ForeignKey.fromColumnId before) (ForeignKey.toTableId before)
                       (ForeignKey.toColumnId before) (ForeignKey.onDelete before)
                       (ForeignKey.onUpdate before) (ForeignKey.comment before)
                       (ForeignKey.startCardinality before)
                       (ForeignKey.endCardinality before))
          fks (sanitizeForeignKeys used fks).
Proof.
  revert used. induction fks as [|fk rest IH]; intros used; simpl; constructor.
  - reflexivity.
  - apply IH.
Qed.

(** X6.  Where [ensureUniqueConstraintName] answers with a name outside the
    names it is given, foreign-key names that are pairwise distinct within
    each table stay so when a foreign key is added, when one is removed, and
    when one is patched in tables whose foreign keys have pairwise distinct
    identifiers. *)
Theorem constraint_names_stay_distinct :
  answersFresh ->
  forall (st : ModelState.t) (tableId fkId : string) (fk : ForeignKey.t)
         (patch : ForeignKeyPatch.t),
    constraintNamesDistinct (modelTables st) ->
    constraintNamesDistinct (modelTables (snd (addForeignKey fkId tableId fk st)))
    /\ constraintNamesDistinct (modelTables (snd (removeForeignKey tableId fkId st)))
    /\ ((forall table, In table (modelTables st) ->
                       List.NoDup (map ForeignKey.id (Table.foreignKeys table))) ->
        constraintNamesDistinct
          (modelTables (snd (updateForeignKey tableId fkId patch st)))).
Proof.
  intros Hfresh st tableId fkId fk patch Hdistinct.
  unfold constraintNamesDistinct, modelTables in *. repeat split.
  - unfold addForeignKey, mbind, Store_bind, bind, set, mret, Store_ret, ret. simpl.
    intros table Hin. apply in_map_iff in Hin. destruct Hin as (before & <- & Hin).
    destruct (negb (String.eqb (Table.id before) tableId)); [now apply Hdistinct|].
    simpl. rewrite map_app. simpl. apply NoDup_snoc; [now apply Hdistinct|apply Hfresh].
  - unfold removeForeignKey, set. simpl.
    intros table Hin. apply in_map_iff in Hin. destruct Hin as (before & <- & Hin).
    destruct (String.eqb (Table.id before) tableId); [|now apply Hdistinct].
    simpl. specialize (Hdistinct before Hin).
    induction (Table.foreignKeys before) as [|item rest IH]; simpl; [constructor|].
    simpl in Hdistinct. inversion Hdistinct as [|? ? Hhead Hrest]; subst.
    destruct (idNot fkId (ForeignKey.id item)); [|now apply IH].
    simpl. constructor; [|now apply IH].
    intros Hname. apply Hhead. apply in_map_iff in Hname.
    destruct Hname as (other & Hother & Hfiltered). apply filter_In in Hfiltered.
    rewrite <- Hother. apply in_map. tauto.
  - intros Hids. unfold updateForeignKey, set. simpl.
    intros table Hin. apply in_map_iff in Hin. destruct Hin as (before & <- & Hin).
    destruct (negb (String.eqb (Table.id before) tableId)); [now apply Hdistinct|].
    simpl. specialize (Hdistinct before Hin). specialize (Hids before Hin).
    destruct (split_at_id fkId (Table.foreignKeys before) Hids)
      as [Hnone|(front & item & back & Hsplit & Hid & Hothers)].
    + destruct (map_unmatched_fk (patchForeignKey before fkId patch) fkId _ Hnone)
        as [-> _]. exact Hdistinct.
    + assert (Hfront : forall other, In other front -> ForeignKey.id other <> fkId)
        by (intros other Hother; apply Hothers, in_or_app; now left).
      assert (Hback : forall other, In other back -> ForeignKey.id other <> fkId)
        by (intros other Hother; apply Hothers, in_or_app; now right).
      assert (Hfiltered :
                List.filter (fun other => idNot fkId (ForeignKey.id other))
                            (Table.foreignKeys before) = front ++ back).
      { rewrite Hsplit, List.filter_app. simpl. unfold idNot at 2.
        rewrite (proj2 (String.eqb_eq _ _) Hid). simpl.
        destruct (map_unmatched_fk (fun other => other) fkId front Hfront) as [_ ->].
        destruct (map_unmatched_fk (fun other => other) fkId back Hback) as [_ ->].
        reflexivity. }
      rewrite Hsplit in Hdistinct. rewrite map_app in Hdistinct. simpl in Hdistinct.
      rewrite Hsplit at 1. rewrite map_app, map_cons.
      destruct (map_unmatched_fk (patchForeignKey before fkId patch) fkId front Hfront)
        as [-> _].
      destruct (map_unmatched_fk (patchForeignKey before fkId patch) fkId back Hback)
        as [-> _].
      rewrite (proj2 (String.eqb_eq _ _) Hid). cbn [negb].
      rewrite map_app, map_cons.
      unfold patchForeignKey. rewrite Hfiltered.
      destruct (ForeignKeyPatch.name patch) as [patched|]; cbn [ForeignKey.name];
        [|exact Hdistinct].
      apply NoDup_insert_middle.
      * now apply NoDup_remove_1 in Hdistinct.
      * rewrite <- map_app. apply Hfresh.
Qed.

End ConstraintNames.

Lemma constraint_names_stay_distinct_witness :
  constraintNamesDistinct
    (modelTables
       (snd (addForeignKey (N := specNaming) "fk_second" "t_orders"
               (plainForeignKey "unused" "orders_customer_id_fk"
                                "c_ord_customer" "t_customers" "c_cust_id")
               (stateOf shopModel)))).
Proof.
  assert (Hfresh : @answersFresh specNaming)
    by (intros base used; apply ensureUniqueName_fresh).
  apply (constraint_names_stay_distinct (N := specNaming) Hfresh (stateOf shopModel)
           "t_orders" "fk_second"
           (plainForeignKey "unused" "orders_customer_id_fk"
                            "c_ord_customer" "t_customers" "c_cust_id")
           ForeignKeyPatch.empty).
  intros table [<-|[<-|[]]]; simpl; repeat constructor. intros [].
Defined.

(** ** A model installed or read back *)

Section Installed.
Context {N : Naming}.

Lemma sanitizeModel_tables (model : DbModel.t) :
  Forall2 (fun before after =>
             Table.id after = Table.id before
             /\ Table.schemaId after = Table.schemaId before
             /\ Table.name after = Table.name before
             /\ Table.comment after = Table.comment before
             /\ Table.columns after = Table.columns before
             /\ Table.position after = Table.position before
             /\ Forall2 (fun fk fk' =>
                           fk' = ForeignKey.mk
                                   (ForeignKey.id fk) (ForeignKey.name fk')
                                   (ForeignKey.fromColumnId fk) (ForeignKey.toTableId fk)
                                   (ForeignKey.toColumnId fk) (ForeignKey.onDelete fk)
                                   (ForeignKey.onUpdate fk) (ForeignKey.comment fk)
                                   (ForeignKey.startCardinality fk)
                                   (ForeignKey.endCardinality fk))
                        (Table.foreignKeys before) (Table.foreignKeys after))
          (DbModel.tables model) (DbModel.tables (sanitizeModel model)).
Proof.
  unfold sanitizeModel. simpl.
  induction (DbModel.tables model) as [|table rest IH]; simpl; constructor.
  - do 6 (split; [reflexivity|]). simpl. apply sanitizeForeignKeys_keeps.
  - exact IH.
Qed.

Lemma sanitizeModel_names (model : DbModel.t) :
  answersFresh -> constraintNamesDistinct (DbModel.tables (sanitizeModel model)).
Proof.
  intros Hfresh table Hin. unfold sanitizeModel in Hin. simpl in Hin.
  apply in_map_iff in Hin. destruct Hin as (before & <- & _). simpl.
  now apply sanitizeForeignKeys_names.
Qed.

Lemma head_id_In {A : Type} (f : A -> string) (xs : list A) (id : string) :
  option_map f (head xs) = Some id -> In id (map f xs).
Proof.
  destruct xs as [|x rest]; [discriminate|]. simpl. intros [= <-]. now left.
Qed.

(** X7.  [setModel] installs the model it is given with version 1 and with
    only the names of the foreign keys rewritten: schemas and types are
    kept, and tables, columns and foreign keys keep their order and every
    other field.  The first schema and the first table are selected (none
    where there is none), no column is, and the undo stack is emptied.
    Where [ensureUniqueConstraintName] answers with a name outside the names
    it is given, the foreign keys of each table end up with pairwise
    distinct names. *)
Theorem setModel_installs_sanitized_model :
  forall (st : ModelState.t) (model : DbModel.t),
    let st' := snd (setModel model st) in
    Forall2 (fun before after =>
               Table.id after = Table.id before
               /\ Table.schemaId after = Table.schemaId before
               /\ Table.name after = Table.name before
               /\ Table.comment after = Table.comment before
               /\ Table.columns after = Table.columns before
               /\ Table.position after = Table.position before
               /\ Forall2 (fun fk fk' =>
                             fk' = ForeignKey.mk
                                     (ForeignKey.id fk) (ForeignKey.name fk')
                                     (ForeignKey.fromColumnId fk) (ForeignKey.toTableId fk)
                                     (ForeignKey.toColumnId fk) (ForeignKey.onDelete fk)
                                     (ForeignKey.onUpdate fk) (ForeignKey.comment fk)
                                     (ForeignKey.startCardinality fk)
                                     (ForeignKey.endCardinality fk))
                          (Table.foreignKeys before) (Table.foreignKeys after))
            (DbModel.tables model) (modelTables st')
    /\ DbModel.schemas (ModelState.model st') = DbModel.schemas model
    /\ DbModel.types (ModelState.model st') = DbModel.types model
    /\ DbModel.version (ModelState.model st') = 1
    /\ selectionValid st'
    /\ ModelState.selectedSchemaId st' = option_map Schema.id (head (DbModel.schemas model))
    /\ ModelState.selectedTableId st' = option_map Table.id (head (DbModel.tables model))
    /\ ModelState.selectedColumnId st' = None
    /\ ModelState.showErd st' = ModelState.showErd st
    /\ ModelState.undoStack st' = []
    /\ (answersFresh -> constraintNamesDistinct (modelTables st')).
Proof.
  intros st model st'. unfold st', setModel, set, modelTables. simpl.
  split.
  { exact (sanitizeModel_tables
             (DbModel.mk 1 (DbModel.schemas model) (DbModel.tables model)
                         (DbModel.types model))). }
  do 3 (split; [reflexivity|]).
  split.
  { unfold selectionValid, modelTables. simpl. repeat split.
    - intros s Hs. now apply head_id_In.
    - intros t Ht. now apply head_id_In.
    - intros c Hc. discriminate. }
  split; [reflexivity|].
  split; [now destruct (DbModel.tables model)|].
  do 3 (split; [reflexivity|]).
  intros Hfresh.
  exact (sanitizeModel_names
           (DbModel.mk 1 (DbModel.schemas model) (DbModel.tables model)
                       (DbModel.types model)) Hfresh).
Qed.

(** X8.  The state read back from storage is repaired by [onRehydrateStorage]:
    a selected table that the model lacks gives way to the first table, a
    selected column that the model lacks is deselected, and a missing schema
    selection becomes the first schema; a schema selection that is present
    is kept whether the model has that schema or not.  The tables keep their
    identifiers and columns. *)
Theorem rehydrate_repairs_selection :
  forall (state : ModelState.t),
    let st' := rehydrate state in
    (forall t, ModelState.selectedTableId st' = Some t -> t <> EmptyString ->
               In t (map Table.id (modelTables st')))
    /\ (forall c, ModelState.selectedColumnId st' = Some c -> c <> EmptyString ->
                  hasColumn (modelTables st') c = true)
    /\ (Js.truthy (ModelState.selectedSchemaId state) = true ->
        ModelState.selectedSchemaId st' = ModelState.selectedSchemaId state)
    /\ (Js.truthy (ModelState.selectedSchemaId state) = false ->
        ModelState.selectedSchemaId st'
        = option_map Schema.id (head (DbModel.schemas (ModelState.model state))))
    /\ map Table.id (modelTables st') = map Table.id (modelTables state)
    /\ map Table.columns (modelTables st') = map Table.columns (modelTables state)
    /\ (answersFresh -> constraintNamesDistinct (modelTables st')).
Proof.
  intros state st'. unfold st', rehydrate, modelTables. simpl.
  set (tables := map _ (DbModel.tables (ModelState.model state))).
  split.
  { intros t Ht Hnonempty.
    destruct (ModelState.selectedTableId state) as [selected|] eqn:Hselected; simpl in Ht.
    - destruct (existsb (fun table => String.eqb selected (Table.id table)) tables) eqn:E.
      + rewrite andb_false_r in Ht. injection Ht as <-.
        apply existsb_exists in E. destruct E as (table & Hin & Heq).
        apply String.eqb_eq in Heq. rewrite Heq. now apply in_map.
      + rewrite andb_true_r in Ht.
        destruct (String.eqb selected EmptyString) eqn:Hempty; simpl in Ht.
        * injection Ht as <-. apply String.eqb_eq in Hempty. contradiction.
        * now apply head_id_In.
    - discriminate. }
  split.
  { intros c Hc Hnonempty.
    destruct (ModelState.selectedColumnId state) as [selected|] eqn:Hselected; simpl in Hc.
    - destruct (hasColumn tables selected) eqn:E.
      + rewrite andb_false_r in Hc. injection Hc as <-. exact E.
      + rewrite andb_true_r in Hc.
        destruct (String.eqb selected EmptyString) eqn:Hempty; simpl in Hc.
        * injection Hc as <-. apply String.eqb_eq in Hempty. contradiction.
        * discriminate.
    - discriminate. }
  split; [intros ->; reflexivity|].
  split; [intros ->; reflexivity|].
  split; [unfold tables; rewrite map_map; reflexivity|].
  split; [unfold tables; rewrite map_map; reflexivity|].
  intros Hfresh. exact (sanitizeModel_names (ModelState.model state) Hfresh).
Qed.

End Installed.

(** ** Removals and the invariants of the model *)

Lemma idNot_true (id other : string) : idNot id other = true <-> other <> id.
Proof.
  unfold idNot. rewrite negb_true_iff. apply String.eqb_neq.
Qed.

(** X9.  [removeTable] leaves no table called [id] and no foreign key that
    targets one: the references to the removed table go with it.  Foreign
    keys whose targets were resolved, or whose source columns were, still
    have them, tables still belong to schemas of the model, and every other
    table keeps its place, its columns and its foreign keys to other
    tables. *)
Theorem removeTable_cascades :
  forall (st : ModelState.t) (id : string),
    let st' := snd (removeTable id st) in
    (forall table, In table (modelTables st') ->
       Table.id table <> id
       /\ forall fk, In fk (Table.foreignKeys table) -> ForeignKey.toTableId fk <> id)
    /\ modelTables st'
       = map (fun table =>
                Table.withForeignKeys
                  (List.filter (fun fk => idNot id (ForeignKey.toTableId fk))
                               (Table.foreignKeys table))
                  table)
             (List.filter (fun table => idNot id (Table.id table)) (modelTables st))
    /\ (targetsResolved (modelTables st) -> targetsResolved (modelTables st'))
    /\ (sourcesResolved (modelTables st) -> sourcesResolved (modelTables st'))
    /\ (schemasResolved (ModelState.model st) -> schemasResolved (ModelState.model st')).
Proof.
  intros st id st'. unfold st', removeTable, mbind, Store_bind, bind, get, set, modelTables.
  simpl. set (tables := DbModel.tables (ModelState.model st)).
  assert (Hsurvivor : forall table,
            In table (map (fun table =>
                             Table.withForeignKeys
                               (List.filter (fun fk => idNot id (ForeignKey.toTableId fk))
                                            (Table.foreignKeys table))
                               table)
                          (List.filter (fun table => idNot id (Table.id table)) tables)) ->
            exists before,
              In before tables /\ Table.id before <> id
              /\ table = Table.withForeignKeys
                           (List.filter (fun fk => idNot id (ForeignKey.toTableId fk))
                                        (Table.foreignKeys before))
                           before).
  { intros table Hin. apply in_map_iff in Hin. destruct Hin as (before & <- & Hin).
    apply filter_In in Hin. destruct Hin as [Hin Hid]. apply idNot_true in Hid.
    exists before. repeat split; assumption. }
  split.
  { intros table Hin. destruct (Hsurvivor table Hin) as (before & _ & Hid & ->).
    split; [exact Hid|]. simpl. intros fk Hfk. apply filter_In in Hfk.
    now apply idNot_true. }
  split; [reflexivity|].
  split.
  { intros Hresolved table fk Hin Hfk.
    destruct (Hsurvivor table Hin) as (before & Hbefore & _ & ->). simpl in Hfk.
    apply filter_In in Hfk. destruct Hfk as [Hfk Hto]. apply idNot_true in Hto.
    destruct (Hresolved before fk Hbefore Hfk) as (target & column & Htarget & Hid & Hcolumn).
    exists (Table.withForeignKeys
              (List.filter (fun fk => idNot id (ForeignKey.toTableId fk))
                           (Table.foreignKeys target))
              target), column.
    split; [|split; [exact Hid|exact Hcolumn]].
    apply in_map_iff. exists target. split; [reflexivity|].
    apply filter_In. split; [exact Htarget|].
    apply idNot_true. now rewrite Hid. }
  split.
  { intros Hresolved table fk Hin Hfk.
    destruct (Hsurvivor table Hin) as (before & Hbefore & _ & ->). simpl in Hfk.
    apply filter_In in Hfk. destruct Hfk as [Hfk _].
    exact (Hresolved before fk Hbefore Hfk). }
  intros Hresolved table Hin. simpl in Hin.
  destruct (Hsurvivor table Hin) as (before & Hbefore & _ & ->). simpl.
  now apply Hresolved.
Qed.

(** X10.  [removeColumn] keeps the source columns of the foreign keys resolved,
    and their targets too when no foreign key of the table references the
    removed column of that same table. *)
Theorem removeColumn_keeps_references_resolved :
  forall (st : ModelState.t) (tableId columnId : string),
    (forall table fk,
       In table (modelTables st) -> Table.id table = tableId ->
       In fk (Table.foreignKeys table) ->
       ForeignKey.toTableId fk = tableId -> ForeignKey.toColumnId fk <> columnId) ->
    let st' := snd (removeColumn tableId columnId st) in
    (sourcesResolved (modelTables st) -> sourcesResolved (modelTables st'))
    /\ (targetsResolved (modelTables st) -> targetsResolved (modelTables st')).
Proof.
  intros st tableId columnId Hself st'.
  unfold st', removeColumn, mbind, Store_bind, bind, get, set, modelTables in *.
  simpl. set (tables := DbModel.tables (ModelState.model st)) in *.
  set (update := fun table : Table.t =>
         if negb (String.eqb (Table.id table) tableId)
         then
           Table.withForeignKeys
             (List.filter (fun fk => idNot columnId (ForeignKey.toColumnId fk))
                          (Table.foreignKeys table))
             table
         else
           Table.withForeignKeys
             (List.filter (fun fk => idNot columnId (ForeignKey.fromColumnId fk))
                          (Table.foreignKeys table))
             (Table.withColumns
                (List.filter (fun column => idNot columnId (Column.id column))
                             (Table.columns table))
                table)).
  assert (Hid : forall table, Table.id (update table) = Table.id table).
  { intros table. unfold update.
    now destruct (negb (String.eqb (Table.id table) tableId)). }
  split.
  - intros Hresolved table fk Hin Hfk.
    apply in_map_iff in Hin. destruct Hin as (before & <- & Hbefore).
    unfold update in *.
    destruct (negb (String.eqb (Table.id before) tableId)); simpl in *;
      apply filter_In in Hfk; destruct Hfk as [Hfk Hkept];
      destruct (Hresolved before fk Hbefore Hfk) as (column & Hcolumn & Hsource).
    + exists column. split; assumption.
    + exists column. split; [|exact Hsource].
      apply filter_In. split; [exact Hcolumn|]. now rewrite Hsource.
  - intros Hresolved table fk Hin Hfk.
    apply in_map_iff in Hin. destruct Hin as (before & <- & Hbefore).
    assert (Hold : In fk (Table.foreignKeys before)
                   /\ (Table.id before <> tableId -> ForeignKey.toColumnId fk <> columnId)).
    { unfold update in Hfk.
      destruct (String.eqb_spec (Table.id before) tableId) as [Heq|Hne];
        simpl in Hfk; apply filter_In in Hfk; destruct Hfk as [Hfk Hkept].
      - split; [exact Hfk|]. intros Hne. contradiction.
      - split; [exact Hfk|]. intros _. now apply idNot_true. }
    destruct Hold as [Hfk' Hkept].
    destruct (Hresolved before fk Hbefore Hfk')
      as (target & column & Htarget & Htid & Hcolumn & Hcid).
    exists (update target), column.
    split; [now apply in_map|]. split; [now rewrite Hid|]. split; [|exact Hcid].
    unfold update.
    destruct (String.eqb_spec (Table.id target) tableId) as [Heq|Hne]; simpl;
      [|exact Hcolumn].
    apply filter_In. split; [exact Hcolumn|]. apply idNot_true. rewrite Hcid.
    destruct (String.eqb_spec (Table.id before) tableId) as [Hsame|Hother].
    + apply (Hself before fk Hbefore Hsame Hfk'). now rewrite <- Htid.
    + now apply Hkept.
Qed.

Lemma removeColumn_keeps_references_resolved_witness :
  targetsResolved (modelTables (snd (removeColumn "t_orders" "c_ord_id"
                                                  (stateOf shopModel)))).
Proof.
  apply (proj2 (removeColumn_keeps_references_resolved (stateOf shopModel)
                  "t_orders" "c_ord_id"
                  ltac:(intros table fk [<-|[<-|[]]] Hid;
                        [intros []|intros [<-|[]]; discriminate]))).
  intros table fk [<-|[<-|[]]]; [intros []|intros [<-|[]]].
  exists (customers "s_public"), (keyColumn "c_cust_id" "id").
  simpl. repeat split; left; reflexivity.
Defined.

Lemma filter_keeps_one {A : Type} (p : A -> bool) (f : A -> string) (id : string)
    (xs : list A) :
  (forall x, p x = negb (String.eqb (f x) id)) ->
  List.NoDup (map f xs) -> 2 <= length xs -> List.filter p xs <> [].
Proof.
  intros Hp Hdistinct Hlen.
  destruct xs as [|x [|y rest]]; simpl in Hlen; try lia.
  simpl. rewrite !Hp.
  destruct (String.eqb_spec (f x) id) as [Hx|Hx]; simpl; [|discriminate].
  destruct (String.eqb_spec (f y) id) as [Hy|Hy]; simpl; [|discriminate].
  exfalso. simpl in Hdistinct. inversion Hdistinct as [|? ? Hhead _]; subst.
  apply Hhead. left. congruence.
Qed.

(** X11.  [removeSchema] never leaves a model without schema when the schemas
    have pairwise distinct identifiers, keeps every table inside a schema of
    the model, and keeps the source columns of the foreign keys resolved. *)
Theorem removeSchema_keeps_model_well_formed :
  forall (st : ModelState.t) (id : string),
    let st' := snd (removeSchema id st) in
    (List.NoDup (map Schema.id (DbModel.schemas (ModelState.model st))) ->
     DbModel.schemas (ModelState.model st) <> [] ->
     DbModel.schemas (ModelState.model st') <> [])
    /\ (schemasResolved (ModelState.model st) -> schemasResolved (ModelState.model st'))
    /\ (sourcesResolved (modelTables st) -> sourcesResolved (modelTables st'))
    /\ (forall table, In table (modelTables st') -> In table (modelTables st)).
Proof.
  intros st id st'. unfold st', removeSchema, set, modelTables.
  destruct (length (DbModel.schemas (ModelState.model st)) <=? 1) eqn:Hfew; simpl.
  - apply Nat.leb_le in Hfew. repeat split; auto.
  - apply Nat.leb_gt in Hfew. split; [|split; [|split]].
    + intros Hdistinct _.
      apply (filter_keeps_one _ Schema.id id); [reflexivity|assumption|lia].
    + intros Hresolved table Hin. simpl in *. apply filter_In in Hin.
      destruct Hin as [Hin Hkept]. apply idNot_true in Hkept.
      specialize (Hresolved table Hin). apply in_map_iff in Hresolved.
      destruct Hresolved as (schema & Hschema & Hs). apply in_map_iff.
      exists schema. split; [exact Hschema|]. apply filter_In. split; [exact Hs|].
      apply idNot_true. now rewrite Hschema.
    + intros Hresolved table fk Hin Hfk. apply filter_In in Hin.
      exact (Hresolved table fk (proj1 Hin) Hfk).
    + intros table Hin. apply filter_In in Hin. exact (proj1 Hin).
Qed.

(** ** Undo *)







(** ** Columns moved *)

Lemma nth_error_lookup {A : Type} (xs : list A) (k : nat) : nth_error xs k = xs !! k.
Proof.
  revert k. induction xs as [|x rest IH]; intros [|k]; simpl; auto.
Qed.

Lemma imap_at {A : Type} (R : A -> A -> Prop) (f : A -> A) (k : nat) (xs : list A) :
  (forall x, R x x) ->
  (forall x, nth_error xs k = Some x -> R x (f x)) ->
  Forall2 R xs (imap (fun idx item => if idx =? k then f item else item) xs).
Proof.
  intros Hrefl Hk. apply Forall2_lookup. intros i. rewrite list_lookup_imap.
  destruct (xs !! i) as [x|] eqn:Hx; simpl; constructor.
  destruct (Nat.eqb_spec i k) as [->|_]; [|apply Hrefl].
  apply Hk. now rewrite nth_error_lookup.
Qed.

Lemma spliceOut_nth {A : Type} (i : nat) (x : A) (xs : list A) :
  nth_error xs i = Some x ->
  xs = firstn i xs ++ x :: skipn (S i) xs /\ length (spliceOut i xs) = pred (length xs).
Proof.
  revert i. induction xs as [|y rest IH]; intros [|i] Hx; simpl in *; try discriminate.
  - injection Hx as ->. unfold spliceOut. simpl. split; reflexivity.
  - destruct (IH i Hx) as [Hsplit Hlen]. split; [now rewrite <- Hsplit|].
    unfold spliceOut in *. simpl. rewrite Hlen.
    destruct rest; [destruct i; discriminate|reflexivity].
Qed.

Lemma spliceIn_nth {A : Type} (i : nat) (x : A) (xs : list A) :
  i <= length xs -> nth_error (Js.spliceIn i x xs) i = Some x.
Proof.
  intros Hi. unfold Js.spliceIn.
  rewrite nth_error_app2 by (rewrite length_firstn; lia).
  rewrite length_firstn. replace (i - Init.Nat.min i (length xs)) with 0 by lia.
  reflexivity.
Qed.

Lemma spliceIn_Permutation {A : Type} (i : nat) (x : A) (xs : list A) :
  Permutation (x :: xs) (Js.spliceIn i x xs).
Proof.
  unfold Js.spliceIn. rewrite <- (firstn_skipn i xs) at 1. apply Permutation_middle.
Qed.

Lemma findIndex_bound {A : Type} (p : A -> bool) (xs : list A) (i : nat) :
  Js.findIndex p xs = Some i -> i < length xs.
Proof.
  intros Hi. destruct (findIndex_split p xs i Hi) as (before & x & after & -> & <- & _).
  rewrite length_app. simpl. lia.
Qed.

(** X13.  [moveColumn] only reorders: each table keeps its fields and has a
    permutation of the columns it had, and schemas, selection and undo stack
    are left alone.  When the table and both columns are found, the moved
    column lands at the index the target column had. *)
Theorem moveColumn_reorders :
  forall (st : ModelState.t) (tableId columnId targetColumnId : string),
    let st' := snd (moveColumn tableId columnId targetColumnId st) in
    Forall2 (fun before after =>
               Table.id after = Table.id before
               /\ Table.schemaId after = Table.schemaId before
               /\ Table.name after = Table.name before
               /\ Table.foreignKeys after = Table.foreignKeys before
               /\ Permutation (Table.columns before) (Table.columns after))
            (modelTables st) (modelTables st')
    /\ DbModel.schemas (ModelState.model st') = DbModel.schemas (ModelState.model st)
    /\ ModelState.selectedSchemaId st' = ModelState.selectedSchemaId st
    /\ ModelState.selectedTableId st' = ModelState.selectedTableId st
    /\ ModelState.selectedColumnId st' = ModelState.selectedColumnId st
    /\ ModelState.undoStack st' = ModelState.undoStack st
    /\ (forall table moved target toIndex,
          columnId <> targetColumnId ->
          lookupTable (modelTables st) tableId = Some table ->
          lookupColumn table columnId = Some moved ->
          lookupColumn table targetColumnId = Some target ->
          Js.findIndex (fun column => String.eqb (Column.id column) targetColumnId)
                       (Table.columns table) = Some toIndex ->
          exists table',
            lookupTable (modelTables st') tableId = Some table'
            /\ nth_error (Table.columns table') toIndex = Some moved).
Proof.
  intros st tableId columnId targetColumnId st'.
  assert (Hsame : Forall2 (fun before after =>
               Table.id after = Table.id before
               /\ Table.schemaId after = Table.schemaId before
               /\ Table.name after = Table.name before
               /\ Table.foreignKeys after = Table.foreignKeys before
               /\ Permutation (Table.columns before) (Table.columns after))
            (modelTables st) (modelTables st)).
  { apply Forall2_same_length_lookup_2; [reflexivity|].
    intros i x y Hx Hy. rewrite Hx in Hy. injection Hy as <-. repeat split; auto. }
  unfold st', moveColumn.
  destruct (String.eqb_spec columnId targetColumnId) as [Heq|Hne].
  { simpl. repeat split; try assumption; try reflexivity. intros. contradiction. }
  unfold set, modelTables in *. cbn [snd].
  set (tables := DbModel.tables (ModelState.model st)) in *.
  pose proof (findIndex_lookupTable tables tableId) as Htable.
  destruct (Js.findIndex (fun table => String.eqb (Table.id table) tableId) tables)
    as [tableIndex|] eqn:HtableIndex.
  2:{ repeat split; try assumption; try reflexivity.
      intros table moved target toIndex _ Hfound.
      rewrite Htable in Hfound. discriminate. }
  destruct Htable as (table & Hnth & Hlookup). rewrite Hnth.
  pose proof (findIndex_find (fun column => String.eqb (Column.id column) columnId)
                             (Table.columns table)) as Hfrom.
  pose proof (findIndex_find (fun column => String.eqb (Column.id column) targetColumnId)
                             (Table.columns table)) as Hto.
  destruct (Js.findIndex (fun column => String.eqb (Column.id column) columnId)
                         (Table.columns table)) as [fromIndex|] eqn:HfromIndex.
  2:{ repeat split; try assumption; try reflexivity.
      intros table0 moved target toIndex _ Hfound Hmoved.
      rewrite Hlookup in Hfound. injection Hfound as <-.
      unfold lookupColumn in Hmoved. rewrite Hfrom in Hmoved. discriminate. }
  destruct (Js.findIndex (fun column => String.eqb (Column.id column) targetColumnId)
                         (Table.columns table)) as [toIndex|] eqn:HtoIndex.
  2:{ repeat split; try assumption; try reflexivity.
      intros table0 moved target toIndex _ Hfound _ Htarget.
      rewrite Hlookup in Hfound. injection Hfound as <-.
      unfold lookupColumn in Htarget. rewrite Hto in Htarget. discriminate. }
  destruct Hfrom as (moved & Hmoved & Hfind). rewrite Hmoved. simpl.
  destruct (spliceOut_nth fromIndex moved (Table.columns table) Hmoved) as [Hsplit Hlen].
  set (updatedColumns :=
         Js.spliceIn toIndex moved (spliceOut fromIndex (Table.columns table))).
  assert (Hperm : Permutation (Table.columns table) updatedColumns).
  { unfold updatedColumns. rewrite <- spliceIn_Permutation.
    rewrite Hsplit at 1. unfold spliceOut. symmetry. apply Permutation_middle. }
  split.
  { apply imap_at.
    - intros x. repeat split; auto.
    - intros x Hx. rewrite Hnth in Hx. injection Hx as <-. simpl.
      repeat split; auto. }
  do 3 (split; [reflexivity|]).
  split.
  { destruct (ModelState.selectedColumnId st) as [selected|]; simpl; [|reflexivity].
    destruct (String.eqb_spec selected columnId) as [->|_]; reflexivity. }
  split; [reflexivity|].
  intros table0 moved0 target toIndex0 _ Hfound Hmoved0 _ Hindex.
  rewrite Hlookup in Hfound. injection Hfound as <-.
  rewrite HtoIndex in Hindex. injection Hindex as <-.
  unfold lookupColumn in Hmoved0. rewrite Hfind in Hmoved0. injection Hmoved0 as <-.
  exists (Table.withColumns updatedColumns table). split.
  - destruct (findIndex_split _ _ _ HtableIndex)
      as (before & x & after & Htables & Hlength & Hx & Hbefore).
    assert (x = table) as ->.
    { rewrite Htables in Hnth. rewrite nth_error_app2 in Hnth by lia.
      replace (tableIndex - length before) with 0 in Hnth by lia.
      simpl in Hnth. congruence. }
    rewrite Htables. rewrite imap_app. simpl.
    unfold lookupTable. rewrite Nat.add_0_r, Hlength, Nat.eqb_refl.
    apply find_app_first; [|exact Hx].
    intros y Hy. apply list_elem_of_In, elem_of_lookup_imap in Hy.
    destruct Hy as (i & z & -> & Hz).
    assert (Hi : i < length before) by (apply lookup_lt_Some in Hz; exact Hz).
    destruct (Nat.eqb_spec i tableIndex) as [->|_]; [lia|].
    apply Hbefore. apply list_elem_of_In. eapply list_elem_of_lookup_2, Hz.
  - simpl. apply spliceIn_nth. rewrite Hlen.
    apply findIndex_bound in HtoIndex.
    destruct (Table.columns table); simpl in *; lia.
Qed.

Lemma moveColumn_reorders_witness :
  exists table',
    lookupTable
      (modelTables (snd (moveColumn "t_orders" "c_ord_customer" "c_ord_id"
                                    (stateOf shopModel))))
      "t_orders" = Some table'
    /\ nth_error (Table.columns table') 0
       = Some (plainColumn "c_ord_customer" "customer_id" "uuid").
Proof.
  destruct (moveColumn_reorders (stateOf shopModel) "t_orders" "c_ord_customer" "c_ord_id")
    as (_ & _ & _ & _ & _ & _ & Hlands).
  apply (Hlands orders (plainColumn "c_ord_customer" "customer_id" "uuid")
                (keyColumn "c_ord_id" "id") 0); try reflexivity.
  discriminate.
Defined.

(** ** The selection *)

Lemma hasColumn_true (tables : list Table.t) (columnId : string) :
  hasColumn tables columnId = true
  <-> exists table column,
        In table tables /\ In column (Table.columns table) /\ Column.id column = columnId.
Proof.
  unfold hasColumn. rewrite existsb_exists. split.
  - intros (table & Hin & Hcolumn). apply existsb_exists in Hcolumn.
    destruct Hcolumn as (column & Hc & Hid). apply String.eqb_eq in Hid.
    now exists table, column.
  - intros (table & column & Hin & Hc & Hid). exists table. split; [exact Hin|].
    apply existsb_exists. exists column. split; [exact Hc|]. now apply String.eqb_eq.
Qed.

Lemma isId_true (selected : option string) (id : string) :
  isId selected id = true <-> selected = Some id.
Proof.
  destruct selected as [s|]; simpl; [|split; discriminate].
  rewrite String.eqb_eq. split; congruence.
Qed.

Lemma head_column_found (tables : list Table.t) (table : Table.t) (c : string) :
  In table tables -> option_map Column.id (head (Table.columns table)) = Some c ->
  hasColumn tables c = true.
Proof.
  intros Hin Hhead. apply hasColumn_true.
  destruct (Table.columns table) as [|column rest] eqn:Hcolumns; [discriminate|].
  injection Hhead as <-. exists table, column. rewrite Hcolumns.
  repeat split; [exact Hin|now left].
Qed.

(** X14.  A selection that names entities of the model still does after a table
    or a column is removed, and after a schema is removed when the selected
    table and column are not named by the empty string. *)
Theorem removals_keep_selection_valid :
  forall (st : ModelState.t),
    selectionValid st ->
    (forall id, selectionValid (snd (removeTable id st)))
    /\ (forall tableId columnId, selectionValid (snd (removeColumn tableId columnId st)))
    /\ (ModelState.selectedTableId st <> Some EmptyString ->
        ModelState.selectedColumnId st <> Some EmptyString ->
        forall id, selectionValid (snd (removeSchema id st))).
Proof.
  intros st (Hschema & Htable & Hcolumn). split; [|split].
  - intros id. unfold removeTable, mbind, Store_bind, bind, get, set, selectionValid,
      modelTables in *. simpl.
    set (tables := map _ (List.filter _ (DbModel.tables (ModelState.model st)))).
    split; [exact Hschema|]. split.
    + intros t Ht. destruct (isId (ModelState.selectedTableId st) id) eqn:E.
      * now apply head_id_In.
      * specialize (Htable t Ht). apply in_map_iff in Htable.
        destruct Htable as (table & Hid & Hin).
        unfold tables. rewrite map_map. simpl. apply in_map_iff. exists table.
        split; [exact Hid|]. apply filter_In. split; [exact Hin|].
        apply idNot_true. rewrite Hid. intros ->.
        rewrite (proj2 (isId_true _ _) Ht) in E. discriminate.
    + intros c Hc.
      destruct (negb (Js.truthy (ModelState.selectedColumnId st))
                || negb (hasColumnOpt tables (ModelState.selectedColumnId st))) eqn:E.
      * set (chosen := find _ tables) in Hc.
        destruct chosen as [item|] eqn:Hchosen.
        -- apply find_some in Hchosen. eapply head_column_found; [apply Hchosen|exact Hc].
        -- destruct tables as [|first rest]; [discriminate|].
           simpl in Hc. eapply head_column_found; [left; reflexivity|exact Hc].
      * apply orb_false_iff in E. destruct E as [_ E]. apply negb_false_iff in E.
        rewrite Hc in E. exact E.
  - intros tableId columnId.
    unfold removeColumn, mbind, Store_bind, bind, get, set, selectionValid,
      modelTables in *. simpl.
    set (update := fun table : Table.t => if negb _ then _ else _).
    set (tables := DbModel.tables (ModelState.model st)) in *.
    assert (Hid : forall table, Table.id (update table) = Table.id table).
    { intros table. unfold update.
      now destruct (negb (String.eqb (Table.id table) tableId)). }
    split; [exact Hschema|]. split.
    + intros t Ht. rewrite map_ids_kept by exact Hid. now apply Htable.
    + intros c Hc.
      set (afterMap := if _ : bool then None else ModelState.selectedColumnId st) in *.
      destruct afterMap as [selected|] eqn:Hafter; [|destruct (_ && _); discriminate].
      assert (Hselected : c = selected)
        by (destruct (_ && _) in Hc; [discriminate|congruence]).
      subst selected. unfold afterMap in Hafter.
      destruct (existsb (fun table => String.eqb (Table.id table) tableId) tables
                && isId (ModelState.selectedColumnId st) columnId) eqn:E;
        [discriminate|].
      specialize (Hcolumn c Hafter). apply hasColumn_true in Hcolumn.
      destruct Hcolumn as (table & column & Hin & Hc' & Hcid).
      apply hasColumn_true. exists (update table), column.
      split; [now apply in_map|]. split; [|exact Hcid].
      unfold update.
      destruct (String.eqb_spec (Table.id table) tableId) as [Heq|Hne]; simpl;
        [|exact Hc'].
      apply filter_In. split; [exact Hc'|]. apply idNot_true. rewrite Hcid.
      intros ->. apply andb_false_iff in E. destruct E as [E|E].
      * rewrite <- not_true_iff_false in E. apply E. apply existsb_exists.
        exists table. split; [exact Hin|]. now apply String.eqb_eq.
      * rewrite (proj2 (isId_true _ _) Hafter) in E. discriminate.
  - intros Htruthy Hctruthy id.
    unfold removeSchema, set, selectionValid, modelTables in *. cbn [snd].
    destruct (length (DbModel.schemas (ModelState.model st)) <=? 1);
      [repeat split; assumption|]. simpl.
    set (filteredTables := List.filter _ (DbModel.tables (ModelState.model st))).
    split; [|split].
    + intros s Hs. destruct (isId (ModelState.selectedSchemaId st) id) eqn:E.
      * now apply head_id_In.
      * specialize (Hschema s Hs). apply in_map_iff in Hschema.
        destruct Hschema as (schema & Hid & Hin). apply in_map_iff. exists schema.
        split; [exact Hid|]. apply filter_In. split; [exact Hin|].
        apply idNot_true. rewrite Hid. intros ->.
        rewrite (proj2 (isId_true _ _) Hs) in E. discriminate.
    + intros t Ht.
      destruct (ModelState.selectedTableId st) as [selected|] eqn:Hselected; simpl in Ht;
        [|discriminate].
      destruct (String.eqb_spec selected EmptyString) as [->|_];
        [contradiction Htruthy; reflexivity|]. simpl in Ht.
      destruct (existsb (fun table => String.eqb selected (Table.id table)) filteredTables)
        eqn:E; simpl in Ht.
      * injection Ht as <-. apply existsb_exists in E.
        destruct E as (table & Hin & Heq). apply String.eqb_eq in Heq.
        rewrite Heq. now apply in_map.
      * now apply head_id_In.
    + intros c Hc.
      destruct (ModelState.selectedColumnId st) as [selected|] eqn:Hselected; simpl in Hc;
        [|discriminate].
      destruct (String.eqb_spec selected EmptyString) as [->|_];
        [contradiction Hctruthy; reflexivity|]. simpl in Hc.
      destruct (hasColumn filteredTables selected) eqn:E; simpl in Hc; [|discriminate].
      injection Hc as <-. exact E.
Qed.

Lemma shopModel_selection_valid :
  selectionValid
    (ModelState.mk shopModel (Some "s_public") (Some "t_orders") (Some "c_ord_customer")
                   true []).
Proof.
  repeat split; simpl.
  - intros s [= <-]. now left.
  - intros t [= <-]. right. now left.
  - intros c [= <-]. reflexivity.
Qed.

Lemma removals_keep_selection_valid_witness :
  selectionValid
    (snd (removeColumn "t_orders" "c_ord_customer"
            (ModelState.mk shopModel (Some "s_public") (Some "t_orders")
                           (Some "c_ord_customer") true []))).
Proof.
  apply (removals_keep_selection_valid _ shopModel_selection_valid).
Defined.

(** ** The column a join table references *)

Lemma find_allowed_some {A : Type} (q allowed : A -> bool) (xs : list A) (x : A) :
  find (fun y => q y && allowed y) xs = Some x ->
  In x xs /\ q x = true /\ allowed x = true.
Proof.
  intros E. apply find_some in E. destruct E as [Hin Hq].
  apply andb_true_iff in Hq. tauto.
Qed.

Lemma find_allowed_none {A : Type} (q allowed : A -> bool) (xs : list A) :
  find (fun y => q y && allowed y) xs = None ->
  forall x, In x xs -> allowed x = true -> q x = false.
Proof.
  intros E x Hin Hallowed. rewrite find_none_iff in E. specialize (E x Hin).
  cbv beta in E. rewrite Hallowed, andb_true_r in E. exact E.
Qed.

(** X15.  [pickReferenceColumn] answers with a column of the table outside
    [exclude], and with none only when every column is excluded.  Among the
    columns outside [exclude] it takes the preferred one if there is one,
    else a primary-key column if there is one, else a unique column if
    there is one. *)
Theorem pickReferenceColumn_preference :
  forall (table : Table.t) (preferredColumnId : option string) (exclude : gset string),
    match pickReferenceColumn table preferredColumnId exclude with
    | None => forall column, In column (Table.columns table) -> Column.id column ∈ exclude
    | Some reference =>
        In reference (Table.columns table)
        /\ (Column.id reference ∉ exclude)
        /\ (let isPreferred (column : Column.t) :=
               Js.truthy preferredColumnId = true
               /\ Some (Column.id column) = preferredColumnId in
             forall column,
               In column (Table.columns table) -> Column.id column ∉ exclude ->
               (isPreferred column -> isPreferred reference)
               /\ (Column.isPrimaryKey column = true ->
                   isPreferred reference \/ Column.isPrimaryKey reference = true)
               /\ (Column.isUnique column = true ->
                   isPreferred reference \/ Column.isPrimaryKey reference = true
                   \/ Column.isUnique reference = true))
    end.
Proof.
  intros table preferredColumnId exclude.
  destruct (pickReferenceColumn table preferredColumnId exclude) as [reference|] eqn:Hpick;
    [|exact (pickReferenceColumn_none_inv _ _ _ Hpick)].
  unfold pickReferenceColumn in Hpick. cbv zeta in Hpick.
  set (allowed := fun column : Column.t =>
                    negb (bool_decide (Column.id column ∈ exclude))).
  set (preferred := fun column : Column.t =>
                      bool_decide (Some (Column.id column) = preferredColumnId)).
  assert (Hallowed : forall column, allowed column = true <-> Column.id column ∉ exclude).
  { intros column. unfold allowed. rewrite negb_true_iff. apply bool_decide_eq_false. }
  assert (Hanswer : forall (q : Column.t -> bool),
            find (fun column => q column && allowed column) (Table.columns table)
            = Some reference ->
            In reference (Table.columns table) /\ (Column.id reference ∉ exclude)
            /\ q reference = true).
  { intros q E. apply find_allowed_some in E. rewrite Hallowed in E. tauto. }
  assert (Hnone : forall (q : Column.t -> bool),
            find (fun column => q column && allowed column) (Table.columns table) = None ->
            forall column, In column (Table.columns table) ->
                           Column.id column ∉ exclude -> q column = false).
  { intros q E column Hin Hout. apply (find_allowed_none q allowed _ E column Hin).
    now apply Hallowed. }
  assert (Hfirst : forall column, In column (Table.columns table) ->
                     Column.id column ∉ exclude ->
                     Js.truthy preferredColumnId = true ->
                     Some (Column.id column) = preferredColumnId ->
                     (if Js.truthy preferredColumnId
                      then find (fun column => preferred column && allowed column)
                                (Table.columns table)
                      else None) = None -> False).
  { intros column Hin Hout Htruthy Hid E. rewrite Htruthy in E.
    pose proof (Hnone preferred E column Hin Hout) as Hno.
    apply bool_decide_eq_false in Hno. contradiction. }
  destruct (if Js.truthy preferredColumnId
            then find (fun column =>
                         bool_decide (Some (Column.id column) = preferredColumnId)
                         && negb (bool_decide (Column.id column ∈ exclude)))
                      (Table.columns table)
            else None) as [found|] eqn:E1.
  { assert (found = reference) by congruence; subst found.
    destruct (Js.truthy preferredColumnId) eqn:Htruthy; [|discriminate].
    destruct (Hanswer preferred E1) as (Hin & Hout & Hid).
    apply bool_decide_eq_true in Hid. do 2 (split; [assumption|]). cbv zeta.
    intros column _ _. split; [tauto|]. split; intros _; left; tauto. }
  assert (Hnot : forall column, In column (Table.columns table) ->
                   Column.id column ∉ exclude ->
                   ~ (Js.truthy preferredColumnId = true
                      /\ Some (Column.id column) = preferredColumnId)).
  { intros column Hc Hcout [Htruthy Hid]. exact (Hfirst column Hc Hcout Htruthy Hid E1). }
  destruct (find (fun column => Column.isPrimaryKey column
                                && negb (bool_decide (Column.id column ∈ exclude)))
                 (Table.columns table)) as [found|] eqn:E2.
  { assert (found = reference) by congruence; subst found.
    destruct (Hanswer Column.isPrimaryKey E2) as (Hin & Hout & Hpk).
    do 2 (split; [assumption|]). cbv zeta. intros column Hc Hcout.
    specialize (Hnot column Hc Hcout). split; [tauto|]. split; intros _; tauto. }
  destruct (find (fun column => Column.isUnique column
                                && negb (bool_decide (Column.id column ∈ exclude)))
                 (Table.columns table)) as [found|] eqn:E3.
  { assert (found = reference) by congruence; subst found.
    destruct (Hanswer Column.isUnique E3) as (Hin & Hout & Hu).
    do 2 (split; [assumption|]). cbv zeta. intros column Hc Hcout.
    specialize (Hnot column Hc Hcout). split; [tauto|]. split; [|tauto].
    intros Hpk. rewrite (Hnone Column.isPrimaryKey E2 column Hc Hcout) in Hpk.
    discriminate. }
  apply find_some in Hpick. destruct Hpick as [Hin Hout]. apply Hallowed in Hout.
  do 2 (split; [assumption|]). cbv zeta. intros column Hc Hcout.
  specialize (Hnot column Hc Hcout). split; [tauto|]. split.
  - intros Hpk. rewrite (Hnone Column.isPrimaryKey E2 column Hc Hcout) in Hpk.
    discriminate.
  - intros Hu. rewrite (Hnone Column.isUnique E3 column Hc Hcout) in Hu. discriminate.
Qed.

(** ** Conversions that succeed *)

Lemma pickReferenceColumn_picked (table : Table.t) (preferred : option string)
    (exclude : gset string) (reference : Column.t) :
  pickReferenceColumn table preferred exclude = Some reference ->
  In reference (Table.columns table) /\ Column.id reference ∉ exclude.
Proof.
  intros Hpick.
  destruct (existsb (fun column => negb (bool_decide (Column.id column ∈ exclude)))
                    (Table.columns table)) eqn:E.
  - apply existsb_exists in E. destruct E as (column & Hin & Hout).
    apply negb_true_iff, bool_decide_eq_false in Hout.
    destruct (pickReferenceColumn_some table preferred exclude column Hin Hout)
      as (found & Hfound & Hprops).
    rewrite Hpick in Hfound. injection Hfound as <-. exact Hprops.
  - rewrite (pickReferenceColumn_none table preferred exclude) in Hpick; [discriminate|].
    intros column Hin.
    assert (Hno : negb (bool_decide (Column.id column ∈ exclude)) = false).
    { destruct (negb (bool_decide (Column.id column ∈ exclude))) eqn:Hc; [|reflexivity].
      rewrite <- E. symmetry. apply existsb_exists. now exists column. }
    now apply negb_false_iff, bool_decide_eq_true in Hno.
Qed.

Section ConversionSuccess.
Context {N : Naming} {L : Locale}.

(** What a successful conversion did, read off [convertUpdater]: [g] is the
    callback of its [map] over the tables. *)
Lemma convert_success_inv (st st' : ModelState.t) (ids : JoinIds.t)
    (tableId fkId : string) :
  convertForeignKeyToManyToMany ids tableId fkId st = (Returned true, st') ->
  exists tableIndex table fk sourceColumn targetTableIndex targetTable
         sourceReference targetReference join g,
    Js.findIndex (fun item => String.eqb (Table.id item) tableId) (modelTables st)
    = Some tableIndex
    /\ nth_error (modelTables st) tableIndex = Some table
    /\ lookupTable (modelTables st) tableId = Some table
    /\ lookupForeignKey table fkId = Some fk
    /\ lookupColumn table (ForeignKey.fromColumnId fk) = Some sourceColumn
    /\ Js.findIndex (fun item => String.eqb (Table.id item) (ForeignKey.toTableId fk))
                    (modelTables st) = Some targetTableIndex
    /\ nth_error (modelTables st) targetTableIndex = Some targetTable
    /\ lookupTable (modelTables st) (ForeignKey.toTableId fk) = Some targetTable
    /\ In sourceReference (Table.columns table)
    /\ (Column.isPrimaryKey sourceColumn = false ->
        Column.id sourceReference <> Column.id sourceColumn)
    /\ In targetReference (Table.columns targetTable)
    /\ st' = ModelState.mk
               (DbModel.withTables
                  (Js.spliceIn (tableIndex + 1) join (imap g (modelTables st)))
                  (ModelState.model st))
               (ModelState.selectedSchemaId st) (Some (JoinIds.joinTableId ids))
               (Some (JoinIds.leftColumnId ids))
               (ModelState.showErd st) (ModelState.undoStack st)
    /\ Table.id join = JoinIds.joinTableId ids
    /\ Table.schemaId join = Table.schemaId table
    /\ (forall other, In other (modelTables st) ->
                      Table.schemaId other = Table.schemaId table ->
                      Table.name other <> Table.name join)
    /\ (exists leftColumn rightColumn leftFk rightFk,
          Table.columns join = [leftColumn; rightColumn]
          /\ Table.foreignKeys join = [leftFk; rightFk]
          /\ leftColumn
             = Column.mk (JoinIds.leftColumnId ids) (Column.name leftColumn)
                         (Column.type sourceReference) false None true false false None
          /\ rightColumn
             = Column.mk (JoinIds.rightColumnId ids) (Column.name rightColumn)
                         (Column.type targetReference) false None true false false None
          /\ Column.name rightColumn <> Column.name leftColumn
          /\ leftFk
             = ForeignKey.mk (JoinIds.leftFkId ids) (ForeignKey.name leftFk)
                             (JoinIds.leftColumnId ids) (Table.id table)
                             (Column.id sourceReference) None None None
                             (Some "many") (Some "one")
          /\ rightFk
             = ForeignKey.mk (JoinIds.rightFkId ids) (ForeignKey.name rightFk)
                             (JoinIds.rightColumnId ids) (Table.id targetTable)
                             (Column.id targetReference) None None None
                             (Some "many") (Some "one"))
    /\ (forall index candidate,
          Table.id (g index candidate) = Table.id candidate
          /\ Table.schemaId (g index candidate) = Table.schemaId candidate
          /\ Table.name (g index candidate) = Table.name candidate)
    /\ (forall index candidate,
          Table.columns (g index candidate)
          = if (index =? tableIndex) && negb (Column.isPrimaryKey sourceColumn)
            then List.filter (fun column => idNot (Column.id sourceColumn) (Column.id column))
                             (Table.columns candidate)
            else Table.columns candidate)
    /\ (forall index candidate item,
          In item (Table.foreignKeys (g index candidate)) <->
          In item (Table.foreignKeys candidate)
          /\ (index = tableIndex -> ForeignKey.id item <> ForeignKey.id fk)
          /\ (Column.isPrimaryKey sourceColumn = false ->
              if index =? tableIndex
              then ForeignKey.fromColumnId item <> Column.id sourceColumn
              else ForeignKey.toColumnId item <> Column.id sourceColumn)).
Proof.
  unfold convertForeignKeyToManyToMany, convertUpdater. fold (modelTables st).
  pose proof (findIndex_lookupTable (modelTables st) tableId) as Htable.
  destruct (Js.findIndex _ (modelTables st)) as [i|] eqn:Hi; [|cbn; discriminate].
  destruct Htable as (table & Hnth & Htable). rewrite Hnth.
  destruct (find _ (Table.foreignKeys table)) as [fk|] eqn:Hfk; [|cbn; discriminate].
  destruct (find _ (Table.columns table)) as [sourceColumn|] eqn:Hsource; [|cbn; discriminate].
  pose proof (findIndex_lookupTable (modelTables st) (ForeignKey.toTableId fk)) as Htarget.
  destruct (Js.findIndex (fun candidate =>
                            String.eqb (Table.id candidate) (ForeignKey.toTableId fk))
                         (modelTables st)) as [j|] eqn:Hj; [|cbn; discriminate].
  destruct Htarget as (targetTable & Hnthj & Htarget). rewrite Hnthj.
  destruct (find _ (Table.columns targetTable)) as [targetColumn|] eqn:Hcolumn;
    [|cbn; discriminate].
  destruct (pickReferenceColumn table _ _) as [sourceReference|] eqn:Hpick;
    [|cbn; discriminate].
  destruct (pickReferenceColumn targetTable _ _) as [targetReference|] eqn:Hpick';
    [|cbn; discriminate].
  unfold buildJoinColumnName.
  destruct (layoutPositions _ _) as [[sourcePosition joinPosition] targetPosition].
  intros Hrun. injection Hrun as <-.
  apply pickReferenceColumn_picked in Hpick, Hpick'.
  destruct Hpick as [HsourceReference Hkept], Hpick' as [HtargetReference _].
  exists i, table, fk, sourceColumn, j, targetTable, sourceReference, targetReference.
  do 2 eexists.
  do 8 (split; [first [eassumption | reflexivity]|]).
  split; [exact HsourceReference|].
  split.
  { intros Hpk. rewrite Hpk in Hkept. simpl in Hkept.
    now rewrite not_elem_of_singleton in Hkept. }
  split; [exact HtargetReference|].
  split; [reflexivity|].
  do 2 (split; [reflexivity|]).
  split.
  { intros other Hin Hschema. simpl. intros Hname.
    eapply ensureUniqueName_fresh. rewrite <- Hname. apply in_map.
    apply filter_In. split; [exact Hin|]. now apply String.eqb_eq. }
  split.
  { do 4 eexists. do 2 (split; [reflexivity|]). do 2 (split; [reflexivity|]).
    split; [|split; reflexivity].
    simpl. intros Hname.
    match type of Hname with
    | ensureUniqueName ?base ?names = _ => apply (ensureUniqueName_fresh base names)
    end.
    rewrite Hname. now left. }
  split.
  { intros index candidate.
    destruct (index =? i); [|destruct (index =? j)]; repeat split; reflexivity. }
  split.
  { intros index candidate.
    destruct (index =? i); simpl.
    - destruct (Column.isPrimaryKey sourceColumn); reflexivity.
    - destruct (index =? j); reflexivity. }
  intros index candidate item.
  destruct (Nat.eqb_spec index i) as [->|Hne]; simpl.
  - rewrite filter_In, andb_true_iff, idNot_true.
    destruct (Column.isPrimaryKey sourceColumn); simpl.
    + intuition discriminate.
    + rewrite idNot_true. intuition.
  - destruct (index =? j); simpl.
    + rewrite filter_In. destruct (Column.isPrimaryKey sourceColumn); simpl.
      * intuition discriminate.
      * rewrite idNot_true. intuition.
    + destruct (Column.isPrimaryKey sourceColumn); simpl.
      * intuition discriminate.
      * rewrite filter_In, idNot_true. intuition.
Qed.

Lemma spliceIn_before {A : Type} (k i : nat) (x : A) (xs : list A) :
  i < k -> k <= length xs -> nth_error (Js.spliceIn k x xs) i = nth_error xs i.
Proof.
  intros Hi Hk. unfold Js.spliceIn.
  rewrite nth_error_app1 by (rewrite length_firstn; lia).
  rewrite nth_error_firstn. apply Nat.ltb_lt in Hi. now rewrite Hi.
Qed.

Lemma In_imap {A : Type} (g : nat -> A -> A) (xs : list A) (y : A) :
  In y (imap g xs) <-> exists i x, y = g i x /\ nth_error xs i = Some x.
Proof.
  rewrite <- list_elem_of_In, elem_of_lookup_imap.
  split; intros (i & x & Hy & Hx); exists i, x; split; try assumption;
    [now rewrite nth_error_lookup|now rewrite <- nth_error_lookup].
Qed.

(** X16.  A conversion that returns [true] inserts one table right after the
    source table: the join table, in the schema of the source table and
    named unlike the tables of that schema, with two non-nullable
    primary-key columns of distinct names and two many-to-one foreign keys
    that start at them and end at the source table and at the target table
    of the converted foreign key.  The source table loses the converted
    foreign key, the join table and its first column are selected, and no
    undo snapshot is taken. *)
Theorem convert_success_adds_join_table :
  forall (st st' : ModelState.t) (ids : JoinIds.t) (tableId fkId : string),
    convertForeignKeyToManyToMany ids tableId fkId st = (Returned true, st') ->
    exists tableIndex table fk table' join leftColumn rightColumn leftFk rightFk,
      nth_error (modelTables st) tableIndex = Some table
      /\ lookupTable (modelTables st) tableId = Some table
      /\ lookupForeignKey table fkId = Some fk
      /\ length (modelTables st') = S (length (modelTables st))
      /\ nth_error (modelTables st') tableIndex = Some table'
      /\ nth_error (modelTables st') (S tableIndex) = Some join
      /\ Table.id table' = tableId
      /\ (forall item, In item (Table.foreignKeys table') ->
                       In item (Table.foreignKeys table) /\ ForeignKey.id item <> fkId)
      /\ Table.id join = JoinIds.joinTableId ids
      /\ Table.schemaId join = Table.schemaId table
      /\ (forall other, In other (modelTables st) ->
                        Table.schemaId other = Table.schemaId table ->
                        Table.name other <> Table.name join)
      /\ Table.columns join = [leftColumn; rightColumn]
      /\ Table.foreignKeys join = [leftFk; rightFk]
      /\ Column.id leftColumn = JoinIds.leftColumnId ids
      /\ Column.id rightColumn = JoinIds.rightColumnId ids
      /\ Column.name rightColumn <> Column.name leftColumn
      /\ (forall column, In column (Table.columns join) ->
                         Column.isPrimaryKey column = true
                         /\ Column.nullable column = false)
      /\ ForeignKey.fromColumnId leftFk = JoinIds.leftColumnId ids
      /\ ForeignKey.toTableId leftFk = tableId
      /\ ForeignKey.fromColumnId rightFk = JoinIds.rightColumnId ids
      /\ ForeignKey.toTableId rightFk = ForeignKey.toTableId fk
      /\ (forall item, In item (Table.foreignKeys join) ->
                       ForeignKey.startCardinality item = Some "many"
                       /\ ForeignKey.endCardinality item = Some "one")
      /\ ModelState.selectedTableId st' = Some (JoinIds.joinTableId ids)
      /\ ModelState.selectedColumnId st' = Some (JoinIds.leftColumnId ids)
      /\ ModelState.undoStack st' = ModelState.undoStack st.
Proof.
  intros st st' ids tableId fkId Hrun.
  destruct (convert_success_inv st st' ids tableId fkId Hrun)
    as (i & table & fk & sourceColumn & j & targetTable & sourceReference
        & targetReference & join & g & Hi & Hnth & Htable & Hfk & Hsource & Hj & Hnthj
        & Htarget & HsourceReference & Hkept & HtargetReference & -> & Hjoin & Hschema
        & Hname & (leftColumn & rightColumn & leftFk & rightFk & Hcolumns & Hfks
                   & Hleft & Hright & Hnames & HleftFk & HrightFk)
        & Hg & Hgcolumns & Hgfks).
  assert (Hbound : i < length (modelTables st)) by (eapply findIndex_bound; exact Hi).
  exists i, table, fk, (g i table), join, leftColumn, rightColumn, leftFk, rightFk.
  unfold modelTables in *.
  cbn [ModelState.model ModelState.selectedTableId ModelState.selectedColumnId
       ModelState.undoStack DbModel.tables DbModel.withTables].
  do 3 (split; [assumption|]).
  split.
  { unfold Js.spliceIn. rewrite length_app. simpl.
    rewrite length_firstn, length_skipn, length_imap. lia. }
  split.
  { rewrite spliceIn_before by (rewrite ?length_imap; lia).
    rewrite nth_error_lookup, list_lookup_imap, <- nth_error_lookup, Hnth. reflexivity. }
  split.
  { replace (S i) with (i + 1) by lia. apply spliceIn_nth. rewrite length_imap. lia. }
  split.
  { destruct (Hg i table) as (-> & _). apply lookupTable_some in Htable. tauto. }
  split.
  { intros item Hitem. apply Hgfks in Hitem. destruct Hitem as (Hin & Hid & _).
    split; [exact Hin|]. unfold lookupForeignKey in Hfk. apply find_some in Hfk.
    destruct Hfk as [_ Hfk]. apply String.eqb_eq in Hfk. rewrite <- Hfk. now apply Hid. }
  do 5 (split; [assumption|]).
  split; [now rewrite Hleft|]. split; [now rewrite Hright|]. split; [assumption|].
  split.
  { intros column Hin. rewrite Hcolumns in Hin.
    destruct Hin as [<-|[<-|[]]]; [rewrite Hleft|rewrite Hright]; split; reflexivity. }
  split; [now rewrite HleftFk|].
  split.
  { rewrite HleftFk. simpl. apply lookupTable_some in Htable. tauto. }
  split; [now rewrite HrightFk|].
  split.
  { rewrite HrightFk. simpl. apply lookupTable_some in Htarget. tauto. }
  split.
  { intros item Hin. rewrite Hfks in Hin.
    destruct Hin as [<-|[<-|[]]]; [rewrite HleftFk|rewrite HrightFk]; split; reflexivity. }
  repeat split.
Qed.

(** X17.  A conversion that returns [true] keeps the foreign keys resolved
    when the converted foreign key leads to another table and no foreign key
    of the source table references the source column of that table itself:
    every foreign key of the new model, those of the join table included,
    starts at a column of its table and ends at a column of a table of the
    model. *)
Theorem convert_keeps_references_resolved :
  forall (st st' : ModelState.t) (ids : JoinIds.t) (tableId fkId : string)
         (table : Table.t) (fk : ForeignKey.t),
    convertForeignKeyToManyToMany ids tableId fkId st = (Returned true, st') ->
    lookupTable (modelTables st) tableId = Some table ->
    lookupForeignKey table fkId = Some fk ->
    ForeignKey.toTableId fk <> tableId ->
    (forall item, In item (Table.foreignKeys table) ->
                  ForeignKey.toTableId item = tableId ->
                  ForeignKey.toColumnId item <> ForeignKey.fromColumnId fk) ->
    (sourcesResolved (modelTables st) -> sourcesResolved (modelTables st'))
    /\ (targetsResolved (modelTables st) -> targetsResolved (modelTables st')).
Proof.
  intros st st' ids tableId fkId table0 fk0 Hrun Htable0 Hfk0 Hother Hself.
  destruct (convert_success_inv st st' ids tableId fkId Hrun)
    as (i & table & fk & sourceColumn & j & targetTable & sourceReference
        & targetReference & join & g & Hi & Hnth & Htable & Hfk & Hsource & Hj & Hnthj
        & Htarget & HsourceReference & Hkept & HtargetReference & -> & Hjoin & Hschema
        & Hname & (leftColumn & rightColumn & leftFk & rightFk & Hcolumns & Hfks
                   & Hleft & Hright & Hnames & HleftFk & HrightFk)
        & Hg & Hgcolumns & Hgfks).
  rewrite Htable in Htable0. injection Htable0 as <-.
  rewrite Hfk in Hfk0. injection Hfk0 as <-.
  assert (HsourceId : Column.id sourceColumn = ForeignKey.fromColumnId fk).
  { unfold lookupColumn in Hsource. apply find_some in Hsource.
    now apply String.eqb_eq. }
  assert (Hij : j <> i).
  { intros ->. rewrite Hnth in Hnthj. injection Hnthj as <-.
    apply lookupTable_some in Htable, Htarget. destruct Htable, Htarget. congruence. }
  assert (Himage : forall index candidate,
            nth_error (modelTables st) index = Some candidate ->
            In (g index candidate)
               (Js.spliceIn (i + 1) join (imap g (modelTables st)))).
  { intros index candidate Hindex. apply spliceIn_In. right.
    apply In_imap. now exists index, candidate. }
  assert (Hsurvives : forall column,
            In column (Table.columns table) ->
            Column.id column <> Column.id sourceColumn ->
            In column (Table.columns (g i table))).
  { intros column Hin Hid. rewrite Hgcolumns, Nat.eqb_refl. simpl.
    destruct (Column.isPrimaryKey sourceColumn); simpl; [exact Hin|].
    apply filter_In. split; [exact Hin|]. now apply idNot_true. }
  unfold modelTables in *. simpl. split.
  - intros Hresolved table' item Hin Hitem. apply spliceIn_In in Hin.
    destruct Hin as [->|Hin].
    + rewrite Hfks in Hitem. rewrite Hcolumns.
      destruct Hitem as [<-|[<-|[]]].
      * exists leftColumn. split; [now left|]. now rewrite Hleft, HleftFk.
      * exists rightColumn. split; [right; now left|]. now rewrite Hright, HrightFk.
    + apply In_imap in Hin. destruct Hin as (index & candidate & -> & Hindex).
      apply Hgfks in Hitem. destruct Hitem as (Hitem & _ & Hfrom).
      destruct (Hresolved candidate item (nth_error_In _ _ Hindex) Hitem)
        as (column & Hcolumn & Hid).
      exists column. split; [|exact Hid]. rewrite Hgcolumns.
      destruct (Nat.eqb_spec index i) as [->|_]; simpl; [|exact Hcolumn].
      destruct (Column.isPrimaryKey sourceColumn); simpl; [exact Hcolumn|].
      apply filter_In. split; [exact Hcolumn|]. apply idNot_true. rewrite Hid.
      now apply Hfrom.
  - intros Hresolved table' item Hin Hitem. apply spliceIn_In in Hin.
    destruct Hin as [->|Hin].
    + rewrite Hfks in Hitem. destruct Hitem as [<-|[<-|[]]].
      * exists (g i table), sourceReference.
        split; [now apply Himage|]. rewrite HleftFk. simpl.
        split; [apply Hg|]. split; [|reflexivity].
        rewrite Hgcolumns, Nat.eqb_refl. simpl.
        destruct (Column.isPrimaryKey sourceColumn) eqn:Hpk; simpl;
          [exact HsourceReference|].
        apply filter_In. split; [exact HsourceReference|]. apply idNot_true.
        now apply Hkept.
      * exists (g j targetTable), targetReference.
        split; [now apply Himage|]. rewrite HrightFk. simpl.
        split; [apply Hg|]. split; [|reflexivity].
        rewrite Hgcolumns. apply Nat.eqb_neq in Hij. rewrite Hij. exact HtargetReference.
    + apply In_imap in Hin. destruct Hin as (index & candidate & -> & Hindex).
      apply Hgfks in Hitem. destruct Hitem as (Hitem & _ & Hto).
      destruct (Hresolved candidate item (nth_error_In _ _ Hindex) Hitem)
        as (target & column & Htarget' & Htid & Hcolumn & Hcid).
      apply In_nth_error in Htarget'. destruct Htarget' as (k & Hk).
      exists (g k target), column.
      split; [now apply Himage|]. split; [now rewrite (proj1 (Hg k target))|].
      split; [|exact Hcid].
      rewrite Hgcolumns.
      destruct (Nat.eqb_spec k i) as [->|_]; simpl; [|exact Hcolumn].
      rewrite Hnth in Hk. injection Hk as <-.
      destruct (Column.isPrimaryKey sourceColumn) eqn:Hpk; simpl; [exact Hcolumn|].
      apply filter_In. split; [exact Hcolumn|]. apply idNot_true. rewrite Hcid.
      assert (Htid' : ForeignKey.toTableId item = tableId).
      { apply lookupTable_some in Htable. destruct Htable. congruence. }
      destruct (Nat.eqb_spec index i) as [->|Hne].
      * rewrite Hnth in Hindex. injection Hindex as <-.
        rewrite HsourceId. now apply Hself.
      * now apply Hto.
Qed.

End ConversionSuccess.

Lemma shopModel_resolved :
  sourcesResolved (DbModel.tables shopModel) /\ targetsResolved (DbModel.tables shopModel).
Proof.
  split; intros table fk [<-|[<-|[]]] Hfk; simpl in Hfk;
    try contradiction; destruct Hfk as [<-|[]].
  - exists (plainColumn "c_ord_customer" "customer_id" "uuid"). simpl. auto.
  - exists (customers "s_public"), (keyColumn "c_cust_id" "id"). simpl. auto.
Qed.

Lemma convert_success_adds_join_table_witness :
  length (modelTables
            (snd (convertForeignKeyToManyToMany (N := specNaming) (L := codeUnitLocale)
                    shopIds "t_orders" "fk_customer" (stateOf shopModel))))
  = 3.
Proof.
  destruct (convert_success_adds_join_table (N := specNaming) (L := codeUnitLocale)
              (stateOf shopModel)
              (snd (convertForeignKeyToManyToMany (N := specNaming) (L := codeUnitLocale)
                      shopIds "t_orders" "fk_customer" (stateOf shopModel)))
              shopIds "t_orders" "fk_customer")
    as (tableIndex & table & fk & table' & join & leftColumn & rightColumn & leftFk
        & rightFk & _ & _ & _ & Hlength & _).
  - vm_compute. reflexivity.
  - exact Hlength.
Defined.

Lemma convert_keeps_references_resolved_witness :
  targetsResolved
    (modelTables
       (snd (convertForeignKeyToManyToMany (N := specNaming) (L := codeUnitLocale)
               shopIds "t_orders" "fk_customer" (stateOf shopModel)))).
Proof.
  apply (convert_keeps_references_resolved (N := specNaming) (L := codeUnitLocale)
           (stateOf shopModel)
           (snd (convertForeignKeyToManyToMany (N := specNaming) (L := codeUnitLocale)
                   shopIds "t_orders" "fk_customer" (stateOf shopModel)))
           shopIds "t_orders" "fk_customer" orders
           (plainForeignKey "fk_customer" "orders_customer_id_fk"
                            "c_ord_customer" "t_customers" "c_cust_id")).
  - vm_compute. reflexivity.
  - reflexivity.
  - reflexivity.
  - discriminate.
  - intros item [<-|[]]. discriminate.
  - apply shopModel_resolved.
Defined.

Section Refused.
Context {N : Naming} {L : Locale}.

Lemma convert_refused_unchanged (st : ModelState.t) (tableId fkId : string)
    (ids : JoinIds.t) :
  exists success st',
    convertForeignKeyToManyToMany ids tableId fkId st = (Returned success, st')
    /\ (success = false -> st' = st).
Proof.
  unfold convertForeignKeyToManyToMany.
  destruct (convertUpdater ids tableId fkId st) as [success st'] eqn:Hrun.
  exists success, st'. split; [reflexivity|]. intros ->.
  unfold convertUpdater in Hrun.
  repeat match type of Hrun with
         | (let '(_, _) := ?pair in _) = _ => destruct pair
         | match ?scrutinee with _ => _ end = _ => destruct scrutinee
         end;
    congruence.
Qed.

(** X18.  [convertForeignKeyToManyToMany] never throws.  When it returns
    [false] the store is the one it was given and a precondition has failed:
    the table, the foreign key, its source column, its target table or its
    target column is missing, or the source table has no column left to
    reference once the source column is removed. *)
Theorem convert_refusal_means_failed_precondition :
  forall (st : ModelState.t) (tableId fkId : string) (ids : JoinIds.t),
    exists success st',
      convertForeignKeyToManyToMany ids tableId fkId st = (Returned success, st')
      /\ (success = false -> st' = st /\ PreconditionFails st tableId fkId).
Proof.
  intros st tableId fkId ids.
  destruct (convert_refused_unchanged st tableId fkId ids)
    as (success & st' & Hrun & Hsame).
  exists success, st'. split; [exact Hrun|]. intros ->. split; [now apply Hsame|].
  apply (convert_refused_only_on_failure st tableId fkId ids). now rewrite Hrun.
Qed.

End Refused.

(** ** Tables in a cycle are emitted too *)

Lemma insertSorted_Permutation {A : Type} (cmp : A -> A -> Z) (x : A) (xs : list A) :
  Permutation (x :: xs) (Js.insertSorted cmp x xs).
Proof.
  induction xs as [|y rest IH]; simpl; [reflexivity|].
  destruct (cmp x y <=? 0)%Z; [reflexivity|].
  rewrite perm_swap. now apply perm_skip.
Qed.

Lemma sort_Permutation {A : Type} (cmp : A -> A -> Z) (xs : list A) :
  Permutation xs (Js.sort cmp xs).
Proof.
  unfold Js.sort. induction xs as [|x rest IH]; simpl; [reflexivity|].
  rewrite <- insertSorted_Permutation. now apply perm_skip.
Qed.

Section AnyGraph.
Context {L : Locale}.
Variables (tables : list Table.t) (tableById : gmap string Table.t)
          (getSchemaName : string -> string).
Hypothesis distinct_ids : List.NoDup (map Table.id tables).
Hypothesis named_ids : forall table, In table tables -> Table.id table <> EmptyString.
Hypothesis by_id : forall table, In table tables -> tableById !! Table.id table = Some table.
Hypothesis only_tables :
  forall k table, tableById !! k = Some table -> In table tables /\ Table.id table = k.

Lemma topologicallySortTables_any_graph :
  exists front back,
    topologicallySortTables tables getSchemaName tableById = Some (front ++ back)
    /\ Permutation (front ++ back) tables
    /\ (forall before table after,
          front = before ++ table :: after ->
          forall b, dependsOn tables (Table.id table) b -> In b (map Table.id before))
    /\ (forall table, In table back ->
          exists target, In target back
                         /\ dependsOn tables (Table.id table) (Table.id target)).
Proof.
  unfold topologicallySortTables, topologicallySortTables_within, sortRounds.
  set (graph := buildGraph tables tableById).
  set (compare := compareBySchemaAndName tableById getSchemaName).
  set (start := initialSortState tables (fst graph) compare).
  destruct (sortLoop_terminates tableById (snd graph) compare
              (length (SortState.readyQueue start) + pendingWork (snd graph) ∅) start)
    as (final & Hrun & Hempty).
  { unfold remainingWork. simpl. lia. }
  rewrite Hrun. simpl.
  destruct (sortLoop_invariant tables tableById (snd graph) compare
              distinct_ids named_ids by_id
              (dependents_of_graph tables tableById getSchemaName)
              _ start final
              (initial_invariant tables tableById getSchemaName distinct_ids compare)
              Hrun) as [Hinv _].
  destruct Hinv as [I1 I2 I3 I4 I5 I6 I7].
  set (unvisited := fun table : Table.t =>
                      negb (bool_decide (Table.id table ∈ SortState.visited final))).
  set (remaining := List.filter unvisited tables).
  set (back := Js.sort (fun a b => compare (Table.id a) (Table.id b)) remaining).
  assert (Hremaining : forall table,
            In table back <-> In table tables /\ Table.id table ∉ SortState.visited final).
  { intros table. unfold back. rewrite sort_In. unfold remaining. rewrite filter_In.
    unfold unvisited. rewrite negb_true_iff, bool_decide_eq_false. reflexivity. }
  assert (Hordered : forall table,
            In table tables -> Table.id table ∈ SortState.visited final ->
            In table (SortState.ordered final)).
  { intros table Hin Hseen. apply I1, in_map_iff in Hseen.
    destruct Hseen as (other & Hid & Hother).
    now rewrite <- (unique_by_id tables other table distinct_ids (I3 _ Hother) Hin Hid). }
  assert (Hperm : Permutation (SortState.ordered final ++ back) tables).
  { apply Stdlib.Sorting.Permutation.NoDup_Permutation.
    - apply List.NoDup_app.
      + eapply List.NoDup_map_inv. exact I2.
      + unfold back. eapply Permutation_NoDup; [apply sort_Permutation|].
        apply List.NoDup_filter. eapply List.NoDup_map_inv. exact distinct_ids.
      + intros table Hfront Hback. apply Hremaining in Hback. destruct Hback as [_ Hnew].
        apply Hnew, I1. now apply in_map.
    - eapply List.NoDup_map_inv. exact distinct_ids.
    - intros table. rewrite in_app_iff, Hremaining. split.
      + intros [Hin|[Hin _]]; [now apply I3|exact Hin].
      + intros Hin.
        destruct (decide (Table.id table ∈ SortState.visited final)) as [Hseen|Hnew].
        * left. now apply Hordered.
        * right. split; assumption. }
  assert (Hfinish : finishSort tables compare final = SortState.ordered final ++ back).
  { unfold finishSort.
    destruct (Nat.eqb_spec (length (SortState.ordered final)) (length tables))
      as [Hlen|Hlen]; simpl; [|reflexivity].
    assert (Hnone : back = []).
    { apply Permutation_length in Hperm. rewrite length_app in Hperm.
      destruct back; [reflexivity|simpl in Hperm; lia]. }
    rewrite Hnone, app_nil_r. reflexivity. }
  rewrite Hfinish. exists (SortState.ordered final), back.
  split; [reflexivity|]. split; [exact Hperm|]. split.
  - intros before table after Heq b Hdep.
    apply (I7 before table after Heq).
    apply (requires_dependsOn tables tableById distinct_ids named_ids by_id only_tables);
      [|exact Hdep].
    apply I3. rewrite Heq. apply in_or_app. right. now left.
  - intros table Hback. apply Hremaining in Hback. destruct Hback as [Hin Hnew].
    destruct (I4 table Hin) as (dependencies & Hlookup & Hmem).
    destruct (decide (dependencies = ∅)) as [->|Hsome].
    + exfalso. destruct (I6 table Hin) as [H|H].
      * intros b Hb.
        destruct (decide (b ∈ SortState.visited final)) as [Hv|Hv]; [assumption|].
        exfalso. apply (not_elem_of_empty (C := gset string) b). apply Hmem. auto.
      * contradiction.
      * rewrite Hempty in H. destruct H.
    + apply set_choose_L in Hsome. destruct Hsome as (b & Hb).
      apply Hmem in Hb. destruct Hb as [Hreq Hnewb].
      pose proof Hreq as (fk & _ & _ & _ & _ & [target Htarget]).
      destruct (only_tables b target Htarget) as [Htin Htid].
      exists target. split.
      * apply Hremaining. split; [exact Htin|]. now rewrite Htid.
      * rewrite Htid.
        now apply (requires_dependsOn tables tableById distinct_ids named_ids by_id
                     only_tables).
Qed.

End AnyGraph.

Section ScriptAnyGraph.
Context {N : Naming} {L : Locale}.

(** X19.  In a model whose tables have distinct, non-empty identifiers,
    cycles among the foreign keys or not, the tables are ordered and
    [generatePostgresSql] emits every table exactly once: the order holds
    every table of the model once, the script is the statements of the
    schemas, of the types and, table by table in that order, one
    [CREATE TABLE] statement followed by the indexes of the table, joined by
    line breaks; the statement of every table begins with its qualified name
    and stands in the text of the script.  The order has two parts: in the
    first, every table comes after all the tables it depends on; every table
    of the second depends on a table of the second, so that part holds the
    tables on a cycle and those that lead to one. *)
Theorem every_table_is_emitted_once :
  forall (model : DbModel.t),
    List.NoDup (map Table.id (DbModel.tables model)) ->
    (forall table, In table (DbModel.tables model) -> Table.id table <> EmptyString) ->
    exists front back,
      orderedTables model = Some (front ++ back)
      /\ Permutation (front ++ back) (DbModel.tables model)
      /\ List.NoDup (map Table.id (front ++ back))
      /\ generateStatements model
         = Some (schemaStatements model ++ typeStatements model
                   ++ flat_map (tableStatements model) (front ++ back))
      /\ generatePostgresSql model
         = Some (Js.join Js.newline
                   (schemaStatements model ++ typeStatements model
                      ++ flat_map
                           (fun table =>
                              createTableStatement model table
                                :: buildIndexesForTable
                                     table (getSchemaName model (Table.schemaId table)))
                           (front ++ back)))
      /\ (forall table,
            In table (DbModel.tables model) ->
            In (createTableStatement model table)
               (flat_map (tableStatements model) (front ++ back))
            /\ (exists rest,
                  createTableStatement model table = createTableHead model table +:+ rest)
            /\ exists before after,
                 generatePostgresSql model
                 = Some (before +:+ createTableStatement model table +:+ after))
      /\ (forall before table after,
            front = before ++ table :: after ->
            forall b, dependsOn (DbModel.tables model) (Table.id table) b ->
                      In b (map Table.id before))
      /\ (forall table, In table back ->
            exists target,
              In target back
              /\ dependsOn (DbModel.tables model) (Table.id table) (Table.id target)).
Proof.
  intros model Hdistinct Hnamed.
  destruct (tableById_lookup model) as [Honly Hby].
  destruct (topologicallySortTables_any_graph (DbModel.tables model) (tableById model)
              (getSchemaName model) Hdistinct Hnamed (Hby Hdistinct) Honly)
    as (front & back & Hsort & Hperm & Hfront & Hback).
  assert (Hscript : generatePostgresSql model
                    = Some (Js.join Js.newline
                              (schemaStatements model ++ typeStatements model
                                 ++ flat_map (tableStatements model) (front ++ back)))).
  { unfold generatePostgresSql, generateStatements, orderedTables. rewrite Hsort.
    reflexivity. }
  exists front, back.
  split; [exact Hsort|]. split; [exact Hperm|]. split.
  { apply (Permutation_NoDup (l := map Table.id (DbModel.tables model)));
      [|exact Hdistinct].
    apply Permutation_map. symmetry. exact Hperm. }
  split.
  { unfold generateStatements, orderedTables. rewrite Hsort. reflexivity. }
  split.
  { rewrite Hscript, tableStatements_written. reflexivity. }
  split; [|split; assumption].
  intros table Hin.
  assert (Hordered : In table (front ++ back)).
  { eapply Permutation_in; [symmetry; exact Hperm|exact Hin]. }
  split; [now apply statement_listed|]. split; [apply createTableStatement_head|].
  rewrite Hscript, List.app_assoc.
  destruct (script_member model (schemaStatements model ++ typeStatements model)
                          (front ++ back) table Hordered) as (before & after & ->).
  now exists before, after.
Qed.

(** X25.  In a model whose tables have distinct identifiers and whose
    foreign keys all start at a column of their table and end at a column of
    a table of the model, the script leaves no foreign key out: for every
    one [buildForeignKeyClause] answers with a clause, which begins with
    [CONSTRAINT], the quoted name of the key and [FOREIGN KEY]; the clause
    stands in the [CREATE TABLE] statement that [buildTableStatement] makes
    for the table and, where no identifier of a table is empty, in the text
    that [generatePostgresSql] returns. *)
Theorem resolved_foreign_keys_get_a_clause :
  forall (model : DbModel.t) (table : Table.t) (fk : ForeignKey.t),
    List.NoDup (map Table.id (DbModel.tables model)) ->
    sourcesResolved (DbModel.tables model) ->
    targetsResolved (DbModel.tables model) ->
    In table (DbModel.tables model) ->
    In fk (Table.foreignKeys table) ->
    exists clause,
      buildForeignKeyClause fk table (fun id => tableById model !! id) (getSchemaName model)
      = Some clause
      /\ clause <> EmptyString
      /\ (exists rest,
            clause = "CONSTRAINT " +:+ quoteIdent (ForeignKey.name fk)
                       +:+ " FOREIGN KEY (" +:+ rest)
      /\ (exists before after,
            buildTableStatement table (getSchemaName model (Table.schemaId table))
                                (fun id => tableById model !! id) (getSchemaName model)
            = before +:+ clause +:+ after)
      /\ ((forall other, In other (DbModel.tables model) -> Table.id other <> EmptyString) ->
          exists before after,
            generatePostgresSql model = Some (before +:+ clause +:+ after)).
Proof.
  intros model table fk Hdistinct Hsources Htargets Hin Hfk.
  destruct (Hsources table fk Hin Hfk) as (fromColumn & Hfrom & HfromId).
  destruct (Htargets table fk Hin Hfk)
    as (targetTable & targetColumn & Htarget & Htid & Hcolumn & Hcid).
  destruct (tableById_lookup model) as [Honly Hby].
  pose proof (Hby Hdistinct targetTable Htarget) as Hlookup. rewrite Htid in Hlookup.
  assert (Hclause : exists clause,
             buildForeignKeyClause fk table (fun id => tableById model !! id)
                                   (getSchemaName model) = Some clause
             /\ clause <> EmptyString
             /\ exists rest,
                  clause = "CONSTRAINT " +:+ quoteIdent (ForeignKey.name fk)
                             +:+ " FOREIGN KEY (" +:+ rest).
  { unfold buildForeignKeyClause.
    destruct (find (fun column => String.eqb (Column.id column) (ForeignKey.fromColumnId fk))
                   (Table.columns table)) as [foundFrom|] eqn:E1.
    2:{ exfalso. rewrite find_none_iff in E1. specialize (E1 fromColumn Hfrom).
        cbv beta in E1. rewrite HfromId, String.eqb_refl in E1. discriminate. }
    rewrite Hlookup.
    destruct (find (fun column => String.eqb (Column.id column) (ForeignKey.toColumnId fk))
                   (Table.columns targetTable)) as [foundTo|] eqn:E2.
    2:{ exfalso. rewrite find_none_iff in E2. specialize (E2 targetColumn Hcolumn).
        cbv beta in E2. rewrite Hcid, String.eqb_refl in E2. discriminate. }
    eexists. split; [reflexivity|]. split.
    - destruct (ForeignKey.onDelete fk), (ForeignKey.onUpdate fk); discriminate.
    - cbv zeta.
      destruct (ForeignKey.onDelete fk), (ForeignKey.onUpdate fk); cbn [app];
        match goal with
        | |- exists rest, Js.join _ (?first :: ?others) = _ =>
            destruct (join_cons " " first others) as (post & ->)
        end;
        exists (quoteIdent (Column.name foundFrom) +:+ ")" +:+ post);
        rewrite !append_assoc; reflexivity. }
  destruct Hclause as (clause & Hclause & Hfilled & Hhead).
  destruct (createTableStatement_clause model table fk clause Hfk Hclause Hfilled)
    as (before & after & Hstatement).
  exists clause. split; [exact Hclause|]. split; [exact Hfilled|]. split; [exact Hhead|].
  split; [now exists before, after|].
  intros Hnamed.
  destruct (topologicallySortTables_any_graph (DbModel.tables model) (tableById model)
              (getSchemaName model) Hdistinct Hnamed (Hby Hdistinct) Honly)
    as (front & back & Hsort & Hperm & _).
  assert (Hordered : In table (front ++ back)).
  { eapply Permutation_in; [symmetry; exact Hperm|exact Hin]. }
  unfold generatePostgresSql, generateStatements, orderedTables. rewrite Hsort.
  cbn [option_map]. rewrite List.app_assoc.
  destruct (script_member model (schemaStatements model ++ typeStatements model)
                          (front ++ back) table Hordered) as (pre & post & ->).
  rewrite Hstatement. exists (pre +:+ before), (after +:+ post).
  now rewrite !append_assoc.
Qed.

End ScriptAnyGraph.

Lemma every_table_is_emitted_once_witness :
  exists front back,
    orderedTables (L := codeUnitLocale) cycleModel = Some (front ++ back)
    /\ Permutation (front ++ back) [tableP; tableQ; tableA]
    /\ (exists before after,
          generatePostgresSql (N := specNaming) (L := codeUnitLocale) cycleModel
          = Some (before +:+ createTableStatement cycleModel tableP +:+ after))
    /\ (forall table, In table back ->
          exists target,
            In target back
            /\ dependsOn (DbModel.tables cycleModel) (Table.id table) (Table.id target)).
Proof.
  destruct (every_table_is_emitted_once (N := specNaming) (L := codeUnitLocale) cycleModel)
    as (front & back & Hsort & Hperm & _ & _ & _ & Htext & _ & Hback).
  - simpl. repeat constructor; simpl; intuition discriminate.
  - simpl. intros table [<-|[<-|[<-|[]]]]; discriminate.
  - exists front, back. split; [exact Hsort|]. split; [exact Hperm|].
    split; [|exact Hback]. apply Htext. simpl. now left.
Defined.

Lemma resolved_foreign_keys_get_a_clause_witness :
  exists clause,
    buildForeignKeyClause
      (plainForeignKey "fk_customer" "orders_customer_id_fk"
                       "c_ord_customer" "t_customers" "c_cust_id")
      orders (fun id => tableById shopModel !! id)
      (getSchemaName shopModel)
    = Some clause
    /\ clause <> EmptyString
    /\ exists before after,
         generatePostgresSql (N := specNaming) (L := codeUnitLocale) shopModel
         = Some (before +:+ clause +:+ after).
Proof.
  destruct (resolved_foreign_keys_get_a_clause
              (N := specNaming) (L := codeUnitLocale) shopModel orders
              (plainForeignKey "fk_customer" "orders_customer_id_fk"
                               "c_ord_customer" "t_customers" "c_cust_id"))
    as (clause & Hclause & Hfilled & _ & _ & Hscript).
  - simpl. repeat constructor; simpl; intuition discriminate.
  - apply shopModel_resolved.
  - apply shopModel_resolved.
  - simpl. right. now left.
  - simpl. now left.
  - exists clause. split; [exact Hclause|]. split; [exact Hfilled|].
    apply Hscript. simpl. intros other [<-|[<-|[]]]; discriminate.
Defined.


(** ** Cardinalities *)

Lemma normalizeFkCardinality_kind (value : option string) :
  normalizeFkCardinality value
  = option_map (fun v => kindText (normalizeCardinality (Some v) one)) value.
Proof.
  destruct value as [v|]; [|reflexivity]. simpl.
  destruct (String.eqb v "many" || String.eqb v "one_or_many"
            || String.eqb v "zero_or_many")%bool; [reflexivity|].
  destruct (String.eqb v "one" || String.eqb v "one_and_only_one"
            || String.eqb v "zero_or_one")%bool; reflexivity.
Qed.

Section Added.
Context {N : Naming} {L : Locale}.

(** X20.  On a table of the model, [addForeignKey] appends one foreign key
    to it and returns its identifier.  The new key has the ends and actions
    it was given, a name unlike the names of the foreign keys the table had
    (where [ensureUniqueConstraintName] answers with a name outside the
    names it is given), and as cardinalities what the edges of the diagram
    read from the given ones with [one] as fallback, an absent cardinality
    staying absent.  Columns, the other tables, schemas and types, the
    selection (schema, table and column) and the undo stack are left alone;
    nothing checks that the ends exist. *)
Theorem addForeignKey_appends :
  forall (st : ModelState.t) (fkId tableId : string) (fk : ForeignKey.t) (table : Table.t),
    lookupTable (modelTables st) tableId = Some table ->
    exists added st',
      addForeignKey fkId tableId fk st = (Returned fkId, st')
      /\ lookupTable (modelTables st') tableId
         = Some (Table.withForeignKeys (Table.foreignKeys table ++ [added]) table)
      /\ added
         = ForeignKey.mk fkId (ForeignKey.name added)
             (ForeignKey.fromColumnId fk) (ForeignKey.toTableId fk)
             (ForeignKey.toColumnId fk) (ForeignKey.onDelete fk)
             (ForeignKey.onUpdate fk) (ForeignKey.comment fk)
             (option_map (fun v => kindText (normalizeCardinality (Some v) one))
                         (ForeignKey.startCardinality fk))
             (option_map (fun v => kindText (normalizeCardinality (Some v) one))
                         (ForeignKey.endCardinality fk))
      /\ (answersFresh ->
          ~ In (ForeignKey.name added) (map ForeignKey.name (Table.foreignKeys table)))
      /\ map Table.id (modelTables st') = map Table.id (modelTables st)
      /\ map Table.columns (modelTables st') = map Table.columns (modelTables st)
      /\ (forall other, In other (modelTables st) -> Table.id other <> tableId ->
                        In other (modelTables st'))
      /\ DbModel.version (ModelState.model st') = DbModel.version (ModelState.model st)
      /\ DbModel.schemas (ModelState.model st') = DbModel.schemas (ModelState.model st)
      /\ DbModel.types (ModelState.model st') = DbModel.types (ModelState.model st)
      /\ ModelState.selectedSchemaId st' = ModelState.selectedSchemaId st
      /\ ModelState.selectedTableId st' = ModelState.selectedTableId st
      /\ ModelState.selectedColumnId st' = ModelState.selectedColumnId st
      /\ ModelState.showErd st' = ModelState.showErd st
      /\ ModelState.undoStack st' = ModelState.undoStack st.
Proof.
  intros st fkId tableId fk table Htable.
  unfold addForeignKey, mbind, Store_bind, bind, set, mret, Store_ret, ret, modelTables
    in *. simpl.
  set (append := fun item : Table.t => if negb _ then item else _).
  assert (Hid : forall item, Table.id (append item) = Table.id item).
  { intros item. unfold append.
    now destruct (negb (String.eqb (Table.id item) tableId)). }
  do 2 eexists. split; [reflexivity|]. simpl. split.
  { rewrite (lookupTable_map append) by exact Hid. rewrite Htable. simpl.
    unfold append. apply lookupTable_some in Htable. destruct Htable as [_ ->].
    rewrite String.eqb_refl. simpl. reflexivity. }
  split.
  { simpl. rewrite <- !normalizeFkCardinality_kind. f_equal.
    - destruct (ForeignKey.startCardinality fk) as [v|]; [|reflexivity].
      unfold normalizeFkCardinality. now destruct (_ || _ || _).
    - destruct (ForeignKey.endCardinality fk) as [v|]; [|reflexivity].
      unfold normalizeFkCardinality. now destruct (_ || _ || _). }
  split; [intros Hfresh; apply Hfresh|].
  split; [apply map_ids_kept, Hid|].
  split.
  { rewrite map_map. apply map_ext. intros item. unfold append.
    now destruct (negb (String.eqb (Table.id item) tableId)). }
  split; [|repeat split].
  intros other Hin Hother. apply in_map_iff. exists other. split; [|exact Hin].
  unfold append. apply String.eqb_neq in Hother. now rewrite Hother.
Qed.

End Added.

Lemma addForeignKey_appends_witness :
  exists added st',
    addForeignKey (N := specNaming) "fk_second" "t_orders"
      (ForeignKey.mk "unused" "orders_customer_id_fk" "c_ord_customer" "t_customers"
                     "c_cust_id" None None None (Some "zero_or_many") (Some "exactly_one"))
      (stateOf shopModel)
    = (Returned "fk_second", st')
    /\ lookupTable (modelTables st') "t_orders"
       = Some (Table.withForeignKeys (Table.foreignKeys orders ++ [added]) orders)
    /\ ForeignKey.startCardinality added = Some "many"
    /\ ForeignKey.endCardinality added = Some "one".
Proof.
  destruct (addForeignKey_appends (N := specNaming) (stateOf shopModel) "fk_second" "t_orders"
              (ForeignKey.mk "unused" "orders_customer_id_fk" "c_ord_customer"
                 "t_customers" "c_cust_id" None None None
                 (Some "zero_or_many") (Some "exactly_one"))
              orders eq_refl)
    as (added & st' & Hrun & Htable & Hadded & _).
  exists added, st'. split; [exact Hrun|]. split; [exact Htable|].
  rewrite Hadded. split; reflexivity.
Defined.

(** X21.  [computeKindsForEdgeData] answers with many-to-one when an
    identifier of the edge is missing or empty, or when a table or a column
    is not found.  Otherwise an end is [one] exactly when its column is
    unique or is the only primary-key column of its table; whether the
    source column is nullable makes no difference. *)
Theorem computeKindsForEdgeData_kinds :
  forall (edgeData : EdgeEnds.t) (model : DbModel.t),
    let resolved (tableId columnId : option string) : option (Table.t * Column.t) :=
      match tableId, columnId with
      | Some t, Some c =>
          if Js.truthy tableId && Js.truthy columnId then
            match lookupTable (DbModel.tables model) t with
            | Some table => option_map (pair table) (lookupColumn table c)
            | None => None
            end
          else None
      | _, _ => None
      end in
    let kindOf (found : Table.t * Column.t) : Kind :=
      if Column.isUnique (snd found)
         || (Column.isPrimaryKey (snd found)
             && (length (List.filter Column.isPrimaryKey (Table.columns (fst found))) =? 1))
      then one else many in
    computeKindsForEdgeData edgeData model
    = match resolved (EdgeEnds.sourceTableId edgeData) (EdgeEnds.sourceColumnId edgeData),
            resolved (EdgeEnds.targetTableId edgeData) (EdgeEnds.targetColumnId edgeData) with
      | Some source, Some target => Kinds.mk (kindOf source) (kindOf target)
      | _, _ => Kinds.mk many one
      end.
Proof.
  intros edgeData model resolved kindOf. unfold computeKindsForEdgeData, resolved, kindOf.
  unfold lookupTable, lookupColumn, Js.truthy.
  destruct (EdgeEnds.sourceTableId edgeData) as [sourceTableId|]; [|reflexivity].
  destruct (EdgeEnds.sourceColumnId edgeData) as [sourceColumnId|]; [|reflexivity].
  destruct (EdgeEnds.targetTableId edgeData) as [targetTableId|];
    [|destruct (negb _ && negb _); [destruct (find _ _) as [t|]; [destruct (find _ _)|]|];
      reflexivity].
  destruct (EdgeEnds.targetColumnId edgeData) as [targetColumnId|];
    [|destruct (negb _ && negb _); [destruct (find _ _) as [t|]; [destruct (find _ _)|]|];
      reflexivity].
  destruct (String.eqb sourceTableId EmptyString); simpl; [reflexivity|].
  destruct (String.eqb sourceColumnId EmptyString); simpl; [reflexivity|].
  destruct (String.eqb targetTableId EmptyString); simpl.
  { destruct (find _ _) as [t|]; [destruct (find _ _)|]; reflexivity. }
  destruct (String.eqb targetColumnId EmptyString); simpl.
  { destruct (find _ _) as [t|]; [destruct (find _ _)|]; reflexivity. }
  destruct (find (fun t => String.eqb (Table.id t) sourceTableId) (DbModel.tables model))
    as [sourceTable|]; [|reflexivity].
  destruct (find (fun t => String.eqb (Table.id t) targetTableId) (DbModel.tables model))
    as [targetTable|]; simpl.
  2:{ destruct (find _ _); reflexivity. }
  destruct (find _ (Table.columns sourceTable)) as [sourceCol|]; simpl; [|reflexivity].
  destruct (find _ (Table.columns targetTable)) as [targetCol|]; simpl; reflexivity.
Qed.

(** ** Quoting *)

Lemma readQuoted_escaped (quote : ascii) (text : string) :
  readQuoted quote
    (Js.replaceAll quote (String quote (String quote EmptyString)) text
       +:+ String quote EmptyString)
  = Some text.
Proof.
  induction text as [|c rest IH]; simpl.
  - rewrite Ascii.eqb_refl. reflexivity.
  - destruct (Ascii.eqb c quote) eqn:E.
    + apply Ascii.eqb_eq in E. subst c. simpl.
      rewrite !Ascii.eqb_refl.
      change (EmptyString +:+ Js.replaceAll quote (String quote (String quote EmptyString))
                                            rest)
        with (Js.replaceAll quote (String quote (String quote EmptyString)) rest).
      rewrite IH. reflexivity.
    + simpl. rewrite E, IH. reflexivity.
Qed.

(** X22.  Quoting loses nothing: reading a quoted identifier or a quoted
    literal back, a doubled quote standing for one and a single quote
    closing the text, gives the text that was quoted, whatever quotes it
    contains.  Hence different names are never quoted to the same
    identifier, nor different texts to the same literal. *)
Theorem quoting_round_trip :
  forall (text other : string),
    unquote Js.quoteChar (quoteIdent text) = Some text
    /\ unquote Js.aposChar (quoteLiteral text) = Some text
    /\ (quoteIdent text = quoteIdent other -> text = other)
    /\ (quoteLiteral text = quoteLiteral other -> text = other).
Proof.
  assert (Hident : forall text, unquote Js.quoteChar (quoteIdent text) = Some text).
  { intros text. unfold quoteIdent, dq, unquote. simpl.
    apply (readQuoted_escaped Js.quoteChar). }
  assert (Hliteral : forall text, unquote Js.aposChar (quoteLiteral text) = Some text).
  { intros text. unfold quoteLiteral, apos, unquote. simpl.
    apply (readQuoted_escaped Js.aposChar). }
  intros text other. split; [apply Hident|]. split; [apply Hliteral|]. split.
  - intros Heq. pose proof (Hident text) as Htext. rewrite Heq, Hident in Htext.
    congruence.
  - intros Heq. pose proof (Hliteral text) as Htext. rewrite Heq, Hliteral in Htext.
    congruence.
Qed.

(** ** Statements of the script *)

Section Statements.
Context {N : Naming} {L : Locale}.

(** X23.  [buildIndexesForTable] emits as many statements as the table has
    columns that are indexed and neither primary key nor unique, in the
    order of those columns, and every statement it emits is a
    [CREATE INDEX] on such a column: a primary-key or unique column never
    gets one. *)
Theorem index_statements_only_for_plain_indexes :
  forall (table : Table.t) (schemaName : string),
    length (buildIndexesForTable table schemaName)
    = length (List.filter (fun column =>
                             Column.isIndexed column && negb (Column.isPrimaryKey column)
                             && negb (Column.isUnique column))
                          (Table.columns table))
    /\ (forall k statement,
          nth_error (buildIndexesForTable table schemaName) k = Some statement ->
          exists column indexName,
            nth_error (indexedColumns table) k = Some column
            /\ In column (Table.columns table)
            /\ Column.isIndexed column = true
            /\ Column.isPrimaryKey column = false
            /\ Column.isUnique column = false
            /\ statement
               = "CREATE INDEX " +:+ quoteIdent indexName +:+ " ON "
                   +:+ qualify schemaName (Table.name table)
                   +:+ " (" +:+ quoteIdent (Column.name column) +:+ ");").
Proof.
  intros table schemaName. unfold buildIndexesForTable. split.
  - rewrite length_map. rewrite <- (length_map snd), indexNames_columns. reflexivity.
  - intros k statement Hk. rewrite nth_error_map in Hk.
    destruct (nth_error (indexNames table [] (indexedColumns table)) k)
      as [[indexName column]|] eqn:Hentry; [|discriminate].
    injection Hk as <-. exists column, indexName.
    assert (Hcolumn : nth_error (indexedColumns table) k = Some column).
    { rewrite <- (indexNames_columns table [] (indexedColumns table)) at 1.
      rewrite nth_error_map, Hentry. reflexivity. }
    split; [exact Hcolumn|].
    apply nth_error_In in Hcolumn. unfold indexedColumns in Hcolumn.
    apply filter_In in Hcolumn. destruct Hcolumn as [Hin Hflags].
    apply andb_true_iff in Hflags. destruct Hflags as [Hflags Hunique].
    apply andb_true_iff in Hflags. destruct Hflags as [Hindexed Hpk].
    apply negb_true_iff in Hunique, Hpk. repeat split; assumption.
Qed.

(** X24.  The script creates every schema of the model that is not named
    [public], and no other: [public] itself is never created. *)
Theorem schemaStatements_skip_public :
  forall (model : DbModel.t) (statement : string),
    In statement (schemaStatements model)
    <-> exists schema,
          In schema (DbModel.schemas model)
          /\ Schema.name schema <> "public"
          /\ statement
             = "CREATE SCHEMA IF NOT EXISTS " +:+ quoteIdent (Schema.name schema) +:+ ";".
Proof.
  intros model statement. unfold schemaStatements. rewrite in_flat_map. split.
  - intros (schema & Hin & Hstatement). apply sort_In in Hin.
    destruct (String.eqb_spec (Schema.name schema) "public") as [Heq|Hne];
      simpl in Hstatement; [destruct Hstatement|].
    destruct Hstatement as [<-|[]]. now exists schema.
  - intros (schema & Hin & Hne & ->). exists schema. split; [now apply sort_In|].
    apply String.eqb_neq in Hne. rewrite Hne. now left.
Qed.

End Statements.

(** ** The script is always produced *)

Section Produced.
Context {N : Naming} {L : Locale}.

(** X26.  [generatePostgresSql] returns a script for every model, cycles
    among the foreign keys, repeated identifiers and dangling references
    included: the loop that orders the tables ends within [sortRounds]
    rounds, and more rounds than that change nothing. *)
Theorem generatePostgresSql_always_returns :
  forall (model : DbModel.t),
    (exists script, generatePostgresSql model = Some script)
    /\ (forall rounds,
          sortRounds (DbModel.tables model) (getSchemaName model) (tableById model)
          <= rounds ->
          topologicallySortTables_within rounds (DbModel.tables model)
                                         (getSchemaName model) (tableById model)
          = orderedTables model).
Proof.
  intros model. split.
  - unfold generatePostgresSql, generateStatements, orderedTables.
    destruct (topologicallySortTables_total (DbModel.tables model) (getSchemaName model)
                                            (tableById model)) as (ordered & ->).
    simpl. eexists. reflexivity.
  - intros rounds Hrounds. now apply topologicallySortTables_enough_rounds.
Qed.

Lemma pushType_members (customType : CustomType.t)
    (groups : list (string * list CustomType.t)) :
  forall schemaId other,
    (exists group, In (schemaId, group) (pushType customType groups) /\ In other group)
    <-> (exists group, In (schemaId, group) groups /\ In other group)
        \/ (other = customType /\ schemaId = CustomType.schemaId customType).
Proof.
  induction groups as [|[key types] rest IH]; intros schemaId other; simpl.
  - split.
    + intros (group & [[= <- <-]|[]] & [<-|[]]). right. split; reflexivity.
    + intros [(group & [] & _)|[-> ->]]. exists [customType]. split; now left.
  - destruct (String.eqb_spec key (CustomType.schemaId customType)) as [Hkey|Hkey]; simpl.
    + split.
      * intros (group & [[= <- <-]|Hin] & Hother).
        -- apply in_app_iff in Hother. destruct Hother as [Hother|[<-|[]]].
           ++ left. exists types. split; [now left|exact Hother].
           ++ right. split; [reflexivity|exact Hkey].
        -- left. exists group. split; [now right|exact Hother].
      * intros [(group & [[= <- <-]|Hin] & Hother)|[-> ->]].
        -- exists (types ++ [customType]). split; [now left|].
           apply in_or_app. now left.
        -- exists group. split; [now right|exact Hother].
        -- exists (types ++ [customType]). split; [left; now rewrite Hkey|].
           apply in_or_app. right. now left.
    + split.
      * intros (group & [[= <- <-]|Hin] & Hother).
        -- left. exists types. split; [now left|exact Hother].
        -- destruct (proj1 (IH schemaId other)) as [(g & Hg & Ho)|Hnew].
           ++ now exists group.
           ++ left. exists g. split; [now right|exact Ho].
           ++ now right.
      * intros [(group & [[= <- <-]|Hin] & Hother)|Hnew].
        -- exists types. split; [now left|exact Hother].
        -- destruct (proj2 (IH schemaId other)) as (g & Hg & Ho).
           ++ left. now exists group.
           ++ exists g. split; [now right|exact Ho].
        -- destruct (proj2 (IH schemaId other)) as (g & Hg & Ho).
           ++ now right.
           ++ exists g. split; [now right|exact Ho].
Qed.

Lemma groups_members (types : list CustomType.t) :
  forall (groups : list (string * list CustomType.t)) schemaId other,
    (exists group,
       In (schemaId, group) (fold_left (fun acc ct => pushType ct acc) types groups)
       /\ In other group)
    <-> (exists group, In (schemaId, group) groups /\ In other group)
        \/ (In other types /\ schemaId = CustomType.schemaId other).
Proof.
  induction types as [|customType rest IH]; intros groups schemaId other; simpl.
  - split; [now left|]. intros [H|[[] _]]. exact H.
  - rewrite IH, pushType_members. split.
    + intros [[H|[-> ->]]|[Hin Hid]].
      * now left.
      * right. split; [now left|reflexivity].
      * right. split; [now right|exact Hid].
    + intros [H|[[<-|Hin] Hid]].
      * left. now left.
      * left. right. split; [reflexivity|exact Hid].
      * right. split; assumption.
Qed.

(** X27.  The script creates an enum type exactly for the types whose
    schema the model has (under a name that is not empty): each such type
    gets a [CREATE TYPE ... AS ENUM] statement that lists its values in
    order, quoted, and a type of a schema the model lacks gets none. *)
Theorem typeStatements_for_known_schemas :
  forall (model : DbModel.t) (statement : string),
    In statement (typeStatements model)
    <-> exists customType schemaName,
          In customType (DbModel.types model)
          /\ schemaById model !! CustomType.schemaId customType = Some schemaName
          /\ schemaName <> EmptyString
          /\ statement
             = "CREATE TYPE " +:+ qualify schemaName (CustomType.name customType)
                 +:+ " AS ENUM ("
                 +:+ Js.join ", " (map quoteLiteral (CustomType.values customType))
                 +:+ ");".
Proof.
  intros model statement. unfold typeStatements. rewrite in_flat_map. split.
  - intros ([schemaId group] & Hgroup & Hstatement). simpl in Hstatement.
    destruct (schemaById model !! schemaId) as [schemaName|] eqn:Hschema;
      [|destruct Hstatement].
    destruct (String.eqb_spec schemaName EmptyString) as [Hempty|Hnamed];
      [destruct Hstatement|].
    apply in_map_iff in Hstatement. destruct Hstatement as (customType & <- & Hin).
    destruct (proj1 (groups_members (DbModel.types model) [] schemaId customType))
      as [(g & [] & _)|[Htype ->]]; [now exists group|].
    exists customType, schemaName. repeat split; try assumption.
    now destruct (CustomType.kind customType).
  - intros (customType & schemaName & Htype & Hschema & Hnamed & ->).
    destruct (proj2 (groups_members (DbModel.types model) []
                       (CustomType.schemaId customType) customType))
      as (group & Hgroup & Hin); [right; split; [exact Htype|reflexivity]|].
    exists (CustomType.schemaId customType, group). split; [exact Hgroup|].
    simpl. rewrite Hschema. apply String.eqb_neq in Hnamed. rewrite Hnamed.
    apply in_map_iff. exists customType. split; [|exact Hin].
    now destruct (CustomType.kind customType).
Qed.

End Produced.

(** ** The selection after additions *)

(** X28.  A selection that names entities of the model still does after
    [addSchema], [addTable] and [addColumn], whether they succeed or throw:
    what they select is what they have just added. *)
Theorem additions_keep_selection_valid :
  forall (st : ModelState.t),
    selectionValid st ->
    (forall newSchemaId name, selectionValid (snd (addSchema newSchemaId name st)))
    /\ (forall newTableId newColumnId schemaId name position,
          selectionValid (snd (addTable newTableId newColumnId schemaId name position st)))
    /\ (forall newColumnId tableId name,
          selectionValid (snd (addColumn newColumnId tableId name st))).
Proof.
  intros st (Hschema & Htable & Hcolumn). split; [|split].
  - intros newSchemaId name.
    unfold addSchema, mbind, Store_bind, bind, get, set, mret, Store_ret, ret,
      selectionValid, modelTables in *. simpl.
    split; [|split; assumption].
    intros s [= <-]. rewrite map_app. apply in_or_app. right. now left.
  - intros newTableId newColumnId schemaId name position.
    unfold addTable, mbind, Store_bind, bind, get, set, mret, Store_ret, ret, throw. simpl.
    destruct (negb (existsb _ (DbModel.schemas (ModelState.model st))));
      [repeat split; assumption|].
    unfold selectionValid, modelTables in *. simpl.
    split; [exact Hschema|]. split; [|intros c [=]].
    intros t [= <-]. rewrite map_app. apply in_or_app. right.
    destruct position; now left.
  - intros newColumnId tableId name.
    unfold addColumn, mbind, Store_bind, bind, get, set, mret, Store_ret, ret, throw. simpl.
    destruct (find _ (DbModel.tables (ModelState.model st))) as [table|] eqn:Hfound;
      [|repeat split; assumption].
    unfold selectionValid, modelTables in *. simpl.
    split; [exact Hschema|]. split.
    + intros t Ht. rewrite map_map. specialize (Htable t Ht).
      apply in_map_iff in Htable. destruct Htable as (item & Hid & Hin).
      apply in_map_iff. exists item. split; [|exact Hin].
      now destruct (String.eqb (Table.id item) tableId).
    + intros c [= <-]. apply hasColumn_true.
      apply find_some in Hfound. destruct Hfound as [Hin Hid].
      eexists. eexists. split; [apply in_map; exact Hin|].
      cbv beta. rewrite Hid. simpl. split; [apply in_or_app; right; now left|].
      reflexivity.
Qed.

Lemma additions_keep_selection_valid_witness :
  selectionValid
    (snd (addColumn "c_ord_total" "t_orders" (Some "total")
            (ModelState.mk shopModel (Some "s_public") (Some "t_orders")
                           (Some "c_ord_customer") true []))).
Proof.
  apply (additions_keep_selection_valid _ shopModel_selection_valid).
Defined.
